(** * Tellyo-mixer: a verification development for the audio routing matrix

    The program under study is [src/Tellyo-mixer.cpp]: the classes
    [CountUsers], [Port], [InputPort], [OutputPort], [MatrixPoint] and the
    struct [Dsp].  Objects live in a store indexed by their address, raw
    pointers are addresses ([0] is [nullptr]), and every member function is a
    computation in a state-and-fault monad over that store.

    Modelling conventions
    - [unsigned int users_count_] is a [Z] in [[0, 2^32)]; [++] and [--] wrap.
    - [float] is IEEE-754 binary32 ([spec_float] with precision 24 and
      maximal exponent 128); [+] and [*] round to nearest even, each on its
      own (no fused multiply-add).
    - [assert] is enabled (no [NDEBUG]): a failed assertion aborts the
      computation with [AssertionFailed].
    - Dereferencing [nullptr] is the fault [NullDereference]; touching an
      address that holds no live object, or a sample outside its block of
      audio memory, is the fault [InvalidAccess].
    - Audio memory belongs to the backend: a buffer pointer is the base
      address of a block of samples, and two pointers alias exactly when they
      are equal.
    - [jack_nframes_t] values are natural numbers; the loop counter of
      [MatrixPoint::process] stays below [samples_count], so it never wraps.
    - [InputPort] and [OutputPort] add no data member to [Port]; objects of
      both classes live in one store of ports, and the static type of a
      pointer is not recorded.
    - Registering and unregistering a port with JACK (the constructor and
      the destructor of [Port]) is the backend's business: a [Port] record
      stands for a constructed port, [jack_port_] for the token it got. *)

From Stdlib Require Import ZArith List Lia.
From Stdlib Require Import Floats.SpecFloat.
From stdpp Require Import gmap list strings fin_maps.

Set Default Proof Using "Type".

(** ** Samples *)

Abbreviation float := spec_float.

Module F32.
Definition prec : Z := 24.
Definition emax : Z := 128.
Definition add : float -> float -> float := SFadd prec emax.
Definition mul : float -> float -> float := SFmul prec emax.
(** The [int] literal [0] converted to [float], as [std::fill] does. *)
Definition zero : float := S754_zero false.
(** An integer converted to [float]. *)
Definition of_Z (z : Z) : float := binary_normalize prec emax z 0 false.
(** [m * 2^e] converted to [float]. *)
Definition of_scaled (m e : Z) : float := binary_normalize prec emax m e false.
End F32.

(** ** Faults and the computation monad *)

Inductive fault : Type :=
| AssertionFailed
| NullDereference
| InvalidAccess.

Inductive result (A : Type) : Type :=
| Ok (a : A)
| Fault (f : fault).
Arguments Ok {A} a.
Arguments Fault {A} f.

(** ** Objects *)

(** Addresses of objects and of audio blocks. *)
Abbreviation addr := N.
Definition nullptr : addr := 0%N.

Definition UINT_RANGE : Z := 2 ^ 32.

(** [class CountUsers]: the only data member. *)
Record CountUsers : Type := mkCountUsers { users_count_ : Z }.

(** [class Port : public CountUsers].  [buffer_] has no initialiser in the
    constructor, so a record always carries some pointer value. *)
Record Port : Type := mkPort {
  port_base : CountUsers;
  jack_port_ : N;
  name_ : string;
  buffer_ : addr
}.

(** [class MatrixPoint : public CountUsers]. *)
Record MatrixPoint : Type := mkMatrixPoint {
  point_base : CountUsers;
  input_ : addr;
  output_ : addr;
  gain_ : float
}.

(** [struct Dsp]: three vectors of raw pointers. *)
Record Dsp : Type := mkDsp {
  inputs : list addr;
  outputs : list addr;
  matrix_points : list addr
}.

(** A line written to [std::cerr] by [incrementUsers] / [decrementUsers]:
    the text ["++ @"] or ["-- @"] followed by [this]. *)
Inductive cerr_line : Type :=
| PlusPlus (this : addr)
| MinusMinus (this : addr).

(** A record of a member-function call, kept only to observe the order in
    which [Dsp::process] drives the objects; no function reads it. *)
Inductive call : Type :=
| CallUpdateBufferAddress (this : addr) (nframes : nat)
| CallResetBuffer (this : addr) (nframes : nat)
| CallProcess (this : addr) (samples_count : nat).

(** The store: live [InputPort]/[OutputPort] objects, live [MatrixPoint]
    objects, the backend's audio memory, the text written to [std::cerr],
    and the observation log. *)
Record Heap : Type := mkHeap {
  ports : gmap N Port;
  points : gmap N MatrixPoint;
  audio : gmap N (list float);
  cerr : list cerr_line;
  calls : list call
}.

(** The audio backend as seen during one block: [jack_port_get_buffer]. *)
Record Backend : Type := mkBackend {
  jack_port_get_buffer : N -> nat -> addr
}.

Definition M (A : Type) : Type := Heap -> result (A * Heap).

Definition ret {A} (a : A) : M A := fun h => Ok (a, h).

Definition bind {A B} (c : M A) (k : A -> M B) : M B :=
  fun h =>
    match c h with
    | Ok (a, h1) => k a h1
    | Fault f => Fault f
    end.

Definition fail {A} (f : fault) : M A := fun _ => Fault f.

Notation "'let*' x ':=' c 'in' k" := (bind c (fun x => k))
  (at level 10, x name, c at level 100, k at level 200).
Notation "c1 >> c2" := (bind c1 (fun _ => c2))
  (at level 100, c2 at level 200, right associativity).

Definition modify (f : Heap -> Heap) : M unit := fun h => Ok (tt, f h).
Definition assert (b : bool) : M unit :=
  if b then ret tt else fail AssertionFailed.

Definition set_ports (f : gmap N Port -> gmap N Port) (h : Heap) : Heap :=
  mkHeap (f (ports h)) (points h) (audio h) (cerr h) (calls h).
Definition set_points (f : gmap N MatrixPoint -> gmap N MatrixPoint) (h : Heap) : Heap :=
  mkHeap (ports h) (f (points h)) (audio h) (cerr h) (calls h).
Definition set_audio (f : gmap N (list float) -> gmap N (list float)) (h : Heap) : Heap :=
  mkHeap (ports h) (points h) (f (audio h)) (cerr h) (calls h).
Definition write_cerr (l : cerr_line) (h : Heap) : Heap :=
  mkHeap (ports h) (points h) (audio h) (cerr h ++ [l]) (calls h).
Definition record_call (c : call) (h : Heap) : Heap :=
  mkHeap (ports h) (points h) (audio h) (cerr h) (calls h ++ [c]).

(** [for (auto x : container) body(x)]. *)
Fixpoint for_each {A} (l : list A) (body : A -> M unit) : M unit :=
  match l with
  | [] => ret tt
  | x :: l' => body x >> for_each l' body
  end.

(** [for (i = from; i < from + count; ++i) body(i)]. *)
Fixpoint for_range (from count : nat) (body : nat -> M unit) : M unit :=
  match count with
  | O => ret tt
  | S count' => body from >> for_range (S from) count' body
  end.

(** *** Pointer access *)

(** [*p] for a [Port*]. *)
Definition deref_port (p : addr) : M Port :=
  fun h =>
    if (p =? nullptr)%N then Fault NullDereference
    else match ports h !! p with
         | Some x => Ok (x, h)
         | None => Fault InvalidAccess
         end.

(** [*p] for a [MatrixPoint*]. *)
Definition deref_point (p : addr) : M MatrixPoint :=
  fun h =>
    if (p =? nullptr)%N then Fault NullDereference
    else match points h !! p with
         | Some x => Ok (x, h)
         | None => Fault InvalidAccess
         end.

(** [b[i]] read, for a [float*]. *)
Definition load (b : addr) (i : nat) : M float :=
  fun h =>
    if (b =? nullptr)%N then Fault NullDereference
    else match audio h !! b with
         | Some buf =>
             match buf !! i with
             | Some x => Ok (x, h)
             | None => Fault InvalidAccess
             end
         | None => Fault InvalidAccess
         end.

(** [b[i] = v], for a [float*]. *)
Definition store (b : addr) (i : nat) (v : float) : M unit :=
  fun h =>
    if (b =? nullptr)%N then Fault NullDereference
    else match audio h !! b with
         | Some buf =>
             if (i <? length buf)%nat
             then Ok (tt, set_audio (insert b (<[i := v]> buf)) h)
             else Fault InvalidAccess
         | None => Fault InvalidAccess
         end.

(** ** [class CountUsers] *)

(** [users_count_++] *)
Definition CountUsers_incrementUsers (c : CountUsers) : CountUsers :=
  mkCountUsers ((users_count_ c + 1) mod UINT_RANGE).

(** [assert(users_count_); users_count_--] *)
Definition CountUsers_decrementUsers (c : CountUsers) : result CountUsers :=
  if (users_count_ c =? 0)%Z then Fault AssertionFailed
  else Ok (mkCountUsers ((users_count_ c - 1) mod UINT_RANGE)).

(** [return users_count_] converted to [bool]. *)
Definition CountUsers_hasUsers (c : CountUsers) : bool :=
  negb (users_count_ c =? 0)%Z.

Definition lift {A} (r : result A) : M A :=
  fun h => match r with Ok a => Ok (a, h) | Fault f => Fault f end.

(** ** [class Port] and its two subclasses *)

Definition with_port_base (c : CountUsers) (p : Port) : Port :=
  mkPort c (jack_port_ p) (name_ p) (buffer_ p).
Definition with_buffer (b : addr) (p : Port) : Port :=
  mkPort (port_base p) (jack_port_ p) (name_ p) b.

(** The members inherited from [CountUsers], on a [Port] object. *)
Definition Port_incrementUsers (this : addr) : M unit :=
  let* p := deref_port this in
  modify (set_ports (insert this
            (with_port_base (CountUsers_incrementUsers (port_base p)) p))) >>
  modify (write_cerr (PlusPlus this)).

Definition Port_decrementUsers (this : addr) : M unit :=
  let* p := deref_port this in
  let* c := lift (CountUsers_decrementUsers (port_base p)) in
  modify (set_ports (insert this (with_port_base c p))) >>
  modify (write_cerr (MinusMinus this)).


(** [buffer_ = jack_port_get_buffer(jack_port_, nframes)] *)
Definition Port_updateBufferAddress (bk : Backend) (this : addr) (nframes : nat) : M unit :=
  modify (record_call (CallUpdateBufferAddress this nframes)) >>
  let* p := deref_port this in
  modify (set_ports (insert this
            (with_buffer (jack_port_get_buffer bk (jack_port_ p) nframes) p))).

(** [assert(buffer_); return buffer_;] *)
Definition Port_buffer (this : addr) : M addr :=
  let* p := deref_port this in
  assert (negb (buffer_ p =? nullptr)%N) >>
  ret (buffer_ p).

Definition Port_name (this : addr) : M string :=
  let* p := deref_port this in
  ret (name_ p).

(** [std::fill(buffer_, buffer_ + nframes, 0)]: no assertion guards the
    pointer here, and nothing is touched when [nframes] is [0]. *)
Definition OutputPort_resetBuffer (this : addr) (nframes : nat) : M unit :=
  modify (record_call (CallResetBuffer this nframes)) >>
  let* p := deref_port this in
  for_range 0 nframes (fun i => store (buffer_ p) i F32.zero).

(** ** [class MatrixPoint] *)

Definition with_point_base (c : CountUsers) (m : MatrixPoint) : MatrixPoint :=
  mkMatrixPoint c (input_ m) (output_ m) (gain_ m).
Definition with_gain (g : float) (m : MatrixPoint) : MatrixPoint :=
  mkMatrixPoint (point_base m) (input_ m) (output_ m) g.

(** Storage for a new [MatrixPoint] at [this]: the allocator (or the
    enclosing scope) hands out a non-null address holding no live object. *)
Definition construct_point (this : addr) (m : MatrixPoint) : M unit :=
  fun h =>
    if (this =? nullptr)%N then Fault NullDereference
    else match points h !! this with
         | Some _ => Fault InvalidAccess
         | None => Ok (tt, set_points (insert this m) h)
         end.

(** The members inherited from [CountUsers], on a [MatrixPoint] object. *)
Definition MatrixPoint_incrementUsers (this : addr) : M unit :=
  let* m := deref_point this in
  modify (set_points (insert this
            (with_point_base (CountUsers_incrementUsers (point_base m)) m))) >>
  modify (write_cerr (PlusPlus this)).

Definition MatrixPoint_decrementUsers (this : addr) : M unit :=
  let* m := deref_point this in
  let* c := lift (CountUsers_decrementUsers (point_base m)) in
  modify (set_points (insert this (with_point_base c m))) >>
  modify (write_cerr (MinusMinus this)).

(** [MatrixPoint(InputPort *input, OutputPort *output, float gain)] *)
Definition MatrixPoint_new (this input output : addr) (gain : float) : M unit :=
  construct_point this (mkMatrixPoint (mkCountUsers 0) input output gain) >>
  Port_incrementUsers input >>
  Port_incrementUsers output.

(** [MatrixPoint(const MatrixPoint& copyfrom)]: the base sub-object is
    default-constructed, so the copy starts with no users of its own. *)
Definition MatrixPoint_copy (this copyfrom : addr) : M unit :=
  let* src := deref_point copyfrom in
  construct_point this
    (mkMatrixPoint (mkCountUsers 0) (input_ src) (output_ src) (gain_ src)) >>
  Port_incrementUsers (input_ src) >>
  Port_incrementUsers (output_ src).

(** [MatrixPoint(MatrixPoint &&movefrom)] *)
Definition MatrixPoint_move (this movefrom : addr) : M unit :=
  let* src := deref_point movefrom in
  construct_point this
    (mkMatrixPoint (mkCountUsers 0) (input_ src) (output_ src) (gain_ src)) >>
  modify (set_points (insert movefrom
            (mkMatrixPoint (point_base src) nullptr nullptr (gain_ src)))).

(** [~MatrixPoint()] followed by the release of the storage. *)
Definition MatrixPoint_delete (this : addr) : M unit :=
  let* m := deref_point this in
  (if (input_ m =? nullptr)%N then ret tt else Port_decrementUsers (input_ m)) >>
  (if (output_ m =? nullptr)%N then ret tt else Port_decrementUsers (output_ m)) >>
  modify (set_points (delete this)).

(** [out_buffer[i] += gain * in_buffer[i]] *)
Definition accumulate_sample (gain : float) (in_buffer out_buffer : addr) (i : nat) : M unit :=
  let* x := load in_buffer i in
  let* y := load out_buffer i in
  store out_buffer i (F32.add y (F32.mul gain x)).

(** [void process(jack_nframes_t samples_count)].  Every use of a member
    ([input_], [output_], [gain_]) reads the object at [this]; [gain_] is
    read last, once, into the local [gain]. *)
Definition MatrixPoint_process (this : addr) (samples_count : nat) : M unit :=
  modify (record_call (CallProcess this samples_count)) >>
  let* m := deref_point this in
  let* in_buffer := Port_buffer (input_ m) in
  let* m := deref_point this in
  let* out_buffer := Port_buffer (output_ m) in
  let* m := deref_point this in
  let gain := gain_ m in
  for_range 0 samples_count (accumulate_sample gain in_buffer out_buffer).

(** [gain_.store(gain)] *)
Definition MatrixPoint_setGain (this : addr) (gain : float) : M unit :=
  let* m := deref_point this in
  modify (set_points (insert this (with_gain gain m))).

Definition MatrixPoint_input (this : addr) : M addr :=
  let* m := deref_point this in ret (input_ m).
Definition MatrixPoint_output (this : addr) : M addr :=
  let* m := deref_point this in ret (output_ m).

(** ** [struct Dsp] *)

Definition Dsp_process (bk : Backend) (d : Dsp) (nframes : nat) : M unit :=
  for_each (inputs d) (fun port => Port_updateBufferAddress bk port nframes) >>
  for_each (outputs d) (fun port =>
    Port_updateBufferAddress bk port nframes >>
    OutputPort_resetBuffer port nframes) >>
  for_each (matrix_points d) (fun point => MatrixPoint_process point nframes).

Definition Dsp_refAll (d : Dsp) : M unit :=
  for_each (inputs d) Port_incrementUsers >>
  for_each (outputs d) Port_incrementUsers >>
  for_each (matrix_points d) MatrixPoint_incrementUsers.

(** Each [clr(container)] decrements every element and then empties the
    vector; the objects themselves are not deleted. *)
Definition Dsp_unrefAll (d : Dsp) : M Dsp :=
  for_each (inputs d) Port_decrementUsers >>
  let d1 := mkDsp [] (outputs d) (matrix_points d) in
  for_each (outputs d1) Port_decrementUsers >>
  let d2 := mkDsp (inputs d1) [] (matrix_points d1) in
  for_each (matrix_points d2) MatrixPoint_decrementUsers >>
  ret (mkDsp (inputs d2) (outputs d2) []).

(** ** Call sequences on one usage counter *)

Definition counter_in_range (c : CountUsers) : Prop :=
  (0 <= users_count_ c < UINT_RANGE)%Z.

Inductive counter_call : Type := Increment | Decrement.

(** A sequence of [incrementUsers()] / [decrementUsers()] calls on one object. *)
Fixpoint counter_calls (calls : list counter_call) (c : CountUsers) : result CountUsers :=
  match calls with
  | [] => Ok c
  | Increment :: rest => counter_calls rest (CountUsers_incrementUsers c)
  | Decrement :: rest =>
      match CountUsers_decrementUsers c with
      | Ok c' => counter_calls rest c'
      | Fault f => Fault f
      end
  end.


(** The calls respect the precondition of [decrementUsers]: each decrement
    finds a positive counter. *)
Fixpoint respects_precondition (calls : list counter_call) (c : CountUsers) : Prop :=
  match calls with
  | [] => True
  | Increment :: rest => respects_precondition rest (CountUsers_incrementUsers c)
  | Decrement :: rest =>
      (0 < users_count_ c)%Z /\
      respects_precondition rest (mkCountUsers (users_count_ c - 1))
  end.

(** ** A small studio, used to run the model on concrete data *)

Module Studio.

(** The store a computation leaves behind (the initial one if it faults). *)
Definition after {A} (c : M A) (h : Heap) : Heap :=
  match c h with
  | Ok (_, h') => h'
  | Fault _ => h
  end.

Definition one : float := F32.of_Z 1.
Definition two : float := F32.of_Z 2.
Definition half : float := F32.of_scaled 1 (-1).

(** Input ports ["A"] (address 1) and ["B"] (address 3) and output port
    ["O"] (address 2), not yet refreshed.  The backend keeps the samples of
    ["A"] at 100 (all 1.0), those of ["B"] at 300 (all 0.5) and those of
    ["O"] at 200 (left-overs of an earlier block). *)
Definition idle : Heap :=
  mkHeap
    (<[1%N := mkPort (mkCountUsers 0) 10%N "A" nullptr]>
       (<[2%N := mkPort (mkCountUsers 0) 20%N "O" nullptr]>
          (<[3%N := mkPort (mkCountUsers 0) 30%N "B" nullptr]> ∅)))
    ∅
    (<[100%N := [one; one; one; one]]>
       (<[200%N := [half; two; half; two]]>
          (<[300%N := [half; half; half; half]]> ∅)))
    [] [].

Definition backend : Backend :=
  mkBackend (fun token _ => (token * 10)%N).

(** The backend one block later: every port is served from another block
    of memory. *)
Definition later_backend : Backend :=
  mkBackend (fun token _ => (token * 10 + 1000)%N).

(** A backend that has no buffer for the port of ["A"]. *)
Definition deaf_backend : Backend :=
  mkBackend (fun token _ => if (token =? 10)%N then nullptr else (token * 10)%N).

(** [MatrixPoint a(&A, &O, 2.0)] at address 50. *)
Definition wired : Heap := after (MatrixPoint_new 50%N 1%N 2%N two) idle.

Definition dsp : Dsp := mkDsp [1%N] [2%N] [50%N].

(** ... and [MatrixPoint b(&B, &O, 2.0)] at address 51. *)
Definition wired2 : Heap := after (MatrixPoint_new 51%N 3%N 2%N two) wired.

Definition dsp2 : Dsp := mkDsp [1%N; 3%N] [2%N] [51%N; 50%N].

(** The same ports with no gain node at all. *)
Definition unwired : Dsp := mkDsp [1%N; 3%N] [2%N] [].

End Studio.

(** ** Lifetimes of gain nodes *)

(** [1] when the pointer [q] is the address [p], else [0]. *)
Definition points_at (q p : addr) : Z := if decide (q = p) then 1%Z else 0%Z.

(** How many of the two references held by [m] point at port [p]. *)
Definition references (p : addr) (m : MatrixPoint) : Z :=
  (points_at (input_ m) p + points_at (output_ m) p)%Z.

(** The number of references to port [p] held by live [MatrixPoint] objects. *)
Definition live_references (h : Heap) (p : addr) : Z :=
  map_fold (fun _ m acc => (acc + references p m)%Z) 0%Z (points h).

(** The four ways the life of a [MatrixPoint] object changes the store. *)
Inductive lifetime_event : Type :=
| Created (this input output : addr) (gain : float)
| Copied (this copyfrom : addr)
| Moved (this movefrom : addr)
| Destroyed (this : addr).

Definition happen (e : lifetime_event) : M unit :=
  match e with
  | Created this input output gain => MatrixPoint_new this input output gain
  | Copied this copyfrom => MatrixPoint_copy this copyfrom
  | Moved this movefrom => MatrixPoint_move this movefrom
  | Destroyed this => MatrixPoint_delete this
  end.

(** By how much an event changes the number of references to port [p]:
    a new node adds its two references, a copy adds those of its source, a
    move adds nothing, a destruction takes away those the node held. *)
Definition reference_change (e : lifetime_event) (h : Heap) (p : addr) : Z :=
  match e with
  | Created _ input output _ => (points_at input p + points_at output p)%Z
  | Copied _ copyfrom =>
      match points h !! copyfrom with
      | Some src => references p src
      | None => 0%Z
      end
  | Moved _ _ => 0%Z
  | Destroyed this =>
      match points h !! this with
      | Some m => (- references p m)%Z
      | None => 0%Z
      end
  end.

(** Every live port's counter is a value of [unsigned int]. *)
Definition counters_in_range (h : Heap) : Prop :=
  forall p P, ports h !! p = Some P ->
    (0 <= users_count_ (port_base P) < UINT_RANGE)%Z.

(** Every live port's counter is the number of references held by live
    gain nodes plus the pins the owner holds on it, as an [unsigned int]. *)
Definition counters_track (pins : addr -> Z) (refs : addr -> Z) (h : Heap) : Prop :=
  forall p P, p <> nullptr -> ports h !! p = Some P ->
    users_count_ (port_base P) = ((refs p + pins p) mod UINT_RANGE)%Z.

Module StudioLife.
(** A node is created, copied, moved from and destroyed; its copy is
    destroyed too, and the node it was moved into lives on. *)
Definition events : list lifetime_event :=
  [Created 50%N 1%N 2%N Studio.two; Copied 51%N 50%N; Moved 52%N 50%N;
   Destroyed 50%N; Destroyed 51%N].
Definition no_pins : addr -> Z := fun _ => 0%Z.
End StudioLife.

(** ** Audio memory seen through the ports *)

(** The store with the block of samples at [b] replaced by [buf]. *)
Definition with_block (b : addr) (buf : list float) (h : Heap) : Heap :=
  set_audio (insert b buf) h.

(** [buf] with [F i] applied to the sample at every index [i] in
    [[from, from + count)]. *)
Definition map_range (F : nat -> float -> float) (from count : nat)
    (buf : list float) : list float :=
  imap (fun i y => if bool_decide (from <= i < from + count) then F i y else y) buf.

(** The pointer cached by port [p] ([nullptr] when [p] is not a live port). *)
Definition cached_buffer (h : Heap) (p : addr) : addr :=
  match ports h !! p with
  | Some P => buffer_ P
  | None => nullptr
  end.

(** The pointer the backend hands out for port [p] in this block. *)
Definition backend_buffer (bk : Backend) (nframes : nat) (h : Heap) (p : addr) : addr :=
  match ports h !! p with
  | Some P => jack_port_get_buffer bk (jack_port_ P) nframes
  | None => nullptr
  end.

(** Sample [i] of the block at [b]. *)
Definition block_sample (h : Heap) (b : addr) (i : nat) : option float :=
  match audio h !! b with
  | Some buf => buf !! i
  | None => None
  end.

(** Sample [i] of the buffer port [p] has cached. *)
Definition port_sample (h : Heap) (p : addr) (i : nat) : option float :=
  block_sample h (cached_buffer h p) i.

(** The new value of output sample [i], whose old value is [y], when a
    node of gain [gain] reads its input from the samples [xs]. *)
Definition accumulated (gain : float) (xs : list float) (i : nat) (y : float) : float :=
  F32.add y (F32.mul gain (default F32.zero (xs !! i))).

(** Silence, whatever the old value. *)
Definition silenced (i : nat) (y : float) : float := F32.zero.

(** ** The mix *)

(** Gain node [m] writes to output port [o]. *)
Definition targets (h : Heap) (o m : addr) : Prop :=
  output_ <$> points h !! m = Some o.

#[global] Instance targets_dec (h : Heap) (o m : addr) : Decision (targets h o m) :=
  decide (output_ <$> points h !! m = Some o).

(** [acc + gain * input[i]] for gain node [m]; [locate] says where the
    samples of a port are. *)
Definition add_contribution (h : Heap) (locate : addr -> addr) (i : nat)
    (acc : option float) (m : addr) : option float :=
  match acc, points h !! m with
  | Some a, Some mp =>
      match block_sample h (locate (input_ mp)) i with
      | Some x => Some (F32.add a (F32.mul (gain_ mp) x))
      | None => None
      end
  | _, _ => None
  end.

(** The contributions of [nodes], added to [start] one after the other in
    the order of the list. *)
Definition mix (h : Heap) (locate : addr -> addr) (i : nat)
    (start : option float) (nodes : list addr) : option float :=
  foldl (add_contribution h locate i) start nodes.

(** Ports ready for the gain nodes: every port of the graph is live and
    caches a non-null pointer to at least [n] samples, and no output block
    is shared with an input or with another output. *)
Record armed (n : nat) (ins outs : list addr) (h : Heap) : Prop := mkArmed {
  armed_ports : forall p, p ∈ ins ++ outs ->
    p <> nullptr /\
    exists P buf, ports h !! p = Some P /\ buffer_ P <> nullptr /\
                  audio h !! buffer_ P = Some buf /\ n <= length buf;
  armed_in_out : forall o p, o ∈ outs -> p ∈ ins ->
    cached_buffer h o <> cached_buffer h p;
  armed_out_out : forall o1 o2, o1 ∈ outs -> o2 ∈ outs ->
    cached_buffer h o1 = cached_buffer h o2 -> o1 = o2
}.

(** Every gain node of [nodes] is live and connects a port of [ins] to a
    port of [outs]. *)
Definition connected (ins outs : list addr) (h : Heap) (nodes : list addr) : Prop :=
  forall m, m ∈ nodes ->
    m <> nullptr /\
    exists mp, points h !! m = Some mp /\ input_ mp ∈ ins /\ output_ mp ∈ outs.

(** ** One block *)

(** Port [P] at address [p] after [updateBufferAddress] has run on every
    port of [l]. *)
Definition refreshed (bk : Backend) (n : nat) (l : list addr) (p : addr) (P : Port) : Port :=
  if decide (p ∈ l) then with_buffer (jack_port_get_buffer bk (jack_port_ P) n) P else P.

(** The block at [b] after the blocks listed in [bs] have been zeroed. *)
Definition zeroed (n : nat) (bs : list addr) (b : addr) (buf : list float) : list float :=
  if decide (b ∈ bs) then map_range silenced 0 n buf else buf.

(** What [Dsp::process] needs from the graph and from the backend: the
    ports of the graph are live, the backend has at least [n] samples for
    each of them, output blocks are shared neither with inputs nor with one
    another, and every gain node of the graph is live and connects an input
    port of the graph to an output port of the graph. *)
Record block_ready (bk : Backend) (d : Dsp) (n : nat) (h : Heap) : Prop := mkBlockReady {
  ready_ports : forall p, p ∈ inputs d ++ outputs d ->
    p <> nullptr /\
    exists P buf, ports h !! p = Some P /\
      jack_port_get_buffer bk (jack_port_ P) n <> nullptr /\
      audio h !! jack_port_get_buffer bk (jack_port_ P) n = Some buf /\
      n <= length buf;
  ready_points : connected (inputs d) (outputs d) h (matrix_points d);
  ready_in_out : forall o p, o ∈ outputs d -> p ∈ inputs d ->
    backend_buffer bk n h o <> backend_buffer bk n h p;
  ready_out_out : forall o1 o2, o1 ∈ outputs d -> o2 ∈ outputs d ->
    backend_buffer bk n h o1 = backend_buffer bk n h o2 -> o1 = o2
}.

(** The calls [Dsp::process] is to make, in order. *)
Definition process_schedule (d : Dsp) (n : nat) : list call :=
  map (fun p => CallUpdateBufferAddress p n) (inputs d)
  ++ flat_map (fun p => [CallUpdateBufferAddress p n; CallResetBuffer p n]) (outputs d)
  ++ map (fun m => CallProcess m n) (matrix_points d).

Module StudioMix.
Definition three : float := F32.of_Z 3.
Definition four : float := F32.of_Z 4.
End StudioMix.

(** ** [process] running while the control thread calls [setGain] *)

(** Where a thread inside [MatrixPoint::process] stands: before the first
    statement, after [input_->buffer()], after [output_->buffer()], in the
    loop with the local [gain] and the counter [i], or back in the caller. *)
Inductive process_state : Type :=
| AtEntry
| HasInBuffer (in_buffer : addr)
| HasBuffers (in_buffer out_buffer : addr)
| InLoop (in_buffer out_buffer : addr) (gain : float) (i : nat)
| Returned.

(** One step of [process(samples_count)] on the node at [this].  The only
    shared datum the loop could observe is [gain_], and it is read in the
    third step alone, so taking one loop iteration as a step loses no
    interleaving with [setGain]. *)
Definition process_step (this : addr) (samples_count : nat) (s : process_state)
    : M process_state :=
  match s with
  | AtEntry =>
      modify (record_call (CallProcess this samples_count)) >>
      let* m := deref_point this in
      let* in_buffer := Port_buffer (input_ m) in
      ret (HasInBuffer in_buffer)
  | HasInBuffer in_buffer =>
      let* m := deref_point this in
      let* out_buffer := Port_buffer (output_ m) in
      ret (HasBuffers in_buffer out_buffer)
  | HasBuffers in_buffer out_buffer =>
      let* m := deref_point this in
      ret (InLoop in_buffer out_buffer (gain_ m) 0)
  | InLoop in_buffer out_buffer gain i =>
      if i <? samples_count
      then accumulate_sample gain in_buffer out_buffer i >>
           ret (InLoop in_buffer out_buffer gain (S i))
      else ret Returned
  | Returned => ret Returned
  end.

(** What happens next: the real-time thread takes a step of [process], or
    the control thread completes a [setGain(gain)] on the same node. *)
Inductive action : Type :=
| Step
| SetGain (gain : float).

Fixpoint interleave (this : addr) (samples_count : nat) (schedule : list action)
    (s : process_state) : M process_state :=
  match schedule with
  | [] => ret s
  | Step :: rest =>
      let* s' := process_step this samples_count s in
      interleave this samples_count rest s'
  | SetGain gain :: rest =>
      MatrixPoint_setGain this gain >>
      interleave this samples_count rest s
  end.

(** The gains written by the control thread during a schedule. *)
Fixpoint gains_of (schedule : list action) : list float :=
  match schedule with
  | [] => []
  | Step :: rest => gains_of rest
  | SetGain gain :: rest => gain :: gains_of rest
  end.

(** The value of [gain_] of the node at [this]. *)
Definition gain_at (this : addr) (h : Heap) : float :=
  match points h !! this with
  | Some m => gain_ m
  | None => F32.zero
  end.

(** What is left of an undisturbed [process] from state [s], when the gain
    it is to use (if not read yet) is [gain]. *)
Definition remainder (this : addr) (samples_count : nat) (gain : float)
    (s : process_state) : M unit :=
  match s with
  | AtEntry =>
      modify (record_call (CallProcess this samples_count)) >>
      let* m := deref_point this in
      let* in_buffer := Port_buffer (input_ m) in
      let* m := deref_point this in
      let* out_buffer := Port_buffer (output_ m) in
      let* m := deref_point this in
      for_range 0 samples_count (accumulate_sample gain in_buffer out_buffer)
  | HasInBuffer in_buffer =>
      let* m := deref_point this in
      let* out_buffer := Port_buffer (output_ m) in
      let* m := deref_point this in
      for_range 0 samples_count (accumulate_sample gain in_buffer out_buffer)
  | HasBuffers in_buffer out_buffer =>
      let* m := deref_point this in
      for_range 0 samples_count (accumulate_sample gain in_buffer out_buffer)
  | InLoop in_buffer out_buffer gain' i =>
      for_range i (samples_count - i) (accumulate_sample gain' in_buffer out_buffer)
  | Returned => ret tt
  end.

(** The number of steps a thread in state [s] still has to take. *)
Definition steps_left (samples_count : nat) (s : process_state) : nat :=
  match s with
  | AtEntry => samples_count + 4
  | HasInBuffer _ => samples_count + 3
  | HasBuffers _ _ => samples_count + 2
  | InLoop _ _ _ i => samples_count - i + 1
  | Returned => 0
  end.

(** Two stores that differ at most in the [gain_] fields (and usage
    counters) of gain nodes. *)
Definition same_but_gains (h1 h2 : Heap) : Prop :=
  ports h1 = ports h2 /\ audio h1 = audio h2 /\ calls h1 = calls h2 /\
  forall p, input_ <$> points h1 !! p = input_ <$> points h2 !! p /\
            output_ <$> points h1 !! p = output_ <$> points h2 !! p.

Module StudioLive.
(** The studio after one processed block: every port caches its buffer. *)
Definition playing : Heap :=
  Studio.after (Dsp_process Studio.backend Studio.dsp 4) Studio.wired.

(** The control thread sets the gain to 0.5 just before [process] reads
    it, and to 1.0 after the first sample has been written. *)
Definition schedule : list action :=
  [Step; Step; SetGain Studio.half; Step; Step; SetGain Studio.one;
   Step; Step; Step; Step].

Definition finished : Heap :=
  Studio.after (interleave 50%N 4 schedule AtEntry) playing.
End StudioLive.

Module StudioPinned.
(** The studio with its one gain node, after [refAll]: ports ["A"] and
    ["O"] have two users each (the node and the pin), the node has one. *)
Definition pinned : Heap := Studio.after (Dsp_refAll Studio.dsp) Studio.wired.

End StudioPinned.

Module StudioDeaf.
(** The two-node studio after the first two loops of [Dsp::process] with
    the backend that has no buffer for ["A"], ... *)
Definition refreshed : Heap :=
  Studio.after
    (for_each (inputs Studio.dsp2)
       (fun port => Port_updateBufferAddress Studio.deaf_backend port 4) >>
     for_each (outputs Studio.dsp2)
       (fun port => Port_updateBufferAddress Studio.deaf_backend port 4 >>
                    OutputPort_resetBuffer port 4))
    Studio.wired2.

(** ... and after the node fed by ["B"] has been processed. *)
Definition halfway : Heap :=
  Studio.after (MatrixPoint_process 51%N 4) refreshed.
End StudioDeaf.

(** ** Further notions, for the properties beyond the specification *)

(** The largest value of [unsigned int]. *)
Definition UINT_MAX : Z := UINT_RANGE - 1.

(** A port with its cached pointer blanked: what [updateBufferAddress]
    cannot change. *)
Definition forget_buffer (P : Port) : Port := with_buffer nullptr P.

(** How often the address [p] occurs in a vector of pointers. *)
Definition occurrences (l : list addr) (p : addr) : Z :=
  foldr (fun q acc => (points_at q p + acc)%Z) 0%Z l.

(** What a line of [std::cerr] says about the object at [p]: [+1] for
    ["++ @p"], [-1] for ["-- @p"], nothing for a line about another object. *)
Definition line_weight (p : addr) (l : cerr_line) : Z :=
  match l with
  | PlusPlus q => points_at q p
  | MinusMinus q => (- points_at q p)%Z
  end.

(** The ["++"] lines about [p] minus the ["--"] lines about [p]. *)
Definition log_balance (log : list cerr_line) (p : addr) : Z :=
  foldr (fun l acc => (line_weight p l + acc)%Z) 0%Z log.

Module StudioEdge.
(** A counter at the top of its range. *)
Definition saturated : CountUsers := mkCountUsers 4294967295.

(** A backend that serves every port from the one block at 200. *)
Definition shared_backend : Backend := mkBackend (fun _ _ => 200%N).

(** The one-node studio with both ports refreshed from that backend: the
    input ["A"] and the output ["O"] cache the same pointer. *)
Definition shared : Heap :=
  Studio.after
    (for_each [1%N; 2%N] (fun port => Port_updateBufferAddress shared_backend port 4))
    Studio.wired.

(** The one-node studio after the node at 50 has been moved to 52. *)
Definition moved : Heap :=
  Studio.after (MatrixPoint_move 52%N 50%N) StudioLive.playing.
End StudioEdge.

(** [h'] differs from [h] at most in the pointers cached by ports, in the
    contents of audio blocks and in the observation log: usage counters,
    names, tokens, gain nodes, [std::cerr] and the length of every audio
    block are the same. *)
Definition block_frame (h h' : Heap) : Prop :=
  points h' = points h /\ cerr h' = cerr h /\
  (forall p, forget_buffer <$> ports h' !! p = forget_buffer <$> ports h !! p) /\
  (forall b, length <$> audio h' !! b = length <$> audio h !! b).

(** A pointer in [matrix_points] that [process] cannot be called through:
    null, dangling, or to a node one of whose port pointers is null (a
    moved-from node). *)
Definition unusable_node (h : Heap) (x : addr) : Prop :=
  x = nullptr \/
  match points h !! x with
  | None => True
  | Some m => input_ m = nullptr \/ output_ m = nullptr
  end.

Module StudioStale.
(** The one-node studio after the node at 50 has been destroyed. *)
Definition disconnected : Heap :=
  Studio.after (MatrixPoint_delete 50%N) StudioLive.playing.
End StudioStale.

(** The own usage counter of every live gain node is a value of
    [unsigned int]. *)
Definition node_counters_in_range (h : Heap) : Prop :=
  forall m x, points h !! m = Some x ->
    (0 <= users_count_ (point_base x) < UINT_RANGE)%Z.

(** [refAll] can pin the graph without wrapping a counter: every pointer in
    the three vectors is non-null and live, and each counter has room for
    as many increments as its object is listed. *)
Record pinnable (d : Dsp) (h : Heap) : Prop := mkPinnable {
  pinnable_ports : forall p, p ∈ inputs d ++ outputs d ->
    p <> nullptr /\
    exists P, ports h !! p = Some P /\
      (users_count_ (port_base P) + occurrences (inputs d ++ outputs d) p
       < UINT_RANGE)%Z;
  pinnable_points : forall m, m ∈ matrix_points d ->
    m <> nullptr /\
    exists x, points h !! m = Some x /\
      (users_count_ (point_base x) + occurrences (matrix_points d) m
       < UINT_RANGE)%Z;
  pinnable_port_range : counters_in_range h;
  pinnable_point_range : node_counters_in_range h
}.

Definition set_port_count (c : Z) (P : Port) : Port :=
  with_port_base (mkCountUsers c) P.
Definition set_point_count (c : Z) (x : MatrixPoint) : MatrixPoint :=
  with_point_base (mkCountUsers c) x.

(** Nothing but ports and [std::cerr] differs. *)
Definition ports_aside (h h' : Heap) : Prop :=
  points h' = points h /\ audio h' = audio h /\ calls h' = calls h.

(** Nothing but gain nodes and [std::cerr] differs. *)
Definition points_aside (h h' : Heap) : Prop :=
  ports h' = ports h /\ audio h' = audio h /\ calls h' = calls h.

(** Every counter of [h] is the counter of [h0] moved by [s], and nothing
    else about the counted objects differs.  [get] is the store the objects
    live in; [count] and [set_count] read and write their counter. *)
Definition shifted {T : Type} (get : Heap -> gmap N T) (count : T -> Z)
    (set_count : Z -> T -> T) (s : addr -> Z) (h0 h : Heap) : Prop :=
  forall p, get h !! p
            = (fun x => set_count ((count x + s p) mod UINT_RANGE)%Z x) <$> get h0 !! p.

Abbreviation port_count := (fun P : Port => users_count_ (port_base P)).
Abbreviation point_count := (fun x : MatrixPoint => users_count_ (point_base x)).

Module StudioPins.
(** A graph that lists the output port among its inputs as well, so that
    [refAll] pins it twice. *)
Definition twice : Dsp := mkDsp [1%N; 2%N] [2%N] [50%N].
End StudioPins.

(** The lines written to [std::cerr] since [h0] account for every change
    of a port's usage counter since [h0]. *)
Definition journaled (h0 h : Heap) : Prop :=
  exists new, cerr h = cerr h0 ++ new /\
    shifted ports port_count set_port_count (log_balance new) h0 h.

(** The block at [b] is live and has at least [n] samples. *)
Definition block_holds (h : Heap) (b : addr) (n : nat) : Prop :=
  exists buf, audio h !! b = Some buf /\ n <= length buf.

(** What [MatrixPoint::process] needs of the store: [this] points to a
    live node, both port pointers of the node are non-null and point to
    live ports, both ports cache a non-null pointer, and, unless no sample
    is asked for, both cached pointers lead to [n] samples. *)
Definition processable (h : Heap) (this : addr) (n : nat) : Prop :=
  this <> nullptr /\
  exists m pin pout,
    points h !! this = Some m /\
    input_ m <> nullptr /\ ports h !! input_ m = Some pin /\
    output_ m <> nullptr /\ ports h !! output_ m = Some pout /\
    buffer_ pin <> nullptr /\ buffer_ pout <> nullptr /\
    (n = 0 \/ (block_holds h (buffer_ pin) n /\ block_holds h (buffer_ pout) n)).

(** The new value of a sample [y] that is its own input. *)
Definition fed_back (gain : float) (i : nat) (y : float) : float :=
  F32.add y (F32.mul gain y).

(** ** The operations of the graph *)



Module StudioGate.
(** The one-node studio, pinned by [refAll], after its gain node has been
    destroyed: nothing references ["A"] or ["O"] any more. *)
Definition disconnected : Heap :=
  Studio.after (MatrixPoint_delete 50%N) StudioPinned.pinned.

(** The graph of the studio with the destroyed node taken off
    [matrix_points]. *)
Definition ports_only : Dsp := mkDsp [1%N] [2%N] [].

Definition emptied : Heap :=
  Studio.after (Dsp_unrefAll ports_only) disconnected.
End StudioGate.
(** ** Reasoning principles for the monad *)

Lemma bind_Ok {A B} (c : M A) (k : A -> M B) h a h1 :
  c h = Ok (a, h1) -> bind c k h = k a h1.
Proof. intros E. unfold bind. now rewrite E. Qed.

Lemma bind_Fault {A B} (c : M A) (k : A -> M B) h f :
  c h = Fault f -> bind c k h = Fault f.
Proof. intros E. unfold bind. now rewrite E. Qed.

Lemma bind_inv {A B} (c : M A) (k : A -> M B) h b h' :
  bind c k h = Ok (b, h') ->
  exists a h1, c h = Ok (a, h1) /\ k a h1 = Ok (b, h').
Proof.
  unfold bind. destruct (c h) as [[a h1]|f]; [|discriminate].
  intros E. now exists a, h1.
Qed.

Lemma deref_port_Ok p P h :
  p <> nullptr -> ports h !! p = Some P -> deref_port p h = Ok (P, h).
Proof.
  intros Hp E. unfold deref_port.
  destruct (N.eqb_spec p nullptr) as [->|_]; [congruence|]. now rewrite E.
Qed.

Lemma deref_port_inv p P h h' :
  deref_port p h = Ok (P, h') ->
  p <> nullptr /\ ports h !! p = Some P /\ h' = h.
Proof.
  unfold deref_port. destruct (N.eqb_spec p nullptr) as [->|Hp]; [discriminate|].
  destruct (ports h !! p) as [x|]; [|discriminate].
  intros [= -> ->]. auto.
Qed.

Lemma deref_point_Ok p m h :
  p <> nullptr -> points h !! p = Some m -> deref_point p h = Ok (m, h).
Proof.
  intros Hp E. unfold deref_point.
  destruct (N.eqb_spec p nullptr) as [->|_]; [congruence|]. now rewrite E.
Qed.

Lemma deref_point_inv p m h h' :
  deref_point p h = Ok (m, h') ->
  p <> nullptr /\ points h !! p = Some m /\ h' = h.
Proof.
  unfold deref_point. destruct (N.eqb_spec p nullptr) as [->|Hp]; [discriminate|].
  destruct (points h !! p) as [x|]; [|discriminate].
  intros [= -> ->]. auto.
Qed.

Lemma for_each_app {A} (l1 l2 : list A) body h :
  for_each (l1 ++ l2) body h = (for_each l1 body >> for_each l2 body) h.
Proof.
  revert h. induction l1 as [|x l1 IH]; intros h; simpl.
  - reflexivity.
  - unfold bind in *. destruct (body x h) as [[[] h1]|f]; [|reflexivity].
    apply IH.
Qed.

(** A step that faults aborts the whole traversal with the same fault. *)
Lemma for_each_abort {A} (l1 l2 : list A) (x : A) body h h1 f :
  for_each l1 body h = Ok (tt, h1) ->
  body x h1 = Fault f ->
  for_each (l1 ++ x :: l2) body h = Fault f.
Proof.
  intros E1 E2. rewrite for_each_app. rewrite (bind_Ok _ _ _ _ _ E1).
  simpl. now rewrite (bind_Fault _ _ _ _ E2).
Qed.

(** ** The usage counter *)

Lemma UINT_RANGE_eq : UINT_RANGE = 4294967296%Z.
Proof. reflexivity. Qed.

Lemma incrementUsers_in_range c :
  counter_in_range (CountUsers_incrementUsers c).
Proof.
  unfold counter_in_range, CountUsers_incrementUsers. simpl.
  apply Z.mod_pos_bound. rewrite UINT_RANGE_eq. lia.
Qed.

Lemma decrementUsers_zero c :
  users_count_ c = 0%Z -> CountUsers_decrementUsers c = Fault AssertionFailed.
Proof. intros E. unfold CountUsers_decrementUsers. now rewrite E. Qed.

Lemma decrementUsers_positive c :
  counter_in_range c -> (0 < users_count_ c)%Z ->
  CountUsers_decrementUsers c = Ok (mkCountUsers (users_count_ c - 1)).
Proof.
  unfold counter_in_range, CountUsers_decrementUsers. intros Hr Hp.
  destruct (Z.eqb_spec (users_count_ c) 0) as [E|_]; [lia|].
  rewrite Z.mod_small by lia. reflexivity.
Qed.

Lemma counter_calls_in_range calls : forall c,
  counter_in_range c ->
  match counter_calls calls c with
  | Ok c' => counter_in_range c'
  | Fault f => f = AssertionFailed
  end.
Proof.
  induction calls as [|[|] rest IH]; intros c Hc; simpl.
  - exact Hc.
  - apply IH, incrementUsers_in_range.
  - destruct (Z.eq_dec (users_count_ c) 0%Z) as [E|E].
    + now rewrite decrementUsers_zero.
    + unfold counter_in_range in Hc.
      rewrite decrementUsers_positive by (unfold counter_in_range; lia).
      apply IH. unfold counter_in_range in *. simpl. lia.
Qed.

Lemma counter_calls_respected calls : forall c,
  counter_in_range c -> respects_precondition calls c ->
  exists c', counter_calls calls c = Ok c' /\ counter_in_range c'.
Proof.
  induction calls as [|[|] rest IH]; intros c Hc Hr; simpl in *.
  - exists c. auto.
  - apply IH; [apply incrementUsers_in_range|exact Hr].
  - destruct Hr as [Hpos Hr].
    rewrite decrementUsers_positive by assumption.
    apply IH; [|exact Hr]. unfold counter_in_range in *. simpl. lia.
Qed.

(** C6. The counter is an unsigned value that never goes below zero:
    [decrementUsers] on a zero counter trips the assertion, on a positive
    counter it succeeds and takes exactly one off, [hasUsers] tells the two
    cases apart, and whatever sequence of [incrementUsers] / [decrementUsers]
    calls is made, either some decrement found the counter at zero (and the
    assertion fired) or the counter is still a value in [[0, 2^32)].  A
    sequence in which every decrement finds a positive counter runs to its
    end. *)
Theorem usage_counter_never_underflows (c : CountUsers) :
  counter_in_range c ->
  (users_count_ c = 0%Z ->
     CountUsers_hasUsers c = false /\
     CountUsers_decrementUsers c = Fault AssertionFailed) /\
  ((0 < users_count_ c)%Z ->
     CountUsers_hasUsers c = true /\
     CountUsers_decrementUsers c = Ok (mkCountUsers (users_count_ c - 1))) /\
  (forall calls,
     match counter_calls calls c with
     | Ok c' => (0 <= users_count_ c' < UINT_RANGE)%Z
     | Fault f => f = AssertionFailed
     end) /\
  (forall calls,
     respects_precondition calls c ->
     exists c', counter_calls calls c = Ok c' /\
                (0 <= users_count_ c' < UINT_RANGE)%Z).
Proof.
  intros Hc. split; [|split; [|split]].
  - intros E. split; [|now apply decrementUsers_zero].
    unfold CountUsers_hasUsers. now rewrite E.
  - intros Hp. split; [|now apply decrementUsers_positive].
    unfold CountUsers_hasUsers. destruct (Z.eqb_spec (users_count_ c) 0); [lia|reflexivity].
  - intros calls. now apply counter_calls_in_range.
  - intros calls. now apply counter_calls_respected.
Qed.

Lemma usage_counter_never_underflows_witness :
  CountUsers_decrementUsers (mkCountUsers 1) = Ok (mkCountUsers 0) /\
  counter_calls [Decrement; Increment; Decrement; Decrement] (mkCountUsers 1)
    = Fault AssertionFailed /\
  exists c', counter_calls [Decrement; Increment; Increment; Decrement] (mkCountUsers 1)
             = Ok c'.
Proof.
  assert (Hc : counter_in_range (mkCountUsers 1))
    by (unfold counter_in_range; rewrite UINT_RANGE_eq; simpl; lia).
  destruct (usage_counter_never_underflows (mkCountUsers 1) Hc)
    as (_ & Hpos & _ & Hrun).
  split; [|split].
  - apply Hpos. simpl. lia.
  - reflexivity.
  - destruct (Hrun [Decrement; Increment; Increment; Decrement]) as (c' & E & _).
    + vm_compute. repeat split.
    + exists c'. exact E.
Defined.

(** ** Effects of the member functions *)

Lemma Port_incrementUsers_Ok p P h :
  p <> nullptr -> ports h !! p = Some P ->
  Port_incrementUsers p h =
    Ok (tt, write_cerr (PlusPlus p)
              (set_ports (insert p (with_port_base
                 (CountUsers_incrementUsers (port_base P)) P)) h)).
Proof.
  intros Hp E. unfold Port_incrementUsers.
  rewrite (bind_Ok _ _ _ _ _ (deref_port_Ok _ _ _ Hp E)). reflexivity.
Qed.

Lemma Port_incrementUsers_inv p h h' :
  Port_incrementUsers p h = Ok (tt, h') ->
  p <> nullptr /\ exists P, ports h !! p = Some P /\
  h' = write_cerr (PlusPlus p)
         (set_ports (insert p (with_port_base
            (CountUsers_incrementUsers (port_base P)) P)) h).
Proof.
  unfold Port_incrementUsers. intros E.
  apply bind_inv in E as (P & h1 & E1 & E2).
  apply deref_port_inv in E1 as (Hp & EP & ->).
  split; [exact Hp|]. exists P. split; [exact EP|].
  unfold bind, modify in E2. now inversion E2.
Qed.

Lemma Port_decrementUsers_inv p h h' :
  Port_decrementUsers p h = Ok (tt, h') ->
  p <> nullptr /\ exists P, ports h !! p = Some P /\
  users_count_ (port_base P) <> 0%Z /\
  h' = write_cerr (MinusMinus p)
         (set_ports (insert p (with_port_base
            (mkCountUsers ((users_count_ (port_base P) - 1) mod UINT_RANGE)) P)) h).
Proof.
  unfold Port_decrementUsers. intros E.
  apply bind_inv in E as (P & h1 & E1 & E2).
  apply deref_port_inv in E1 as (Hp & EP & ->).
  split; [exact Hp|]. exists P. split; [exact EP|].
  unfold bind, modify, lift, CountUsers_decrementUsers in E2.
  destruct (Z.eqb_spec (users_count_ (port_base P)) 0) as [E0|E0]; [discriminate|].
  split; [exact E0|]. now inversion E2.
Qed.

Lemma Port_decrementUsers_zero p P h :
  p <> nullptr -> ports h !! p = Some P ->
  users_count_ (port_base P) = 0%Z ->
  Port_decrementUsers p h = Fault AssertionFailed.
Proof.
  intros Hp E E0. unfold Port_decrementUsers.
  rewrite (bind_Ok _ _ _ _ _ (deref_port_Ok _ _ _ Hp E)).
  unfold bind, lift. now rewrite (decrementUsers_zero _ E0).
Qed.

Lemma construct_point_inv this m h h' :
  construct_point this m h = Ok (tt, h') ->
  this <> nullptr /\ points h !! this = None /\
  h' = set_points (insert this m) h.
Proof.
  unfold construct_point.
  destruct (N.eqb_spec this nullptr) as [->|Hp]; [discriminate|].
  destruct (points h !! this) as [x|]; [discriminate|].
  intros [= <-]. auto.
Qed.

Lemma MatrixPoint_move_inv this movefrom h h' :
  MatrixPoint_move this movefrom h = Ok (tt, h') ->
  exists src,
    movefrom <> nullptr /\ points h !! movefrom = Some src /\
    this <> nullptr /\ points h !! this = None /\
    h' = set_points (insert movefrom
           (mkMatrixPoint (point_base src) nullptr nullptr (gain_ src)))
           (set_points (insert this
              (mkMatrixPoint (mkCountUsers 0) (input_ src) (output_ src) (gain_ src))) h).
Proof.
  unfold MatrixPoint_move. intros E.
  apply bind_inv in E as (src & h1 & E1 & E2).
  apply deref_point_inv in E1 as (Hp & EP & ->).
  apply bind_inv in E2 as ([] & h2 & E2 & E3).
  apply construct_point_inv in E2 as (Ht & EN & ->).
  unfold modify in E3. inversion E3; subst h'.
  exists src. auto.
Qed.

(** C10. After [MatrixPoint n(std::move(m))], the moved-from [m] holds two
    null references, the new node holds the references [m] had, and running
    [m]'s destructor succeeds without touching any port: every usage counter
    (and the text on [std::cerr]) is what it was before the move. *)
Theorem moved_from_destruction_keeps_counters (this movefrom : addr) (h h1 : Heap) :
  MatrixPoint_move this movefrom h = Ok (tt, h1) ->
  (exists src,
     points h !! movefrom = Some src /\
     points h1 !! movefrom =
       Some (mkMatrixPoint (point_base src) nullptr nullptr (gain_ src)) /\
     points h1 !! this =
       Some (mkMatrixPoint (mkCountUsers 0) (input_ src) (output_ src) (gain_ src))) /\
  ports h1 = ports h /\
  exists h2,
    MatrixPoint_delete movefrom h1 = Ok (tt, h2) /\
    ports h2 = ports h /\ cerr h2 = cerr h /\
    points h2 !! movefrom = None /\
    points h2 !! this = points h1 !! this.
Proof.
  intros E. apply MatrixPoint_move_inv in E as (src & Hm & Esrc & Ht & Efree & ->).
  assert (Hne : movefrom <> this) by congruence.
  split; [|split].
  - exists src. simpl. split; [exact Esrc|]. split.
    + apply lookup_insert_eq.
    + rewrite lookup_insert_ne by exact Hne. apply lookup_insert_eq.
  - reflexivity.
  - eexists. split.
    + unfold MatrixPoint_delete.
      erewrite bind_Ok; [|apply deref_point_Ok; [exact Hm|simpl; apply lookup_insert_eq]].
      simpl. reflexivity.
    + simpl. split; [reflexivity|]. split; [reflexivity|]. split.
      * apply lookup_delete_eq.
      * rewrite lookup_delete_ne by exact Hne. reflexivity.
Qed.

Lemma moved_from_destruction_keeps_counters_witness :
  exists h1 h2,
    MatrixPoint_move 51%N 50%N Studio.wired = Ok (tt, h1) /\
    MatrixPoint_delete 50%N h1 = Ok (tt, h2) /\
    ports h2 = ports Studio.wired.
Proof.
  assert (E : MatrixPoint_move 51%N 50%N Studio.wired
              = Ok (tt, Studio.after (MatrixPoint_move 51%N 50%N) Studio.wired))
    by (vm_compute; reflexivity).
  destruct (moved_from_destruction_keeps_counters _ _ _ _ E)
    as (_ & _ & h2 & Hd & Hp & _).
  exists (Studio.after (MatrixPoint_move 51%N 50%N) Studio.wired), h2.
  split; [exact E|]. split; [exact Hd|exact Hp].
Defined.

(** ** [Port::buffer] *)

Lemma Port_buffer_eval this p h :
  this <> nullptr -> ports h !! this = Some p ->
  Port_buffer this h =
    if (buffer_ p =? nullptr)%N then Fault AssertionFailed else Ok (buffer_ p, h).
Proof.
  intros Hp E. unfold Port_buffer.
  rewrite (bind_Ok _ _ _ _ _ (deref_port_Ok _ _ _ Hp E)).
  unfold bind, assert. now destruct (buffer_ p =? nullptr)%N.
Qed.

Lemma Port_updateBufferAddress_Ok bk this p n h :
  this <> nullptr -> ports h !! this = Some p ->
  Port_updateBufferAddress bk this n h =
    Ok (tt, set_ports (insert this
              (with_buffer (jack_port_get_buffer bk (jack_port_ p) n) p))
              (record_call (CallUpdateBufferAddress this n) h)).
Proof.
  intros Hp E. unfold Port_updateBufferAddress.
  unfold bind at 1. unfold modify at 1.
  erewrite bind_Ok; [|apply deref_port_Ok; [exact Hp|exact E]]. reflexivity.
Qed.

(** C7 (as the code has it). [buffer()] looks at the cached pointer only:
    it trips its assertion exactly when [buffer_] is null and otherwise
    returns [buffer_] as it stands, whichever block stored it.  Right after
    [updateBufferAddress(n)] the cached pointer is the one the backend
    returned for this block, so [buffer()] returns that pointer when it is
    non-null. *)
Theorem buffer_asserts_non_null_only (this : addr) (p : Port) (h : Heap) :
  this <> nullptr -> ports h !! this = Some p ->
  Port_buffer this h =
    (if (buffer_ p =? nullptr)%N then Fault AssertionFailed else Ok (buffer_ p, h)) /\
  forall bk n, exists h1,
    Port_updateBufferAddress bk this n h = Ok (tt, h1) /\
    Port_buffer this h1 =
      (let b := jack_port_get_buffer bk (jack_port_ p) n in
       if (b =? nullptr)%N then Fault AssertionFailed else Ok (b, h1)).
Proof.
  intros Hp E. split; [now apply Port_buffer_eval|].
  intros bk n. eexists. split; [exact (Port_updateBufferAddress_Ok bk this p n h Hp E)|].
  erewrite Port_buffer_eval; [|exact Hp|simpl; apply lookup_insert_eq].
  reflexivity.
Qed.

Lemma buffer_asserts_non_null_only_witness :
  Port_buffer 1%N Studio.idle = Fault AssertionFailed /\
  exists h1,
    Port_updateBufferAddress Studio.backend 1%N 4 Studio.idle = Ok (tt, h1) /\
    Port_buffer 1%N h1 = Ok (100%N, h1).
Proof.
  assert (Hp : 1%N <> nullptr) by discriminate.
  assert (E : ports Studio.idle !! 1%N
              = Some (mkPort (mkCountUsers 0) 10%N "A" nullptr)) by reflexivity.
  destruct (buffer_asserts_non_null_only 1%N _ Studio.idle Hp E) as [H1 H2].
  split; [exact H1|]. exact (H2 Studio.backend 4).
Defined.

(** The claim fails on a stale pointer: the port was refreshed for one
    block; in the next block the backend serves it from address 1100, and
    [buffer()], called before any refresh, hands back the old address 100
    instead of failing. *)
Lemma buffer_before_refresh_counterexample :
  let h1 := Studio.after (Port_updateBufferAddress Studio.backend 1%N 4) Studio.idle in
  Port_updateBufferAddress Studio.backend 1%N 4 Studio.idle = Ok (tt, h1) /\
  jack_port_get_buffer Studio.later_backend 10%N 4 = 1100%N /\
  Port_buffer 1%N h1 = Ok (100%N, h1) /\
  Port_buffer 1%N h1 <> Fault AssertionFailed.
Proof.
  cbv zeta. split; [vm_compute; reflexivity|]. split; [reflexivity|].
  assert (E : Port_buffer 1%N
                (Studio.after (Port_updateBufferAddress Studio.backend 1%N 4) Studio.idle)
              = Ok (100%N,
                    Studio.after (Port_updateBufferAddress Studio.backend 1%N 4) Studio.idle))
    by (vm_compute; reflexivity).
  split; [exact E|]. rewrite E. discriminate.
Qed.

(** ** Null buffers in [MatrixPoint::process] *)

Lemma MatrixPoint_process_null_buffer this m pin pout n h :
  this <> nullptr -> points h !! this = Some m ->
  input_ m <> nullptr -> ports h !! input_ m = Some pin ->
  output_ m <> nullptr -> ports h !! output_ m = Some pout ->
  buffer_ pin = nullptr \/ buffer_ pout = nullptr ->
  MatrixPoint_process this n h = Fault AssertionFailed.
Proof.
  intros Ht Em Hi Ei Ho Eo Hnull. unfold MatrixPoint_process.
  unfold bind at 1. unfold modify at 1.
  erewrite bind_Ok; [|apply deref_point_Ok; [exact Ht|exact Em]].
  unfold bind at 1. erewrite Port_buffer_eval; [|exact Hi|exact Ei].
  destruct (N.eqb_spec (buffer_ pin) nullptr) as [_|Hin]; [reflexivity|].
  erewrite bind_Ok; [|apply deref_point_Ok; [exact Ht|exact Em]].
  unfold bind at 1. erewrite Port_buffer_eval; [|exact Ho|exact Eo].
  destruct (N.eqb_spec (buffer_ pout) nullptr) as [_|Hout]; [reflexivity|].
  tauto.
Qed.

(** C8 (as the code has it). A null cached buffer pointer on either port of
    a gain node is caught by the assertion in [Port::buffer]:
    [MatrixPoint::process] aborts with the contract violation before it reads
    or writes any sample, and the traversal in [Dsp::process] that reached
    the node aborts with it. *)
Theorem null_buffer_aborts_process
    (this : addr) (m : MatrixPoint) (pin pout : Port) (n : nat) (h : Heap) :
  this <> nullptr -> points h !! this = Some m ->
  input_ m <> nullptr -> ports h !! input_ m = Some pin ->
  output_ m <> nullptr -> ports h !! output_ m = Some pout ->
  buffer_ pin = nullptr \/ buffer_ pout = nullptr ->
  MatrixPoint_process this n h = Fault AssertionFailed /\
  forall (earlier later : list addr) (h0 : Heap),
    for_each earlier (fun point => MatrixPoint_process point n) h0 = Ok (tt, h) ->
    for_each (earlier ++ this :: later)
      (fun point => MatrixPoint_process point n) h0 = Fault AssertionFailed.
Proof.
  intros Ht Em Hi Ei Ho Eo Hnull.
  assert (E : MatrixPoint_process this n h = Fault AssertionFailed)
    by (eapply MatrixPoint_process_null_buffer; eauto).
  split; [exact E|]. intros earlier later h0 E0.
  eapply for_each_abort; eauto.
Qed.

Lemma null_buffer_aborts_process_witness :
  MatrixPoint_process 50%N 4 StudioDeaf.halfway = Fault AssertionFailed /\
  for_each [51%N; 50%N] (fun point => MatrixPoint_process point 4) StudioDeaf.refreshed
    = Fault AssertionFailed.
Proof.
  destruct (null_buffer_aborts_process 50%N
              (mkMatrixPoint (mkCountUsers 0) 1%N 2%N Studio.two)
              (mkPort (mkCountUsers 1) 10%N "A" nullptr)
              (mkPort (mkCountUsers 2) 20%N "O" 200%N)
              4 StudioDeaf.halfway) as [Enode Hgraph];
    try discriminate; try (vm_compute; reflexivity).
  - left; reflexivity.
  - split; [exact Enode|].
    apply (Hgraph [51%N] [] StudioDeaf.refreshed). vm_compute. reflexivity.
Defined.

(** The claim fails when the backend has no buffer for ["A"]: the node
    fed by ["A"] does not fall silent, it stops the block.  The healthy node
    fed by ["B"] is in the same graph and [Dsp::process] delivers nothing. *)
Lemma null_buffer_counterexample :
  Dsp_process Studio.deaf_backend Studio.dsp2 4 Studio.wired2 = Fault AssertionFailed /\
  (forall h', Dsp_process Studio.deaf_backend Studio.dsp2 4 Studio.wired2 <> Ok (tt, h')).
Proof.
  assert (E : Dsp_process Studio.deaf_backend Studio.dsp2 4 Studio.wired2
              = Fault AssertionFailed) by (vm_compute; reflexivity).
  split; [exact E|]. intros h'. rewrite E. discriminate.
Qed.

(** ** Usage counters against live references *)

Section Tracking.
Variable pins : addr -> Z.

Lemma counters_track_ext refs refs' h :
  (forall p, p <> nullptr -> refs p = refs' p) ->
  counters_track pins refs h -> counters_track pins refs' h.
Proof.
  intros Hext Ht p P Hp E. rewrite <- (Hext p Hp). now apply Ht.
Qed.

Lemma counters_track_set_points refs f h :
  counters_track pins refs h -> counters_track pins refs (set_points f h).
Proof. intros Ht p P Hp E. now apply (Ht p P). Qed.

Lemma counters_track_increment refs q h h' :
  counters_track pins refs h ->
  Port_incrementUsers q h = Ok (tt, h') ->
  counters_track pins (fun p => (refs p + points_at q p)%Z) h'.
Proof.
  intros Ht E. apply Port_incrementUsers_inv in E as (Hq & Q & EQ & ->).
  intros p P Hp E. simpl in E. unfold points_at.
  destruct (decide (q = p)) as [->|Hne].
  - rewrite lookup_insert_eq in E. injection E as <-. simpl.
    rewrite (Ht p Q Hp EQ). rewrite Zplus_mod_idemp_l. f_equal. lia.
  - rewrite lookup_insert_ne in E by exact Hne.
    rewrite (Ht p P Hp E). f_equal. lia.
Qed.

Lemma counters_track_decrement refs q h h' :
  counters_track pins refs h ->
  Port_decrementUsers q h = Ok (tt, h') ->
  counters_track pins (fun p => (refs p - points_at q p)%Z) h'.
Proof.
  intros Ht E. apply Port_decrementUsers_inv in E as (Hq & Q & EQ & _ & ->).
  intros p P Hp E. simpl in E. unfold points_at.
  destruct (decide (q = p)) as [->|Hne].
  - rewrite lookup_insert_eq in E. injection E as <-. simpl.
    rewrite (Ht p Q Hp EQ). rewrite Zminus_mod_idemp_l. f_equal. lia.
  - rewrite lookup_insert_ne in E by exact Hne.
    rewrite (Ht p P Hp E). f_equal. lia.
Qed.

End Tracking.

Lemma references_fold_comm p (j1 j2 : N) (z1 z2 : MatrixPoint) (y : Z) :
  (y + references p z2 + references p z1 = y + references p z1 + references p z2)%Z.
Proof. lia. Qed.

Lemma live_references_insert_fresh this m h p :
  points h !! this = None ->
  live_references (set_points (insert this m) h) p
  = (live_references h p + references p m)%Z.
Proof.
  intros E. unfold live_references. simpl.
  rewrite map_fold_insert_L; [reflexivity| |exact E].
  intros. apply references_fold_comm; assumption.
Qed.

Lemma live_references_delete this m h p :
  points h !! this = Some m ->
  live_references (set_points (delete this) h) p
  = (live_references h p - references p m)%Z.
Proof.
  intros E. unfold live_references. simpl.
  rewrite (map_fold_delete_L _ _ this m (points h)); [lia| |exact E].
  intros. apply references_fold_comm; assumption.
Qed.

Lemma live_references_overwrite this m0 m h p :
  points h !! this = Some m0 ->
  live_references (set_points (insert this m) h) p
  = (live_references h p - references p m0 + references p m)%Z.
Proof.
  intros E.
  assert (E1 : set_points (insert this m) h
               = set_points (insert this m) (set_points (delete this) h)).
  { unfold set_points. simpl. now rewrite insert_delete_eq. }
  rewrite E1, live_references_insert_fresh by (simpl; apply lookup_delete_eq).
  rewrite (live_references_delete _ _ _ _ E). reflexivity.
Qed.

Lemma references_null p src :
  p <> nullptr ->
  references p (mkMatrixPoint (point_base src) nullptr nullptr (gain_ src)) = 0%Z.
Proof.
  intros Hp. unfold references, points_at. simpl.
  destruct (decide (nullptr = p)); [congruence|reflexivity].
Qed.

Lemma live_references_points h h' p :
  points h = points h' -> live_references h p = live_references h' p.
Proof. intros E. unfold live_references. now rewrite E. Qed.

Lemma Port_incrementUsers_points q h h' :
  Port_incrementUsers q h = Ok (tt, h') -> points h' = points h.
Proof. intros E. apply Port_incrementUsers_inv in E as (_ & Q & _ & ->). reflexivity. Qed.

Lemma Port_decrementUsers_points q h h' :
  Port_decrementUsers q h = Ok (tt, h') -> points h' = points h.
Proof. intros E. apply Port_decrementUsers_inv in E as (_ & Q & _ & _ & ->). reflexivity. Qed.

(** Construction of a node holding the references [input] and [output],
    followed by the two increments (shared by the ordinary and the copy
    constructor). *)
Lemma construct_and_pin pins this m h h' :
  counters_track pins (live_references h) h ->
  (construct_point this m >>
   Port_incrementUsers (input_ m) >>
   Port_incrementUsers (output_ m)) h = Ok (tt, h') ->
  counters_track pins (live_references h') h'.
Proof.
  intros Ht E.
  apply bind_inv in E as ([] & h1 & E1 & E).
  apply bind_inv in E as ([] & h2 & E2 & E3).
  apply construct_point_inv in E1 as (Hthis & Efree & ->).
  pose proof (Port_incrementUsers_points _ _ _ E2) as P2.
  pose proof (Port_incrementUsers_points _ _ _ E3) as P3.
  apply (counters_track_set_points pins _ (insert this m)) in Ht.
  apply (counters_track_increment pins _ _ _ _ Ht) in E2.
  apply (counters_track_increment pins _ _ _ _ E2) in E3.
  eapply counters_track_ext; [|exact E3].
  intros p _. cbv beta.
  rewrite (live_references_points h' (set_points (insert this m) h) p)
    by (now rewrite P3, P2).
  rewrite live_references_insert_fresh by exact Efree.
  unfold references. lia.
Qed.

Lemma happen_preserves pins e h h' :
  counters_track pins (live_references h) h ->
  happen e h = Ok (tt, h') ->
  counters_track pins (live_references h') h'.
Proof.
  intros Ht E. destruct e as [this i o g|this from|this from|this]; simpl in E.
  - unfold MatrixPoint_new in E.
    exact (construct_and_pin pins this (mkMatrixPoint (mkCountUsers 0) i o g) h h' Ht E).
  - unfold MatrixPoint_copy in E.
    apply bind_inv in E as (src & h1 & E1 & E).
    apply deref_point_inv in E1 as (_ & _ & ->).
    exact (construct_and_pin pins this
             (mkMatrixPoint (mkCountUsers 0) (input_ src) (output_ src) (gain_ src))
             h h' Ht E).
  - apply MatrixPoint_move_inv in E as (src & Hfrom & Esrc & Hthis & Efree & ->).
    assert (Hne : this <> from) by congruence.
    apply counters_track_set_points.
    eapply counters_track_ext; [|apply counters_track_set_points; exact Ht].
    intros p Hp. symmetry.
    erewrite live_references_overwrite
      by (simpl; rewrite lookup_insert_ne by exact Hne; exact Esrc).
    rewrite live_references_insert_fresh by exact Efree.
    rewrite references_null by exact Hp.
    unfold references. simpl. lia.
  - unfold MatrixPoint_delete in E.
    apply bind_inv in E as (m & h0 & E0 & E).
    apply deref_point_inv in E0 as (Hthis & Em & ->).
    apply bind_inv in E as ([] & h1 & E1 & E).
    apply bind_inv in E as ([] & h2 & E2 & E3).
    unfold modify in E3. injection E3 as <-.
    apply counters_track_set_points.
    assert (T1 : counters_track pins
                   (fun p => (live_references h p - points_at (input_ m) p)%Z) h1
                 /\ points h1 = points h).
    { destruct (N.eqb_spec (input_ m) nullptr) as [En|En].
      - injection E1 as <-. split; [|reflexivity].
        eapply counters_track_ext; [|exact Ht].
        intros p Hp. unfold points_at.
        destruct (decide (input_ m = p)); [congruence|lia].
      - split; [|exact (Port_decrementUsers_points _ _ _ E1)].
        exact (counters_track_decrement pins _ _ _ _ Ht E1). }
    destruct T1 as [T1 P1].
    assert (T2 : counters_track pins
                   (fun p => (live_references h p - points_at (input_ m) p
                              - points_at (output_ m) p)%Z) h2
                 /\ points h2 = points h).
    { destruct (N.eqb_spec (output_ m) nullptr) as [En|En].
      - injection E2 as <-. split; [|exact P1].
        eapply counters_track_ext; [|exact T1].
        intros p Hp. unfold points_at at 3.
        destruct (decide (output_ m = p)); [congruence|lia].
      - split; [|rewrite <- P1; exact (Port_decrementUsers_points _ _ _ E2)].
        exact (counters_track_decrement pins _ _ _ _ T1 E2). }
    destruct T2 as [T2 P2].
    eapply counters_track_ext; [|exact T2].
    intros p _. cbv beta.
    rewrite (live_references_delete this m h2 p) by (rewrite P2; exact Em).
    rewrite (live_references_points h2 h p P2).
    unfold references. lia.
Qed.

Lemma Port_incrementUsers_jack q h h' :
  Port_incrementUsers q h = Ok (tt, h') ->
  forall p, jack_port_ <$> ports h' !! p = jack_port_ <$> ports h !! p.
Proof.
  intros E p. apply Port_incrementUsers_inv in E as (_ & Q & EQ & ->). simpl.
  destruct (decide (q = p)) as [<-|Hne].
  - now rewrite lookup_insert_eq, EQ.
  - now rewrite lookup_insert_ne by exact Hne.
Qed.

Lemma Port_decrementUsers_jack q h h' :
  Port_decrementUsers q h = Ok (tt, h') ->
  forall p, jack_port_ <$> ports h' !! p = jack_port_ <$> ports h !! p.
Proof.
  intros E p. apply Port_decrementUsers_inv in E as (_ & Q & EQ & _ & ->). simpl.
  destruct (decide (q = p)) as [<-|Hne].
  - now rewrite lookup_insert_eq, EQ.
  - now rewrite lookup_insert_ne by exact Hne.
Qed.

(** What a constructor with two increments, and a destructor with its two
    guarded decrements, do to the set of live ports and to the nodes. *)
Lemma construct_and_pin_frame this m h h' :
  (construct_point this m >>
   Port_incrementUsers (input_ m) >>
   Port_incrementUsers (output_ m)) h = Ok (tt, h') ->
  points h !! this = None /\
  points h' = <[this := m]> (points h) /\
  forall p, jack_port_ <$> ports h' !! p = jack_port_ <$> ports h !! p.
Proof.
  intros E.
  apply bind_inv in E as ([] & h1 & E1 & E).
  apply bind_inv in E as ([] & h2 & E2 & E3).
  apply construct_point_inv in E1 as (_ & Efree & ->).
  split; [exact Efree|]. split.
  - rewrite (Port_incrementUsers_points _ _ _ E3).
    now rewrite (Port_incrementUsers_points _ _ _ E2).
  - intros p. rewrite (Port_incrementUsers_jack _ _ _ E3 p).
    now rewrite (Port_incrementUsers_jack _ _ _ E2 p).
Qed.

Lemma guarded_decrement_frame q h h' :
  (if (q =? nullptr)%N then ret tt else Port_decrementUsers q) h = Ok (tt, h') ->
  points h' = points h /\
  forall p, jack_port_ <$> ports h' !! p = jack_port_ <$> ports h !! p.
Proof.
  destruct (q =? nullptr)%N; intros E.
  - injection E as <-. auto.
  - split; [exact (Port_decrementUsers_points _ _ _ E)|].
    exact (Port_decrementUsers_jack _ _ _ E).
Qed.

Lemma happen_frame e h h' :
  happen e h = Ok (tt, h') ->
  (forall p, jack_port_ <$> ports h' !! p = jack_port_ <$> ports h !! p) /\
  (forall p, p <> nullptr ->
     live_references h' p = (live_references h p + reference_change e h p)%Z).
Proof.
  intros E. destruct e as [this i o g|this from|this from|this]; simpl in E.
  - unfold MatrixPoint_new in E.
    destruct (construct_and_pin_frame this (mkMatrixPoint (mkCountUsers 0) i o g) h h' E)
      as (Efree & Ept & Ejack).
    split; [exact Ejack|]. intros p _.
    rewrite (live_references_points h'
               (set_points (insert this (mkMatrixPoint (mkCountUsers 0) i o g)) h) p Ept).
    now rewrite live_references_insert_fresh by exact Efree.
  - unfold MatrixPoint_copy in E.
    apply bind_inv in E as (src & h1 & E1 & E).
    apply deref_point_inv in E1 as (_ & Esrc & ->).
    destruct (construct_and_pin_frame this
                (mkMatrixPoint (mkCountUsers 0) (input_ src) (output_ src) (gain_ src))
                h h' E) as (Efree & Ept & Ejack).
    split; [exact Ejack|]. intros p _. simpl. rewrite Esrc.
    rewrite (live_references_points h'
               (set_points (insert this (mkMatrixPoint (mkCountUsers 0)
                  (input_ src) (output_ src) (gain_ src))) h) p Ept).
    now rewrite live_references_insert_fresh by exact Efree.
  - apply MatrixPoint_move_inv in E as (src & Hfrom & Esrc & Hthis & Efree & ->).
    assert (Hne : this <> from) by congruence.
    split; [reflexivity|]. intros p Hp. simpl.
    erewrite live_references_overwrite
      by (simpl; rewrite lookup_insert_ne by exact Hne; exact Esrc).
    rewrite live_references_insert_fresh by exact Efree.
    rewrite references_null by exact Hp.
    unfold references. simpl. lia.
  - unfold MatrixPoint_delete in E.
    apply bind_inv in E as (m & h0 & E0 & E).
    apply deref_point_inv in E0 as (_ & Em & ->).
    apply bind_inv in E as ([] & h1 & E1 & E).
    apply bind_inv in E as ([] & h2 & E2 & E3).
    unfold modify in E3. injection E3 as <-.
    destruct (guarded_decrement_frame _ _ _ E1) as [P1 J1].
    destruct (guarded_decrement_frame _ _ _ E2) as [P2 J2].
    split.
    + intros p. simpl. now rewrite J2, J1.
    + intros p _. simpl. rewrite Em.
      rewrite (live_references_delete this m h2 p) by (rewrite P2, P1; exact Em).
      rewrite (live_references_points h2 h p) by (now rewrite P2, P1). lia.
Qed.

(** One event moves the counter of a port by as much as it changes the
    number of references to that port. *)
Lemma happen_counter_change e h h' p P :
  counters_in_range h ->
  happen e h = Ok (tt, h') ->
  p <> nullptr -> ports h !! p = Some P ->
  exists P', ports h' !! p = Some P' /\
    users_count_ (port_base P')
    = ((users_count_ (port_base P) + reference_change e h p) mod UINT_RANGE)%Z.
Proof.
  intros Hrange E Hp EP.
  destruct (happen_frame e h h' E) as [Ejack Erefs].
  pose (pins := fun q => match ports h !! q with
                         | Some Q => (users_count_ (port_base Q) - live_references h q)%Z
                         | None => 0%Z
                         end).
  assert (Ht : counters_track pins (live_references h) h).
  { intros q Q _ EQ. unfold pins. rewrite EQ.
    replace (live_references h q + (users_count_ (port_base Q) - live_references h q))%Z
      with (users_count_ (port_base Q)) by lia.
    symmetry. apply Z.mod_small. exact (Hrange q Q EQ). }
  pose proof (happen_preserves pins e h h' Ht E) as Ht'.
  specialize (Ejack p). rewrite EP in Ejack.
  destruct (ports h' !! p) as [P'|] eqn:EP'; [|discriminate].
  exists P'. split; [reflexivity|].
  rewrite (Ht' p P' Hp EP'), (Erefs p Hp). unfold pins. rewrite EP.
  f_equal. lia.
Qed.

(** C3. Let every port's counter equal the number of references that live
    gain nodes hold on it plus the pins on it (as an [unsigned int], that is
    modulo [2^32]).  Then after any sequence of node constructions, copies,
    moves and destructions that runs to completion the same holds again, and
    the counter is exactly references plus pins whenever that number fits
    an [unsigned int].  Event by event: a construction adds one to the
    counter of each of the two ports it is given, a copy adds one for each
    reference of its source, a move changes no counter, and a destruction
    takes one off for each non-null reference the node held. *)
Theorem usage_counters_track_references
    (pins : addr -> Z) (events : list lifetime_event) (h h' : Heap) :
  counters_track pins (live_references h) h ->
  for_each events happen h = Ok (tt, h') ->
  counters_track pins (live_references h') h' /\
  (forall p P, p <> nullptr -> ports h' !! p = Some P ->
     (0 <= live_references h' p + pins p < UINT_RANGE)%Z ->
     users_count_ (port_base P) = (live_references h' p + pins p)%Z) /\
  (forall e h0 h1 p P0,
     counters_in_range h0 -> happen e h0 = Ok (tt, h1) ->
     p <> nullptr -> ports h0 !! p = Some P0 ->
     exists P1, ports h1 !! p = Some P1 /\
       users_count_ (port_base P1)
       = ((users_count_ (port_base P0) + reference_change e h0 p) mod UINT_RANGE)%Z).
Proof.
  intros Ht E.
  assert (T : counters_track pins (live_references h') h').
  { revert h Ht E. induction events as [|e events IH]; intros h Ht E; simpl in E.
    - injection E as <-. exact Ht.
    - apply bind_inv in E as ([] & h1 & E1 & E2).
      apply (IH h1); [|exact E2].
      exact (happen_preserves pins e h h1 Ht E1). }
  split; [exact T|]. split.
  - intros p P Hp EP Hr. rewrite (T p P Hp EP). now apply Z.mod_small.
  - intros e h0 h1 p P0. apply happen_counter_change.
Qed.

Lemma idle_counters_track :
  counters_track StudioLife.no_pins (live_references Studio.idle) Studio.idle.
Proof.
  intros p P _ E. unfold Studio.idle in E. simpl in E.
  repeat (apply lookup_insert_Some in E as [[_ <-]|[_ E]]; [reflexivity|]).
  now rewrite lookup_empty in E.
Defined.

Lemma usage_counters_track_references_witness :
  exists h' P,
    for_each StudioLife.events happen Studio.idle = Ok (tt, h') /\
    ports h' !! 1%N = Some P /\
    users_count_ (port_base P) = 1%Z /\
    live_references h' 1%N = 1%Z.
Proof.
  pose (h' := Studio.after (for_each StudioLife.events happen) Studio.idle).
  assert (E : for_each StudioLife.events happen Studio.idle = Ok (tt, h'))
    by (vm_compute; reflexivity).
  assert (L : live_references h' 1%N = 1%Z) by (vm_compute; reflexivity).
  destruct (ports h' !! 1%N) as [P|] eqn:EP; [|vm_compute in EP; discriminate].
  destruct (usage_counters_track_references StudioLife.no_pins
              StudioLife.events Studio.idle h' idle_counters_track E) as (_ & Hexact & _).
  exists h', P. split; [exact E|]. split; [exact EP|]. split; [|exact L].
  rewrite (Hexact 1%N P); [rewrite L; reflexivity|discriminate|exact EP|].
  rewrite L, UINT_RANGE_eq. unfold StudioLife.no_pins. lia.
Defined.

(** ** Loads, stores and loops over one block of samples *)

Lemma with_block_twice b buf buf' h :
  with_block b buf' (with_block b buf h) = with_block b buf' h.
Proof.
  unfold with_block, set_audio. simpl. now rewrite insert_insert_eq.
Qed.

Lemma with_block_same b buf h :
  audio h !! b = Some buf -> with_block b buf h = h.
Proof.
  intros E. destruct h as [po pt au ce ca]. unfold with_block, set_audio. simpl in *.
  now rewrite insert_id.
Qed.

Lemma load_Ok b buf i x h :
  b <> nullptr -> audio h !! b = Some buf -> buf !! i = Some x ->
  load b i h = Ok (x, h).
Proof.
  intros Hb E Ei. unfold load.
  destruct (N.eqb_spec b nullptr) as [->|_]; [congruence|]. now rewrite E, Ei.
Qed.

Lemma store_Ok b buf i v h :
  b <> nullptr -> audio h !! b = Some buf -> i < length buf ->
  store b i v h = Ok (tt, with_block b (<[i := v]> buf) h).
Proof.
  intros Hb E Hi. unfold store.
  destruct (N.eqb_spec b nullptr) as [->|_]; [congruence|]. rewrite E.
  destruct (Nat.ltb_spec i (length buf)); [reflexivity|lia].
Qed.

Lemma map_range_length F from count buf :
  length (map_range F from count buf) = length buf.
Proof. unfold map_range. apply length_imap. Qed.

Lemma map_range_lookup F from count buf i :
  map_range F from count buf !! i =
    (fun y => if bool_decide (from <= i < from + count) then F i y else y) <$> buf !! i.
Proof. unfold map_range. now rewrite list_lookup_imap. Qed.

Lemma map_range_inside F from count buf i y :
  from <= i < from + count -> buf !! i = Some y ->
  map_range F from count buf !! i = Some (F i y).
Proof.
  intros Hi E. rewrite map_range_lookup, E. simpl.
  now rewrite bool_decide_eq_true_2.
Qed.

Lemma map_range_outside F from count buf i :
  ~ (from <= i < from + count) ->
  map_range F from count buf !! i = buf !! i.
Proof.
  intros Hi. rewrite map_range_lookup.
  rewrite bool_decide_eq_false_2 by exact Hi. now destruct (buf !! i).
Qed.

Lemma map_range_empty F from buf : map_range F from 0 buf = buf.
Proof.
  apply list_eq. intros i. apply map_range_outside. lia.
Qed.

Lemma map_range_step F from count buf y :
  buf !! from = Some y ->
  map_range F (S from) count (<[from := F from y]> buf)
  = map_range F from (S count) buf.
Proof.
  intros E. apply list_eq. intros i. rewrite !map_range_lookup.
  destruct (decide (i = from)) as [->|Hne].
  - rewrite list_lookup_insert_eq by (apply lookup_lt_Some in E; exact E).
    rewrite E. simpl.
    rewrite bool_decide_eq_false_2 by lia.
    rewrite bool_decide_eq_true_2 by lia. reflexivity.
  - rewrite list_lookup_insert_ne by congruence.
    destruct (buf !! i) as [z|]; [simpl|reflexivity].
    destruct (decide (S from <= i < S from + count)) as [Hi|Hi].
    + rewrite !bool_decide_eq_true_2 by lia. reflexivity.
    + rewrite !bool_decide_eq_false_2 by lia. reflexivity.
Qed.

(** A loop whose body rewrites sample [i] of the block at [b] to
    [F i] of its old value rewrites the whole range that way. *)
Lemma for_range_map_range (b : addr) (F : nat -> float -> float)
    (body : nat -> M unit) (limit : nat) (h0 : Heap) :
  (forall i buf y, i < limit -> buf !! i = Some y ->
     body i (with_block b buf h0) = Ok (tt, with_block b (<[i := F i y]> buf) h0)) ->
  forall count from buf,
    from + count <= limit -> limit <= length buf ->
    for_range from count body (with_block b buf h0)
    = Ok (tt, with_block b (map_range F from count buf) h0).
Proof.
  intros Hbody. induction count as [|count IH]; intros from buf Hle Hlen; simpl.
  - now rewrite map_range_empty.
  - destruct (lookup_lt_is_Some_2 buf from) as [y Ey]; [lia|].
    rewrite (bind_Ok _ _ _ _ _ (Hbody from buf y ltac:(lia) Ey)).
    rewrite IH by (rewrite ?length_insert; lia).
    now rewrite (map_range_step F from count buf y Ey).
Qed.

Lemma accumulate_sample_Ok gain bin bout xs i x buf y h0 :
  bin <> nullptr -> bout <> nullptr -> bin <> bout ->
  audio h0 !! bin = Some xs -> xs !! i = Some x -> buf !! i = Some y ->
  accumulate_sample gain bin bout i (with_block bout buf h0)
  = Ok (tt, with_block bout (<[i := accumulated gain xs i y]> buf) h0).
Proof.
  intros Hin Hout Hne Exs Ex Ey. unfold accumulate_sample.
  erewrite bind_Ok; cycle 1.
  { eapply load_Ok; [exact Hin| |exact Ex].
    simpl. rewrite lookup_insert_ne by congruence. exact Exs. }
  erewrite bind_Ok; cycle 1.
  { eapply load_Ok; [exact Hout| |exact Ey]. simpl. apply lookup_insert_eq. }
  erewrite store_Ok; cycle 1.
  - exact Hout.
  - simpl. apply lookup_insert_eq.
  - apply lookup_lt_Some in Ey. exact Ey.
  - rewrite with_block_twice. unfold accumulated. now rewrite Ex.
Qed.

Lemma OutputPort_resetBuffer_Ok this p buf n h :
  this <> nullptr -> ports h !! this = Some p ->
  buffer_ p <> nullptr -> audio h !! buffer_ p = Some buf -> n <= length buf ->
  OutputPort_resetBuffer this n h
  = Ok (tt, with_block (buffer_ p) (map_range silenced 0 n buf)
              (record_call (CallResetBuffer this n) h)).
Proof.
  intros Ht Ep Hb Ebuf Hn. unfold OutputPort_resetBuffer.
  unfold bind at 1. unfold modify at 1.
  erewrite bind_Ok; [|apply deref_port_Ok; [exact Ht|exact Ep]].
  set (h0 := record_call (CallResetBuffer this n) h).
  rewrite <- (with_block_same (buffer_ p) buf h0) at 1 by exact Ebuf.
  apply (for_range_map_range (buffer_ p) silenced _ n h0); [|lia|exact Hn].
  intros i buf' y Hi Ey.
  erewrite store_Ok; cycle 1.
  - exact Hb.
  - simpl. apply lookup_insert_eq.
  - apply lookup_lt_Some in Ey. exact Ey.
  - now rewrite with_block_twice.
Qed.

Lemma MatrixPoint_process_Ok this m pin pout xs ys n h :
  this <> nullptr -> points h !! this = Some m ->
  input_ m <> nullptr -> ports h !! input_ m = Some pin ->
  output_ m <> nullptr -> ports h !! output_ m = Some pout ->
  buffer_ pin <> nullptr -> buffer_ pout <> nullptr ->
  buffer_ pin <> buffer_ pout ->
  audio h !! buffer_ pin = Some xs -> audio h !! buffer_ pout = Some ys ->
  n <= length xs -> n <= length ys ->
  MatrixPoint_process this n h
  = Ok (tt, with_block (buffer_ pout) (map_range (accumulated (gain_ m) xs) 0 n ys)
              (record_call (CallProcess this n) h)).
Proof.
  intros Ht Em Hi Ei Ho Eo Hbi Hbo Hne Exs Eys Hnx Hny. unfold MatrixPoint_process.
  unfold bind at 1. unfold modify at 1.
  set (h0 := record_call (CallProcess this n) h).
  erewrite bind_Ok; [|apply deref_point_Ok; [exact Ht|exact Em]].
  unfold bind at 1. erewrite Port_buffer_eval; [|exact Hi|exact Ei].
  destruct (N.eqb_spec (buffer_ pin) nullptr) as [|_]; [congruence|].
  erewrite bind_Ok; [|apply deref_point_Ok; [exact Ht|exact Em]].
  unfold bind at 1. erewrite Port_buffer_eval; [|exact Ho|exact Eo].
  destruct (N.eqb_spec (buffer_ pout) nullptr) as [|_]; [congruence|].
  erewrite bind_Ok; [|apply deref_point_Ok; [exact Ht|exact Em]].
  rewrite <- (with_block_same (buffer_ pout) ys h0) at 1 by exact Eys.
  apply (for_range_map_range (buffer_ pout) (accumulated (gain_ m) xs) _ n h0); [|lia|exact Hny].
  intros i buf y Hlt Ey.
  destruct (lookup_lt_is_Some_2 xs i) as [x Ex]; [lia|].
  eapply accumulate_sample_Ok; eauto.
Qed.

(** ** The gain nodes, one after the other *)

Lemma cached_buffer_ports h h' p :
  ports h' = ports h -> cached_buffer h' p = cached_buffer h p.
Proof. intros E. unfold cached_buffer. now rewrite E. Qed.

Lemma armed_cached n ins outs h p :
  armed n ins outs h -> p ∈ ins ++ outs ->
  p <> nullptr /\
  exists P buf, ports h !! p = Some P /\ cached_buffer h p = buffer_ P /\
                buffer_ P <> nullptr /\
                audio h !! buffer_ P = Some buf /\ n <= length buf.
Proof.
  intros Ha Hp. destruct (armed_ports _ _ _ _ Ha p Hp) as (Hnn & P & buf & EP & Hb & Eb & Hn).
  split; [exact Hnn|]. exists P, buf. unfold cached_buffer. rewrite EP. auto.
Qed.

(** Rewriting one output block, without changing its length, keeps the
    ports ready. *)
Lemma armed_with_block n ins outs h b buf buf' c :
  armed n ins outs h ->
  audio h !! b = Some buf -> length buf' = length buf ->
  armed n ins outs (with_block b buf' (record_call c h)).
Proof.
  intros Ha Eb Hlen. constructor.
  - intros p Hp. destruct (armed_ports _ _ _ _ Ha p Hp) as (Hnn & P & bufp & EP & Hb & Ebp & Hn).
    split; [exact Hnn|]. simpl.
    destruct (decide (buffer_ P = b)) as [E|E].
    + exists P, buf'. rewrite E. rewrite lookup_insert_eq.
      rewrite E in Ebp. assert (bufp = buf) by congruence. subst bufp.
      split; [exact EP|]. split; [congruence|]. split; [reflexivity|lia].
    + exists P, bufp. rewrite lookup_insert_ne by congruence. auto.
  - intros o p Ho Hp. exact (armed_in_out _ _ _ _ Ha o p Ho Hp).
  - intros o1 o2 H1 H2. exact (armed_out_out _ _ _ _ Ha o1 o2 H1 H2).
Qed.

Lemma add_contribution_frame h h' locate i acc m :
  points h' = points h ->
  (forall mp, points h !! m = Some mp ->
     block_sample h' (locate (input_ mp)) i = block_sample h (locate (input_ mp)) i) ->
  add_contribution h' locate i acc m = add_contribution h locate i acc m.
Proof.
  intros Ep Hs. unfold add_contribution. rewrite Ep.
  destruct acc as [a|]; [|reflexivity].
  destruct (points h !! m) as [mp|] eqn:Em; [|reflexivity].
  now rewrite (Hs mp eq_refl).
Qed.

Lemma mix_frame h h' locate i nodes : forall start,
  points h' = points h ->
  (forall m mp, m ∈ nodes -> points h !! m = Some mp ->
     block_sample h' (locate (input_ mp)) i = block_sample h (locate (input_ mp)) i) ->
  mix h' locate i start nodes = mix h locate i start nodes.
Proof.
  unfold mix. induction nodes as [|m nodes IH]; intros start Ep Hs; simpl.
  - reflexivity.
  - rewrite (add_contribution_frame h h' locate i start m Ep).
    + apply IH; [exact Ep|]. intros m' mp Hm. apply Hs. now right.
    + intros mp Em. apply (Hs m mp); [now left|exact Em].
Qed.

Lemma mix_locate h locate locate' i nodes : forall start,
  (forall m mp, m ∈ nodes -> points h !! m = Some mp ->
     locate (input_ mp) = locate' (input_ mp)) ->
  mix h locate i start nodes = mix h locate' i start nodes.
Proof.
  unfold mix. induction nodes as [|m nodes IH]; intros start Hs; simpl.
  - reflexivity.
  - assert (E : add_contribution h locate i start m = add_contribution h locate' i start m).
    { unfold add_contribution. destruct start as [a|]; [|reflexivity].
      destruct (points h !! m) as [mp|] eqn:Em; [|reflexivity].
      rewrite (Hs m mp); [reflexivity|now left|exact Em]. }
    rewrite E. apply IH. intros m' mp Hm. apply Hs. now right.
Qed.

Lemma filter_targets_frame h h' o (nodes : list addr) :
  points h' = points h ->
  filter (targets h' o) nodes = filter (targets h o) nodes.
Proof.
  intros Ep. induction nodes as [|m nodes IH]; [reflexivity|].
  destruct (decide (targets h o m)) as [T|T].
  - rewrite (filter_cons_True (targets h o)) by exact T.
    rewrite (filter_cons_True (targets h' o)) by (unfold targets in *; now rewrite Ep).
    now rewrite IH.
  - rewrite (filter_cons_False (targets h o)) by exact T.
    rewrite (filter_cons_False (targets h' o)) by (unfold targets in *; now rewrite Ep).
    exact IH.
Qed.

Lemma targets_live h o m mp :
  points h !! m = Some mp -> (targets h o m <-> output_ mp = o).
Proof.
  intros E. unfold targets. rewrite E. simpl. split; [now intros [= ->]|now intros ->].
Qed.

Lemma block_sample_with_block_ne h b b' buf c i :
  b' <> b ->
  block_sample (with_block b buf (record_call c h)) b' i = block_sample h b' i.
Proof.
  intros Hne. unfold block_sample. simpl. now rewrite lookup_insert_ne by congruence.
Qed.

Lemma block_sample_with_block_eq h b buf c i :
  block_sample (with_block b buf (record_call c h)) b i = buf !! i.
Proof. unfold block_sample. simpl. now rewrite lookup_insert_eq. Qed.

(** Running the gain nodes over ready ports: every node succeeds, only
    output blocks change, and each output sample ends as its old value plus
    the contributions of the nodes writing to that port, in list order. *)
Lemma process_nodes n ins outs : forall nodes h,
  armed n ins outs h -> connected ins outs h nodes ->
  exists h',
    for_each nodes (fun point => MatrixPoint_process point n) h = Ok (tt, h') /\
    armed n ins outs h' /\
    ports h' = ports h /\ points h' = points h /\ cerr h' = cerr h /\
    calls h' = calls h ++ map (fun m => CallProcess m n) nodes /\
    (forall b, (forall o, o ∈ outs -> cached_buffer h o <> b) ->
       audio h' !! b = audio h !! b) /\
    (forall o i, o ∈ outs -> i < n ->
       port_sample h' o i
       = mix h (cached_buffer h) i (port_sample h o i) (filter (targets h o) nodes)).
Proof.
  induction nodes as [|m nodes IH]; intros h Ha Hc.
  - exists h. simpl. rewrite app_nil_r.
    split; [reflexivity|]. split; [exact Ha|]. repeat split; reflexivity.
  - destruct (Hc m ltac:(left)) as (Hm & mp & Em & Hin & Hout).
    destruct (armed_cached n ins outs h (input_ mp) Ha ltac:(apply elem_of_app; now left))
      as (Hinn & pin & xs & Epin & Cin & Hbin & Exs & Hnx).
    destruct (armed_cached n ins outs h (output_ mp) Ha ltac:(apply elem_of_app; now right))
      as (Honn & pout & ys & Epout & Cout & Hbout & Eys & Hny).
    assert (Hsep : buffer_ pin <> buffer_ pout).
    { rewrite <- Cin, <- Cout. intros E.
      exact (armed_in_out _ _ _ _ Ha (output_ mp) (input_ mp) Hout Hin (eq_sym E)). }
    pose proof (MatrixPoint_process_Ok m mp pin pout xs ys n h
                  Hm Em Hinn Epin Honn Epout Hbin Hbout Hsep Exs Eys Hnx Hny) as Estep.
    set (c := CallProcess m n) in *.
    set (ys' := map_range (accumulated (gain_ mp) xs) 0 n ys) in *.
    set (h1 := with_block (buffer_ pout) ys' (record_call c h)) in *.
    assert (Ha1 : armed n ins outs h1).
    { apply (armed_with_block n ins outs h (buffer_ pout) ys ys' c Ha Eys).
      apply map_range_length. }
    assert (Hc1 : connected ins outs h1 nodes).
    { intros m' Hm'. apply (Hc m'). now right. }
    destruct (IH h1 Ha1 Hc1)
      as (h' & Erun & Ha' & Eports & Epoints & Ecerr & Ecalls & Hframe & Hmix).
    assert (Cached : forall p, cached_buffer h1 p = cached_buffer h p)
      by (intros p; apply cached_buffer_ports; reflexivity).
    exists h'. split; [|split; [|split; [|split; [|split; [|split; [|split]]]]]].
    + simpl. rewrite (bind_Ok _ _ _ _ _ Estep). exact Erun.
    + exact Ha'.
    + rewrite Eports. reflexivity.
    + rewrite Epoints. reflexivity.
    + rewrite Ecerr. reflexivity.
    + rewrite Ecalls. simpl. rewrite <- app_assoc. reflexivity.
    + intros b Hb. rewrite Hframe.
      * simpl. apply lookup_insert_ne. rewrite <- Cout. exact (Hb (output_ mp) Hout).
      * intros o Ho. rewrite Cached. exact (Hb o Ho).
    + intros o i Ho Hi. rewrite (Hmix o i Ho Hi).
      rewrite (filter_targets_frame h h1 o nodes eq_refl).
      rewrite (mix_locate h1 (cached_buffer h1) (cached_buffer h) i)
        by (intros; apply Cached).
      rewrite (mix_frame h h1 (cached_buffer h) i); [|reflexivity|]; cycle 1.
      { intros m' mp' Hm' Em'. apply list_elem_of_filter in Hm' as [_ Hm'].
        destruct (Hc m' ltac:(now right)) as (_ & mp'' & Em'' & Hin' & _).
        assert (mp'' = mp') by congruence. subst mp''.
        apply block_sample_with_block_ne. rewrite <- Cout. intros E.
        exact (armed_in_out _ _ _ _ Ha (output_ mp) (input_ mp') Hout Hin' (eq_sym E)). }
      destruct (lookup_lt_is_Some_2 ys i) as [y Ey]; [lia|].
      destruct (lookup_lt_is_Some_2 xs i) as [x Ex]; [lia|].
      destruct (decide (output_ mp = o)) as [Eo|Eo].
      * rewrite (filter_cons_True (targets h o))
          by (apply (targets_live h o m mp Em); exact Eo).
        unfold mix at 2. simpl. fold (mix h (cached_buffer h) i).
        f_equal. unfold port_sample. rewrite Cached. subst o. rewrite Cout.
        unfold h1. rewrite block_sample_with_block_eq.
        unfold ys'. rewrite (map_range_inside _ 0 n ys i y) by (lia || exact Ey).
        unfold add_contribution, block_sample. rewrite Eys, Ey, Em, Cin, Exs, Ex.
        unfold accumulated. now rewrite Ex.
      * rewrite (filter_cons_False (targets h o))
          by (rewrite (targets_live h o m mp Em); exact Eo).
        f_equal. unfold port_sample. rewrite Cached. unfold h1.
        apply block_sample_with_block_ne. rewrite <- Cout. intros E.
        apply Eo. symmetry. exact (armed_out_out _ _ _ _ Ha o (output_ mp) Ho Hout E).
Qed.

(** ** Refreshing and zeroing *)

Lemma refreshed_twice bk n l p b P :
  b = jack_port_get_buffer bk (jack_port_ P) n ->
  refreshed bk n l p (with_buffer b P) = with_buffer b P.
Proof.
  intros ->. unfold refreshed. destruct (decide (p ∈ l)); reflexivity.
Qed.

Lemma refreshed_jack_port bk n l p P :
  jack_port_ (refreshed bk n l p P) = jack_port_ P.
Proof. unfold refreshed. destruct (decide (p ∈ l)); reflexivity. Qed.

Lemma refreshed_buffer bk n l p P :
  p ∈ l -> buffer_ (refreshed bk n l p P) = jack_port_get_buffer bk (jack_port_ P) n.
Proof. intros Hp. unfold refreshed. destruct (decide (p ∈ l)); [reflexivity|tauto]. Qed.

Lemma refreshed_cons_ne bk n x l p P :
  p <> x -> refreshed bk n (x :: l) p P = refreshed bk n l p P.
Proof.
  intros Hne. unfold refreshed.
  destruct (decide (p ∈ x :: l)) as [H1|H1], (decide (p ∈ l)) as [H2|H2];
    try reflexivity.
  - apply elem_of_cons in H1 as [?|?]; tauto.
  - exfalso. apply H1. now right.
Qed.

(** The first loop of [Dsp::process]. *)
Lemma refresh_ports bk n : forall l h,
  (forall p, p ∈ l -> p <> nullptr /\ is_Some (ports h !! p)) ->
  exists h1,
    for_each l (fun port => Port_updateBufferAddress bk port n) h = Ok (tt, h1) /\
    points h1 = points h /\ audio h1 = audio h /\ cerr h1 = cerr h /\
    calls h1 = calls h ++ map (fun p => CallUpdateBufferAddress p n) l /\
    (forall p, ports h1 !! p = refreshed bk n l p <$> ports h !! p).
Proof.
  induction l as [|x l IH]; intros h Hl.
  - exists h. simpl. rewrite app_nil_r. repeat split; try reflexivity.
    intros p. destruct (ports h !! p) as [P|]; [simpl|reflexivity].
    unfold refreshed. now rewrite decide_False by apply not_elem_of_nil.
  - destruct (Hl x ltac:(left)) as (Hx & X & EX).
    pose proof (Port_updateBufferAddress_Ok bk x X n h Hx EX) as Estep.
    set (b := jack_port_get_buffer bk (jack_port_ X) n) in *.
    set (h0 := set_ports (insert x (with_buffer b X))
                 (record_call (CallUpdateBufferAddress x n) h)) in *.
    destruct (IH h0) as (h1 & Erun & Epoints & Eaudio & Ecerr & Ecalls & Eports).
    { intros p Hp. destruct (Hl p ltac:(now right)) as (Hpn & Hsome).
      split; [exact Hpn|]. unfold h0. simpl.
      destruct (decide (x = p)) as [->|Hne].
      - rewrite lookup_insert_eq. eauto.
      - rewrite lookup_insert_ne by exact Hne. exact Hsome. }
    exists h1. split; [|split; [|split; [|split; [|split]]]].
    + simpl. rewrite (bind_Ok _ _ _ _ _ Estep). exact Erun.
    + rewrite Epoints. reflexivity.
    + rewrite Eaudio. reflexivity.
    + rewrite Ecerr. reflexivity.
    + rewrite Ecalls. simpl. rewrite <- app_assoc. reflexivity.
    + intros p. rewrite Eports. unfold h0. simpl.
      destruct (decide (x = p)) as [<-|Hne].
      * rewrite lookup_insert_eq, EX. simpl.
        rewrite refreshed_twice by reflexivity.
        unfold refreshed. rewrite decide_True by (now left). reflexivity.
      * rewrite lookup_insert_ne by exact Hne.
        destruct (ports h !! p) as [P|]; [simpl|reflexivity].
        now rewrite refreshed_cons_ne by congruence.
Qed.

Lemma silence_twice n buf :
  map_range silenced 0 n (map_range silenced 0 n buf) = map_range silenced 0 n buf.
Proof.
  apply list_eq. intros i. rewrite !map_range_lookup.
  destruct (buf !! i) as [y|]; [simpl|reflexivity].
  unfold silenced. destruct (bool_decide (0 <= i < n)); reflexivity.
Qed.

Lemma zeroed_silence n bs b buf :
  zeroed n bs b (map_range silenced 0 n buf) = map_range silenced 0 n buf.
Proof.
  unfold zeroed. destruct (decide (b ∈ bs)); [apply silence_twice|reflexivity].
Qed.

Lemma zeroed_cons_ne n b0 bs b buf :
  b <> b0 -> zeroed n (b0 :: bs) b buf = zeroed n bs b buf.
Proof.
  intros Hne. unfold zeroed.
  destruct (decide (b ∈ b0 :: bs)) as [H1|H1], (decide (b ∈ bs)) as [H2|H2];
    try reflexivity.
  - apply elem_of_cons in H1 as [?|?]; tauto.
  - exfalso. apply H1. now right.
Qed.

Lemma zeroed_length n bs b buf : length (zeroed n bs b buf) = length buf.
Proof.
  unfold zeroed. destruct (decide (b ∈ bs)); [apply map_range_length|reflexivity].
Qed.

(** The second loop of [Dsp::process]. *)
Lemma refresh_and_zero bk n : forall l h,
  (forall o, o ∈ l ->
     o <> nullptr /\
     exists P buf, ports h !! o = Some P /\
       jack_port_get_buffer bk (jack_port_ P) n <> nullptr /\
       audio h !! jack_port_get_buffer bk (jack_port_ P) n = Some buf /\
       n <= length buf) ->
  exists h2,
    for_each l (fun port =>
      Port_updateBufferAddress bk port n >> OutputPort_resetBuffer port n) h
    = Ok (tt, h2) /\
    points h2 = points h /\ cerr h2 = cerr h /\
    calls h2 = calls h
      ++ flat_map (fun p => [CallUpdateBufferAddress p n; CallResetBuffer p n]) l /\
    (forall p, ports h2 !! p = refreshed bk n l p <$> ports h !! p) /\
    (forall b, audio h2 !! b
               = zeroed n (map (backend_buffer bk n h) l) b <$> audio h !! b).
Proof.
  induction l as [|x l IH]; intros h Hl.
  - exists h. simpl. rewrite app_nil_r. repeat split; try reflexivity.
    + intros p. destruct (ports h !! p) as [P|]; [simpl|reflexivity].
      unfold refreshed. now rewrite decide_False by apply not_elem_of_nil.
    + intros b. destruct (audio h !! b) as [buf|]; [simpl|reflexivity].
      unfold zeroed. now rewrite decide_False by apply not_elem_of_nil.
  - destruct (Hl x ltac:(left)) as (Hx & X & buf & EX & Hb & Ebuf & Hn).
    pose proof (Port_updateBufferAddress_Ok bk x X n h Hx EX) as Eupd.
    set (b := jack_port_get_buffer bk (jack_port_ X) n) in *.
    set (hu := set_ports (insert x (with_buffer b X))
                 (record_call (CallUpdateBufferAddress x n) h)) in *.
    assert (Ereset : OutputPort_resetBuffer x n hu
                     = Ok (tt, with_block b (map_range silenced 0 n buf)
                                 (record_call (CallResetBuffer x n) hu))).
    { apply (OutputPort_resetBuffer_Ok x (with_buffer b X) buf n hu Hx).
      - unfold hu. simpl. apply lookup_insert_eq.
      - exact Hb.
      - exact Ebuf.
      - exact Hn. }
    set (h0 := with_block b (map_range silenced 0 n buf)
                 (record_call (CallResetBuffer x n) hu)) in *.
    assert (Eports0 : forall p, ports h0 !! p
                      = if decide (x = p) then Some (with_buffer b X) else ports h !! p).
    { intros p. unfold h0, hu. simpl. destruct (decide (x = p)) as [->|Hne].
      - apply lookup_insert_eq.
      - now apply lookup_insert_ne. }
    assert (Eaudio0 : forall b', audio h0 !! b'
                      = if decide (b = b') then Some (map_range silenced 0 n buf)
                        else audio h !! b').
    { intros b'. unfold h0, hu. simpl. destruct (decide (b = b')) as [->|Hne].
      - apply lookup_insert_eq.
      - now apply lookup_insert_ne. }
    assert (Ebb : forall p, backend_buffer bk n h0 p = backend_buffer bk n h p).
    { intros p. unfold backend_buffer. rewrite Eports0.
      destruct (decide (x = p)) as [<-|_]; [|reflexivity]. now rewrite EX. }
    destruct (IH h0) as (h2 & Erun & Epoints & Ecerr & Ecalls & Eports & Eaudio).
    { intros o Ho. destruct (Hl o ltac:(now right)) as (Hon & P & bufo & EP & Hbo & Ebo & Hno).
      split; [exact Hon|]. rewrite Eports0.
      destruct (decide (x = o)) as [<-|Hne].
      - assert (P = X) by congruence. subst P.
        exists (with_buffer b X), (map_range silenced 0 n buf).
        change (jack_port_ (with_buffer b X)) with (jack_port_ X). fold b.
        rewrite Eaudio0, decide_True by reflexivity.
        rewrite map_range_length. auto.
      - destruct (decide (b = jack_port_get_buffer bk (jack_port_ P) n)) as [Eb|Eb].
        + exists P, (map_range silenced 0 n buf). rewrite map_range_length.
          rewrite Eaudio0, decide_True by exact Eb.
          rewrite <- Eb in Ebo. assert (bufo = buf) by congruence. subst bufo. auto.
        + exists P, bufo. rewrite Eaudio0, decide_False by exact Eb. auto. }
    exists h2. split; [|split; [|split; [|split; [|split]]]].
    + simpl. unfold bind at 1. unfold bind at 1.
      rewrite Eupd, Ereset. exact Erun.
    + rewrite Epoints. reflexivity.
    + rewrite Ecerr. reflexivity.
    + rewrite Ecalls. simpl. rewrite <- !app_assoc. reflexivity.
    + intros p. rewrite Eports, Eports0.
      destruct (decide (x = p)) as [<-|Hne].
      * rewrite EX. simpl. rewrite refreshed_twice by reflexivity.
        unfold refreshed. rewrite decide_True by (now left). reflexivity.
      * destruct (ports h !! p) as [P|]; [simpl|reflexivity].
        now rewrite refreshed_cons_ne by congruence.
    + intros b'. rewrite Eaudio, Eaudio0.
      rewrite (map_ext _ _ Ebb). simpl.
      assert (Ebx : backend_buffer bk n h x = b)
        by (unfold backend_buffer; now rewrite EX).
      rewrite Ebx.
      destruct (decide (b = b')) as [<-|Hne].
      * rewrite Ebuf. simpl. rewrite zeroed_silence.
        unfold zeroed. rewrite decide_True by (now left). reflexivity.
      * destruct (audio h !! b') as [buf'|]; [simpl|reflexivity].
        now rewrite zeroed_cons_ne by congruence.
Qed.

(** ** A whole block *)

(** [Dsp::process] on a ready graph: it returns, it has made the calls of
    [process_schedule] in that order, every port of the graph caches the
    pointer of this block, input samples are untouched, and every output
    sample is the contributions of the nodes writing to that port, added to
    zero in the order of [matrix_points]. *)
Lemma Dsp_process_block bk d n h :
  block_ready bk d n h ->
  exists h',
    Dsp_process bk d n h = Ok (tt, h') /\
    points h' = points h /\ cerr h' = cerr h /\
    calls h' = calls h ++ process_schedule d n /\
    (forall p, p ∈ inputs d ++ outputs d ->
       cached_buffer h' p = backend_buffer bk n h p) /\
    (forall p i, p ∈ inputs d ->
       port_sample h' p i = block_sample h (backend_buffer bk n h p) i) /\
    (forall o i, o ∈ outputs d -> i < n ->
       is_Some (port_sample h' o i) /\
       port_sample h' o i
       = mix h (backend_buffer bk n h) i (Some F32.zero)
           (filter (targets h o) (matrix_points d))).
Proof.
  intros [Hports Hpoints Hio Hoo].
  set (ins := inputs d) in *. set (outs := outputs d) in *.
  set (bb := backend_buffer bk n h) in *.
  (* first loop *)
  destruct (refresh_ports bk n ins h) as (h1 & E1 & Pt1 & Au1 & Ce1 & Ca1 & Po1).
  { intros p Hp. destruct (Hports p ltac:(apply elem_of_app; now left))
      as (Hpn & P & buf & EP & _). split; [exact Hpn|]. rewrite EP. eauto. }
  assert (Ebb1 : forall p, backend_buffer bk n h1 p = bb p).
  { intros p. unfold bb, backend_buffer. rewrite Po1.
    destruct (ports h !! p) as [P|]; [simpl|reflexivity].
    now rewrite refreshed_jack_port. }
  (* second loop *)
  destruct (refresh_and_zero bk n outs h1) as (h2 & E2 & Pt2 & Ce2 & Ca2 & Po2 & Au2).
  { intros o Ho. destruct (Hports o ltac:(apply elem_of_app; now right))
      as (Hon & P & buf & EP & Hb & Ebuf & Hn).
    split; [exact Hon|]. exists (refreshed bk n ins o P), buf.
    rewrite Po1, EP, refreshed_jack_port, Au1. auto. }
  rewrite (map_ext _ _ Ebb1) in Au2.
  assert (Cached2 : forall p P, p ∈ ins ++ outs -> ports h !! p = Some P ->
            exists P2, ports h2 !! p = Some P2 /\
                       buffer_ P2 = jack_port_get_buffer bk (jack_port_ P) n).
  { intros p P Hp EP. eexists. split.
    - rewrite Po2, Po1, EP. reflexivity.
    - destruct (decide (p ∈ outs)) as [Ho|Ho].
      + rewrite refreshed_buffer by exact Ho. now rewrite refreshed_jack_port.
      + unfold refreshed at 1. rewrite decide_False by exact Ho.
        apply refreshed_buffer. apply elem_of_app in Hp as [?|?]; tauto. }
  assert (Ecached2 : forall p, p ∈ ins ++ outs -> cached_buffer h2 p = bb p).
  { intros p Hp. destruct (Hports p Hp) as (_ & P & _ & EP & _).
    destruct (Cached2 p P Hp EP) as (P2 & EP2 & Eb2).
    unfold cached_buffer, bb, backend_buffer. now rewrite EP2, EP. }
  assert (Ha2 : armed n ins outs h2).
  { constructor.
    - intros p Hp. destruct (Hports p Hp) as (Hpn & P & buf & EP & Hb & Ebuf & Hn).
      destruct (Cached2 p P Hp EP) as (P2 & EP2 & Eb2).
      split; [exact Hpn|].
      exists P2, (zeroed n (map bb outs) (buffer_ P2) buf).
      rewrite Eb2, Au2, Au1, Ebuf, zeroed_length. auto.
    - intros o p Ho Hp. rewrite !Ecached2 by (apply elem_of_app; auto).
      exact (Hio o p Ho Hp).
    - intros o1 o2 H1 H2. rewrite !Ecached2 by (apply elem_of_app; auto).
      exact (Hoo o1 o2 H1 H2). }
  assert (Hc2 : connected ins outs h2 (matrix_points d)).
  { intros m Hm. rewrite Pt2, Pt1. exact (Hpoints m Hm). }
  (* third loop *)
  destruct (process_nodes n ins outs (matrix_points d) h2 Ha2 Hc2)
    as (h3 & E3 & Ha3 & Po3 & Pt3 & Ce3 & Ca3 & Frame3 & Mix3).
  assert (Ecached3 : forall p, p ∈ ins ++ outs -> cached_buffer h3 p = bb p).
  { intros p Hp. rewrite (cached_buffer_ports h2 h3 p Po3). now apply Ecached2. }
  exists h3. split; [|split; [|split; [|split; [|split; [|split]]]]].
  - unfold Dsp_process. fold ins outs.
    rewrite (bind_Ok _ _ _ _ _ E1), (bind_Ok _ _ _ _ _ E2). exact E3.
  - now rewrite Pt3, Pt2, Pt1.
  - now rewrite Ce3, Ce2, Ce1.
  - rewrite Ca3, Ca2, Ca1. unfold process_schedule. fold ins outs.
    now rewrite <- !app_assoc.
  - exact Ecached3.
  - intros p i Hp. unfold port_sample.
    rewrite Ecached3 by (apply elem_of_app; now left).
    unfold block_sample. rewrite Frame3.
    + rewrite Au2, Au1. destruct (audio h !! bb p) as [buf|]; [simpl|reflexivity].
      unfold zeroed. rewrite decide_False; [reflexivity|].
      intros Hin. apply list_elem_of_fmap in Hin as (o & Eo & Ho).
      exact (Hio o p Ho Hp (eq_sym Eo)).
    + intros o Ho. rewrite Ecached2 by (apply elem_of_app; now right).
      exact (Hio o p Ho Hp).
  - intros o i Ho Hi.
    assert (Estart : port_sample h2 o i = Some F32.zero).
    { destruct (Hports o ltac:(apply elem_of_app; now right))
        as (_ & P & buf & EP & _ & Ebuf & Hn).
      unfold port_sample. rewrite Ecached2 by (apply elem_of_app; now right).
      assert (Ebbo : bb o = jack_port_get_buffer bk (jack_port_ P) n)
        by (unfold bb, backend_buffer; now rewrite EP).
      unfold block_sample. rewrite Au2, Au1, Ebbo, Ebuf. simpl.
      unfold zeroed. rewrite decide_True; cycle 1.
      { rewrite <- Ebbo. apply list_elem_of_fmap. eauto. }
      destruct (lookup_lt_is_Some_2 buf i) as [y Ey]; [lia|].
      now rewrite (map_range_inside silenced 0 n buf i y) by (lia || exact Ey). }
    assert (Emix : port_sample h3 o i
              = mix h bb i (Some F32.zero) (filter (targets h o) (matrix_points d))).
    { rewrite (Mix3 o i Ho Hi), Estart.
      rewrite (filter_targets_frame h h2 o) by (now rewrite Pt2, Pt1).
      assert (Hnode : forall m mp, m ∈ filter (targets h o) (matrix_points d) ->
                points h !! m = Some mp -> input_ mp ∈ ins).
      { intros m mp Hm Em. apply list_elem_of_filter in Hm as [_ Hm].
        destruct (Hpoints m Hm) as (_ & mp' & Em' & Hin & _). congruence. }
      rewrite (mix_frame h h2 (cached_buffer h2) i); cycle 1.
      { now rewrite Pt2, Pt1. }
      { intros m mp Hm Em. pose proof (Hnode m mp Hm Em) as Hin.
        rewrite Ecached2 by (apply elem_of_app; now left).
        unfold block_sample. rewrite Au2, Au1.
        destruct (audio h !! bb (input_ mp)) as [buf|]; [simpl|reflexivity].
        unfold zeroed. rewrite decide_False; [reflexivity|].
        intros Hin'. apply list_elem_of_fmap in Hin' as (o' & Eo & Ho').
        exact (Hio o' (input_ mp) Ho' Hin (eq_sym Eo)). }
      apply mix_locate. intros m mp Hm Em.
      apply Ecached2. apply elem_of_app. left. exact (Hnode m mp Hm Em). }
    split; [|exact Emix].
    destruct (armed_cached n ins outs h3 o Ha3 ltac:(apply elem_of_app; now right))
      as (_ & P3 & buf3 & EP3 & C3 & _ & Eb3 & Hn3).
    unfold port_sample, block_sample. rewrite C3, Eb3.
    apply lookup_lt_is_Some_2. lia.
Qed.

(** ** The order of the calls, for any run that returns *)

Lemma store_calls b i v h h' : store b i v h = Ok (tt, h') -> calls h' = calls h.
Proof.
  unfold store. destruct (b =? nullptr)%N; [discriminate|].
  destruct (audio h !! b) as [buf|]; [|discriminate].
  destruct (i <? length buf); [|discriminate]. now intros [= <-].
Qed.

Lemma load_heap b i x h h' : load b i h = Ok (x, h') -> h' = h.
Proof.
  unfold load. destruct (b =? nullptr)%N; [discriminate|].
  destruct (audio h !! b) as [buf|]; [|discriminate].
  destruct (buf !! i); [|discriminate]. now intros [= _ <-].
Qed.

Lemma for_range_calls body :
  (forall i h h', body i h = Ok (tt, h') -> calls h' = calls h) ->
  forall count from h h',
    for_range from count body h = Ok (tt, h') -> calls h' = calls h.
Proof.
  intros Hbody. induction count as [|count IH]; intros from h h' E; simpl in E.
  - now injection E as <-.
  - apply bind_inv in E as ([] & h1 & E1 & E2).
    rewrite (IH _ _ _ E2). exact (Hbody _ _ _ E1).
Qed.

Lemma Port_buffer_heap p b h h' : Port_buffer p h = Ok (b, h') -> h' = h.
Proof.
  unfold Port_buffer. intros E.
  apply bind_inv in E as (P & h1 & E1 & E2).
  apply deref_port_inv in E1 as (_ & _ & ->).
  unfold bind, assert in E2. destruct (negb (buffer_ P =? nullptr)%N); [|discriminate].
  now injection E2 as _ <-.
Qed.

Lemma Port_updateBufferAddress_calls bk p n h h' :
  Port_updateBufferAddress bk p n h = Ok (tt, h') ->
  calls h' = calls h ++ [CallUpdateBufferAddress p n].
Proof.
  unfold Port_updateBufferAddress. intros E.
  apply bind_inv in E as ([] & h1 & E1 & E2).
  unfold modify in E1. injection E1 as <-.
  apply bind_inv in E2 as (P & h2 & E2 & E3).
  apply deref_port_inv in E2 as (_ & _ & ->).
  unfold modify in E3. now injection E3 as <-.
Qed.

Lemma OutputPort_resetBuffer_calls p n h h' :
  OutputPort_resetBuffer p n h = Ok (tt, h') ->
  calls h' = calls h ++ [CallResetBuffer p n].
Proof.
  unfold OutputPort_resetBuffer. intros E.
  apply bind_inv in E as ([] & h1 & E1 & E2).
  unfold modify in E1. injection E1 as <-.
  apply bind_inv in E2 as (P & h2 & E2 & E3).
  apply deref_port_inv in E2 as (_ & _ & ->).
  apply for_range_calls in E3; [exact E3|].
  intros i h1 h2. apply store_calls.
Qed.

Lemma MatrixPoint_process_calls m n h h' :
  MatrixPoint_process m n h = Ok (tt, h') ->
  calls h' = calls h ++ [CallProcess m n].
Proof.
  unfold MatrixPoint_process. intros E.
  apply bind_inv in E as ([] & h1 & E1 & E).
  unfold modify in E1. injection E1 as <-.
  apply bind_inv in E as (mp & h2 & E2 & E).
  apply deref_point_inv in E2 as (_ & _ & ->).
  apply bind_inv in E as (bi & h3 & E3 & E). apply Port_buffer_heap in E3 as ->.
  apply bind_inv in E as (mp0 & h4 & E4 & E).
  apply deref_point_inv in E4 as (_ & _ & ->).
  apply bind_inv in E as (bo & h4 & E4 & E). apply Port_buffer_heap in E4 as ->.
  apply bind_inv in E as (mp' & h5 & E5 & E).
  apply deref_point_inv in E5 as (_ & _ & ->).
  apply for_range_calls in E; [exact E|].
  intros i h1 h2 Eb. unfold accumulate_sample in Eb.
  apply bind_inv in Eb as (x & h6 & E6 & Eb). apply load_heap in E6 as ->.
  apply bind_inv in Eb as (y & h7 & E7 & Eb). apply load_heap in E7 as ->.
  exact (store_calls _ _ _ _ _ Eb).
Qed.

Lemma for_each_calls {A} (body : A -> M unit) (log : A -> list call) :
  (forall x h h', body x h = Ok (tt, h') -> calls h' = calls h ++ log x) ->
  forall l h h',
    for_each l body h = Ok (tt, h') -> calls h' = calls h ++ flat_map log l.
Proof.
  intros Hbody. induction l as [|x l IH]; intros h h' E; simpl in E.
  - injection E as <-. simpl. now rewrite app_nil_r.
  - apply bind_inv in E as ([] & h1 & E1 & E2).
    rewrite (IH _ _ E2), (Hbody _ _ _ E1). simpl. now rewrite <- app_assoc.
Qed.

Lemma flat_map_singleton {A B} (f : A -> B) (l : list A) :
  flat_map (fun x => [f x]) l = map f l.
Proof. induction l as [|x l IH]; simpl; [reflexivity|now rewrite IH]. Qed.

Lemma Dsp_process_calls bk d n h h' :
  Dsp_process bk d n h = Ok (tt, h') ->
  calls h' = calls h ++ process_schedule d n.
Proof.
  unfold Dsp_process. intros E.
  apply bind_inv in E as ([] & h1 & E1 & E).
  apply bind_inv in E as ([] & h2 & E2 & E3).
  apply (for_each_calls _ (fun p => [CallUpdateBufferAddress p n])) in E1;
    [|intros x h0 h0'; apply Port_updateBufferAddress_calls].
  apply (for_each_calls _
           (fun p => [CallUpdateBufferAddress p n; CallResetBuffer p n])) in E2.
  2:{ intros x h0 h0' Ex. apply bind_inv in Ex as ([] & hm & Ea & Eb).
      rewrite (OutputPort_resetBuffer_calls _ _ _ _ Eb).
      rewrite (Port_updateBufferAddress_calls _ _ _ _ _ Ea).
      now rewrite <- app_assoc. }
  apply (for_each_calls _ (fun m => [CallProcess m n])) in E3;
    [|intros x h0 h0'; apply MatrixPoint_process_calls].
  rewrite E3, E2, E1, !flat_map_singleton. unfold process_schedule.
  now rewrite <- !app_assoc.
Qed.

Lemma filter_targets_none h o (nodes : list addr) :
  (forall m mp, m ∈ nodes -> points h !! m = Some mp -> output_ mp <> o) ->
  filter (targets h o) nodes = [].
Proof.
  induction nodes as [|m nodes IH]; intros Hn; [reflexivity|].
  rewrite filter_cons_False.
  - apply IH. intros m' mp Hm. apply Hn. now right.
  - unfold targets. destruct (points h !! m) as [mp|] eqn:Em; [simpl|discriminate].
    intros [= E]. exact (Hn m mp ltac:(left) Em E).
Qed.

Lemma MatrixPoint_process_accumulates this m pin pout xs ys n h :
  this <> nullptr -> points h !! this = Some m ->
  input_ m <> nullptr -> ports h !! input_ m = Some pin ->
  output_ m <> nullptr -> ports h !! output_ m = Some pout ->
  buffer_ pin <> nullptr -> buffer_ pout <> nullptr ->
  buffer_ pin <> buffer_ pout ->
  audio h !! buffer_ pin = Some xs -> audio h !! buffer_ pout = Some ys ->
  n <= length xs -> n <= length ys ->
  exists h1,
    MatrixPoint_process this n h = Ok (tt, h1) /\
    forall i, i < n ->
      exists x y, xs !! i = Some x /\ ys !! i = Some y /\
        block_sample h1 (buffer_ pout) i = Some (F32.add y (F32.mul (gain_ m) x)).
Proof.
  intros Ht Em Hi Ei Ho Eo Hbi Hbo Hne Exs Eys Hnx Hny.
  eexists. split; [eapply MatrixPoint_process_Ok; eauto|].
  intros i Hlt.
  destruct (lookup_lt_is_Some_2 xs i) as [x Ex]; [lia|].
  destruct (lookup_lt_is_Some_2 ys i) as [y Ey]; [lia|].
  exists x, y. split; [exact Ex|]. split; [exact Ey|].
  rewrite block_sample_with_block_eq.
  rewrite (map_range_inside _ 0 n ys i y) by (lia || exact Ey).
  unfold accumulated. now rewrite Ex.
Qed.

(** C1. On a ready graph [Dsp::process] returns, and afterwards sample [i]
    of every output port, for [i] below the block size, is the sum of
    [gain * input[i]] over the gain nodes that write to that port: the terms
    are added to zero one after the other in the order of [matrix_points],
    each product and each sum rounded to [float].  A single node's
    [process] adds its term to what the output sample held before. *)
Theorem outputs_are_gain_weighted_sums
    (bk : Backend) (d : Dsp) (n : nat) (h : Heap) :
  block_ready bk d n h ->
  (exists h',
     Dsp_process bk d n h = Ok (tt, h') /\
     forall o i, o ∈ outputs d -> i < n ->
       exists v,
         port_sample h' o i = Some v /\
         mix h (backend_buffer bk n h) i (Some F32.zero)
           (filter (targets h o) (matrix_points d)) = Some v) /\
  (forall this m pin pout xs ys h0,
     this <> nullptr -> points h0 !! this = Some m ->
     input_ m <> nullptr -> ports h0 !! input_ m = Some pin ->
     output_ m <> nullptr -> ports h0 !! output_ m = Some pout ->
     buffer_ pin <> nullptr -> buffer_ pout <> nullptr ->
     buffer_ pin <> buffer_ pout ->
     audio h0 !! buffer_ pin = Some xs -> audio h0 !! buffer_ pout = Some ys ->
     n <= length xs -> n <= length ys ->
     exists h1,
       MatrixPoint_process this n h0 = Ok (tt, h1) /\
       forall i, i < n ->
         exists x y, xs !! i = Some x /\ ys !! i = Some y /\
           block_sample h1 (buffer_ pout) i = Some (F32.add y (F32.mul (gain_ m) x))).
Proof.
  intros Hready. split.
  - destruct (Dsp_process_block bk d n h Hready)
      as (h' & E & _ & _ & _ & _ & _ & Hout).
    exists h'. split; [exact E|]. intros o i Ho Hi.
    destruct (Hout o i Ho Hi) as [[v Ev] Emix].
    exists v. split; [exact Ev|]. now rewrite <- Emix.
  - intros. eapply MatrixPoint_process_accumulates; eauto.
Qed.

Ltac studio_member H :=
  simpl in H;
  repeat (apply elem_of_cons in H as [->|H]);
  [..|now apply elem_of_nil in H].

Lemma studio_ready :
  block_ready Studio.backend Studio.dsp2 4 Studio.wired2.
Proof.
  constructor.
  - intros p Hp. studio_member Hp.
    all: split; [discriminate|].
    all: eexists; eexists; split; [vm_compute; reflexivity|].
    all: split; [discriminate|]; split; [vm_compute; reflexivity|simpl; lia].
  - intros m Hm. studio_member Hm.
    all: split; [discriminate|]; eexists; split; [vm_compute; reflexivity|].
    all: split; simpl; set_solver.
  - intros o p Ho Hp. studio_member Ho. studio_member Hp.
    all: vm_compute; discriminate.
  - intros o1 o2 H1 H2. studio_member H1. studio_member H2. reflexivity.
Defined.

Lemma outputs_are_gain_weighted_sums_witness :
  (exists h',
     Dsp_process Studio.backend Studio.dsp2 4 Studio.wired2 = Ok (tt, h') /\
     port_sample h' 2%N 0 = Some StudioMix.three) /\
  (exists h1,
     MatrixPoint_process 50%N 4 StudioLive.playing = Ok (tt, h1) /\
     block_sample StudioLive.playing 200%N 0 = Some Studio.two /\
     block_sample h1 200%N 0 = Some StudioMix.four).
Proof.
  destruct (outputs_are_gain_weighted_sums Studio.backend Studio.dsp2 4
              Studio.wired2 studio_ready) as [(h' & E & Hout) Hnode].
  split.
  - exists h'. split; [exact E|].
    destruct (Hout 2%N 0) as (v & Ev & Emix).
    + simpl. set_solver.
    + lia.
    + rewrite Ev, <- Emix. vm_compute. reflexivity.
  - destruct (Hnode 50%N
                (mkMatrixPoint (mkCountUsers 0) 1%N 2%N Studio.two)
                (mkPort (mkCountUsers 1) 10%N "A" 100%N)
                (mkPort (mkCountUsers 1) 20%N "O" 200%N)
                [Studio.one; Studio.one; Studio.one; Studio.one]
                [Studio.two; Studio.two; Studio.two; Studio.two]
                StudioLive.playing) as (h1 & E1 & Hs);
      try discriminate; try (vm_compute; reflexivity); try (simpl; lia).
    exists h1. split; [exact E1|]. split; [vm_compute; reflexivity|].
    destruct (Hs 0) as (x & y & Ex & Ey & Eo); [lia|].
    injection Ex as <-. injection Ey as <-.
    change (block_sample h1 200%N 0 = Some (F32.add Studio.two (F32.mul Studio.two Studio.one)))
      in Eo.
    rewrite Eo. vm_compute. reflexivity.
Defined.

(** C2. Whenever [Dsp::process] returns it has made exactly these calls, in
    this order: [updateBufferAddress] on every input port, then
    [updateBufferAddress] followed by [resetBuffer] on every output port,
    then [process] on every gain node, each group in the order of its
    vector.  On a ready graph it does return, and an output port that no
    gain node writes to holds zeros in its first [n] samples. *)
Theorem process_order_and_silence
    (bk : Backend) (d : Dsp) (n : nat) (h : Heap) :
  (forall h', Dsp_process bk d n h = Ok (tt, h') ->
     calls h' = calls h
       ++ map (fun p => CallUpdateBufferAddress p n) (inputs d)
       ++ flat_map (fun p => [CallUpdateBufferAddress p n; CallResetBuffer p n])
            (outputs d)
       ++ map (fun m => CallProcess m n) (matrix_points d)) /\
  (block_ready bk d n h ->
   exists h',
     Dsp_process bk d n h = Ok (tt, h') /\
     forall o, o ∈ outputs d ->
       (forall m mp, m ∈ matrix_points d -> points h !! m = Some mp ->
          output_ mp <> o) ->
       forall i, i < n -> port_sample h' o i = Some F32.zero).
Proof.
  split.
  - intros h' E. exact (Dsp_process_calls bk d n h h' E).
  - intros Hready.
    destruct (Dsp_process_block bk d n h Hready)
      as (h' & E & _ & _ & _ & _ & _ & Hout).
    exists h'. split; [exact E|]. intros o Ho Hnone i Hi.
    destruct (Hout o i Ho Hi) as [_ Emix].
    rewrite Emix, (filter_targets_none h o (matrix_points d) Hnone). reflexivity.
Qed.

Lemma studio_unwired_ready :
  block_ready Studio.backend Studio.unwired 4 Studio.idle.
Proof.
  constructor.
  - intros p Hp. studio_member Hp.
    all: split; [discriminate|].
    all: eexists; eexists; split; [vm_compute; reflexivity|].
    all: split; [discriminate|]; split; [vm_compute; reflexivity|simpl; lia].
  - intros m Hm. simpl in Hm. now apply elem_of_nil in Hm.
  - intros o p Ho Hp. studio_member Ho. studio_member Hp.
    all: vm_compute; discriminate.
  - intros o1 o2 H1 H2. studio_member H1. studio_member H2. reflexivity.
Defined.

Lemma process_order_and_silence_witness :
  exists h',
    Dsp_process Studio.backend Studio.unwired 4 Studio.idle = Ok (tt, h') /\
    calls h' = [CallUpdateBufferAddress 1%N 4; CallUpdateBufferAddress 3%N 4;
                CallUpdateBufferAddress 2%N 4; CallResetBuffer 2%N 4] /\
    (forall i, i < 4 -> port_sample h' 2%N i = Some F32.zero).
Proof.
  destruct (process_order_and_silence Studio.backend Studio.unwired 4 Studio.idle)
    as [Horder Hsilence].
  destruct (Hsilence studio_unwired_ready) as (h' & E & Hzero).
  exists h'. split; [exact E|]. split; [exact (Horder h' E)|].
  intros i Hi. apply (Hzero 2%N); [simpl; set_solver| |exact Hi].
  intros m mp Hm. simpl in Hm. now apply elem_of_nil in Hm.
Defined.

(** ** Connecting *)

Lemma add_contribution_eval h locate i a m mp x :
  points h !! m = Some mp ->
  block_sample h (locate (input_ mp)) i = Some x ->
  add_contribution h locate i (Some a) m = Some (F32.add a (F32.mul (gain_ mp) x)).
Proof. intros Em Ex. unfold add_contribution. now rewrite Em, Ex. Qed.

Lemma MatrixPoint_new_Ok this input output gain h :
  this <> nullptr -> points h !! this = None ->
  input <> nullptr -> is_Some (ports h !! input) ->
  output <> nullptr -> is_Some (ports h !! output) ->
  exists h1,
    MatrixPoint_new this input output gain h = Ok (tt, h1) /\
    points h1 = <[this := mkMatrixPoint (mkCountUsers 0) input output gain]> (points h) /\
    audio h1 = audio h /\ calls h1 = calls h /\
    (forall p, jack_port_ <$> ports h1 !! p = jack_port_ <$> ports h !! p).
Proof.
  intros Ht Efree Hi [A EA] Ho [O EO]. unfold MatrixPoint_new.
  set (mp := mkMatrixPoint (mkCountUsers 0) input output gain).
  assert (Ec : construct_point this mp h = Ok (tt, set_points (insert this mp) h)).
  { unfold construct_point. destruct (N.eqb_spec this nullptr); [congruence|].
    now rewrite Efree. }
  rewrite (bind_Ok _ _ _ _ _ Ec).
  set (hc := set_points (insert this mp) h).
  pose proof (Port_incrementUsers_Ok input A hc Hi EA) as Ea.
  rewrite (bind_Ok _ _ _ _ _ Ea).
  set (A' := with_port_base (CountUsers_incrementUsers (port_base A)) A) in *.
  set (ha := write_cerr (PlusPlus input) (set_ports (insert input A') hc)) in *.
  assert (EO' : exists O', ports ha !! output = Some O' /\ jack_port_ O' = jack_port_ O).
  { unfold ha. simpl. destruct (decide (input = output)) as [E|E].
    - exists A'. rewrite E, lookup_insert_eq. split; [reflexivity|].
      rewrite E in EA. assert (A = O) by congruence. now subst O.
    - exists O. rewrite lookup_insert_ne by exact E. auto. }
  destruct EO' as (O' & EO' & Ejack).
  rewrite (Port_incrementUsers_Ok output O' ha Ho EO').
  eexists. split; [reflexivity|]. simpl.
  split; [reflexivity|]. split; [reflexivity|]. split; [reflexivity|].
  intros p. destruct (decide (output = p)) as [<-|Hop].
  - rewrite lookup_insert_eq, EO. simpl. now rewrite Ejack.
  - rewrite lookup_insert_ne by exact Hop.
    destruct (decide (input = p)) as [<-|Hip].
    + now rewrite lookup_insert_eq, EA.
    + now rewrite lookup_insert_ne by exact Hip.
Qed.

(** Readiness looks at the ports only through [jack_port_], so it survives
    changes to the usage counters and a change of the set of gain nodes. *)
Lemma block_ready_rewire bk n ins outs nodes nodes' h h' :
  block_ready bk (mkDsp ins outs nodes) n h ->
  (forall p, jack_port_ <$> ports h' !! p = jack_port_ <$> ports h !! p) ->
  audio h' = audio h ->
  connected ins outs h' nodes' ->
  block_ready bk (mkDsp ins outs nodes') n h' /\
  (forall p, backend_buffer bk n h' p = backend_buffer bk n h p).
Proof.
  intros [Hports Hpoints Hio Hoo] Hjack Haudio Hconn. simpl in *.
  assert (Ebb : forall p, backend_buffer bk n h' p = backend_buffer bk n h p).
  { intros p. unfold backend_buffer. specialize (Hjack p).
    destruct (ports h' !! p) as [P'|], (ports h !! p) as [P|];
      simpl in Hjack; try discriminate; [|reflexivity].
    now injection Hjack as ->. }
  split; [|exact Ebb]. constructor; simpl.
  - intros p Hp. destruct (Hports p Hp) as (Hpn & P & buf & EP & Hb & Ebuf & Hn).
    split; [exact Hpn|]. specialize (Hjack p). rewrite EP in Hjack. simpl in Hjack.
    destruct (ports h' !! p) as [P'|]; [|discriminate].
    injection Hjack as Hjack. exists P', buf. rewrite Hjack, Haudio. auto.
  - exact Hconn.
  - intros o p Ho Hp. rewrite !Ebb. exact (Hio o p Ho Hp).
  - intros o1 o2 H1 H2. rewrite !Ebb. exact (Hoo o1 o2 H1 H2).
Qed.

(** C9. Constructing two gain nodes on the same input and output gives two
    live nodes, each with its own gain, and the block processed after that
    carries both contributions: output sample [i] is
    [(0 + g1 * input[i]) + g2 * input[i]]. *)
Theorem double_connection_sums
    (bk : Backend) (a o m1 m2 : addr) (g1 g2 : float) (n : nat) (h : Heap) :
  block_ready bk (mkDsp [a] [o] []) n h ->
  m1 <> nullptr -> m2 <> nullptr -> m1 <> m2 ->
  points h !! m1 = None -> points h !! m2 = None ->
  exists h1 h2 h',
    MatrixPoint_new m1 a o g1 h = Ok (tt, h1) /\
    MatrixPoint_new m2 a o g2 h1 = Ok (tt, h2) /\
    points h2 !! m1 = Some (mkMatrixPoint (mkCountUsers 0) a o g1) /\
    points h2 !! m2 = Some (mkMatrixPoint (mkCountUsers 0) a o g2) /\
    Dsp_process bk (mkDsp [a] [o] [m1; m2]) n h2 = Ok (tt, h') /\
    forall i x, i < n ->
      block_sample h (backend_buffer bk n h a) i = Some x ->
      port_sample h' o i
      = Some (F32.add (F32.add F32.zero (F32.mul g1 x)) (F32.mul g2 x)).
Proof.
  intros Hready Hm1 Hm2 Hne Efree1 Efree2.
  destruct (ready_ports _ _ _ _ Hready a ltac:(simpl; set_solver))
    as (Ha & A & bufa & EA & _).
  destruct (ready_ports _ _ _ _ Hready o ltac:(simpl; set_solver))
    as (Ho & O & bufo & EO & _).
  destruct (MatrixPoint_new_Ok m1 a o g1 h Hm1 Efree1 Ha ltac:(eauto) Ho ltac:(eauto))
    as (h1 & E1 & Pt1 & Au1 & _ & Jk1).
  destruct (MatrixPoint_new_Ok m2 a o g2 h1) as (h2 & E2 & Pt2 & Au2 & _ & Jk2);
    try assumption.
  { rewrite Pt1, lookup_insert_ne by exact Hne. exact Efree2. }
  { specialize (Jk1 a). rewrite EA in Jk1. now destruct (ports h1 !! a). }
  { specialize (Jk1 o). rewrite EO in Jk1. now destruct (ports h1 !! o). }
  assert (L1 : points h2 !! m1 = Some (mkMatrixPoint (mkCountUsers 0) a o g1)).
  { rewrite Pt2, lookup_insert_ne by congruence. rewrite Pt1. apply lookup_insert_eq. }
  assert (L2 : points h2 !! m2 = Some (mkMatrixPoint (mkCountUsers 0) a o g2)).
  { rewrite Pt2. apply lookup_insert_eq. }
  destruct (block_ready_rewire bk n [a] [o] [] [m1; m2] h h2 Hready)
    as [Hready2 Ebb].
  { intros p. now rewrite Jk2, Jk1. }
  { now rewrite Au2, Au1. }
  { intros m Hm. apply elem_of_cons in Hm as [->|Hm];
      [|apply elem_of_cons in Hm as [->|Hm]; [|now apply elem_of_nil in Hm]].
    - split; [exact Hm1|]. eexists. split; [exact L1|]. simpl. set_solver.
    - split; [exact Hm2|]. eexists. split; [exact L2|]. simpl. set_solver. }
  destruct (Dsp_process_block bk _ n h2 Hready2)
    as (h' & E & _ & _ & _ & _ & _ & Hout).
  exists h1, h2, h'. repeat (split; [assumption|]).
  intros i x Hi Ex.
  pose proof (proj2 (Hout o i (list_elem_of_here o []) Hi)) as Emix.
  rewrite Emix. simpl matrix_points.
  rewrite (filter_cons_True (targets h2 o)) by (unfold targets; now rewrite L1).
  rewrite (filter_cons_True (targets h2 o)) by (unfold targets; now rewrite L2).
  rewrite filter_nil. unfold mix. cbn [foldl].
  assert (Ex2 : block_sample h2 (backend_buffer bk n h2 a) i = Some x).
  { rewrite Ebb. unfold block_sample in *. now rewrite Au2, Au1. }
  rewrite (add_contribution_eval h2 _ i F32.zero m1 _ x L1 Ex2).
  now rewrite (add_contribution_eval h2 _ i _ m2 _ x L2 Ex2).
Qed.

Lemma double_connection_sums_witness :
  exists h2 h',
    points h2 !! 60%N = Some (mkMatrixPoint (mkCountUsers 0) 1%N 2%N Studio.one) /\
    points h2 !! 61%N = Some (mkMatrixPoint (mkCountUsers 0) 1%N 2%N Studio.two) /\
    Dsp_process Studio.backend (mkDsp [1%N] [2%N] [60%N; 61%N]) 4 h2 = Ok (tt, h') /\
    port_sample h' 2%N 0 = Some StudioMix.three.
Proof.
  assert (Hready : block_ready Studio.backend (mkDsp [1%N] [2%N] []) 4 Studio.idle).
  { constructor.
    - intros p Hp. studio_member Hp.
      all: split; [discriminate|].
      all: eexists; eexists; split; [vm_compute; reflexivity|].
      all: split; [discriminate|]; split; [vm_compute; reflexivity|simpl; lia].
    - intros m Hm. simpl in Hm. now apply elem_of_nil in Hm.
    - intros o p Ho Hp. studio_member Ho. studio_member Hp.
      vm_compute; discriminate.
    - intros o1 o2 H1 H2. studio_member H1. studio_member H2. reflexivity. }
  destruct (double_connection_sums Studio.backend 1%N 2%N 60%N 61%N
              Studio.one Studio.two 4 Studio.idle Hready)
    as (h1 & h2 & h' & _ & _ & L1 & L2 & E & Hout); try discriminate; try reflexivity.
  exists h2, h'. split; [exact L1|]. split; [exact L2|]. split; [exact E|].
  rewrite (Hout 0 Studio.one); [vm_compute; reflexivity|lia|vm_compute; reflexivity].
Defined.

(** ** [setGain] against a running [process] *)

Lemma same_but_gains_refl h : same_but_gains h h.
Proof. repeat split; reflexivity. Qed.

Lemma same_but_gains_sym h1 h2 : same_but_gains h1 h2 -> same_but_gains h2 h1.
Proof.
  intros (Hp & Ha & Hc & Hn). repeat split; try congruence.
  - symmetry. apply (Hn p).
  - symmetry. apply (Hn p).
Qed.

Lemma same_but_gains_trans h1 h2 h3 :
  same_but_gains h1 h2 -> same_but_gains h2 h3 -> same_but_gains h1 h3.
Proof.
  intros (Hp & Ha & Hc & Hn) (Hp' & Ha' & Hc' & Hn'). repeat split; try congruence.
  - rewrite (proj1 (Hn p)). apply (Hn' p).
  - rewrite (proj2 (Hn p)). apply (Hn' p).
Qed.

Lemma store_inv b i v h h' :
  store b i v h = Ok (tt, h') ->
  b <> nullptr /\ exists buf, audio h !! b = Some buf /\ i < length buf /\
  h' = with_block b (<[i := v]> buf) h.
Proof.
  unfold store. destruct (N.eqb_spec b nullptr) as [|Hb]; [discriminate|].
  destruct (audio h !! b) as [buf|]; [|discriminate].
  destruct (Nat.ltb_spec i (length buf)) as [Hi|]; [|discriminate].
  intros [= <-]. split; [exact Hb|]. exists buf. auto.
Qed.

Lemma load_inv b i x h h' :
  load b i h = Ok (x, h') ->
  h' = h /\ b <> nullptr /\ exists buf, audio h !! b = Some buf /\ buf !! i = Some x.
Proof.
  unfold load. destruct (N.eqb_spec b nullptr) as [|Hb]; [discriminate|].
  destruct (audio h !! b) as [buf|]; [|discriminate].
  destruct (buf !! i) as [y|] eqn:Ey; [|discriminate].
  intros [= <- <-]. split; [reflexivity|]. split; [exact Hb|]. exists buf. auto.
Qed.

Lemma accumulate_sample_rel gain bi bo i h1 h2 h1' :
  same_but_gains h1 h2 ->
  accumulate_sample gain bi bo i h1 = Ok (tt, h1') ->
  exists h2', accumulate_sample gain bi bo i h2 = Ok (tt, h2') /\
              same_but_gains h1' h2' /\
              points h1' = points h1 /\ points h2' = points h2.
Proof.
  intros (Hp & Ha & Hc & Hn) E. unfold accumulate_sample in *.
  apply bind_inv in E as (x & hx & Ex & E).
  apply load_inv in Ex as (-> & Hbi & bufx & Ebx & Ex).
  apply bind_inv in E as (y & hy & Ey & E).
  apply load_inv in Ey as (-> & Hbo & bufy & Eby & Ey).
  apply store_inv in E as (_ & buf & Eb & Hi & ->).
  rewrite Ha in Ebx, Eby, Eb.
  rewrite (bind_Ok _ _ _ _ _ (load_Ok bi bufx i x h2 Hbi Ebx Ex)).
  rewrite (bind_Ok _ _ _ _ _ (load_Ok bo bufy i y h2 Hbo Eby Ey)).
  rewrite (store_Ok bo buf i _ h2 Hbo Eb Hi).
  eexists. split; [reflexivity|]. split; [|split; reflexivity].
  unfold same_but_gains. simpl. rewrite Hp, Ha, Hc. auto.
Qed.

Lemma for_range_accumulate_rel gain bi bo : forall count from h1 h2 h1',
  same_but_gains h1 h2 ->
  for_range from count (accumulate_sample gain bi bo) h1 = Ok (tt, h1') ->
  exists h2', for_range from count (accumulate_sample gain bi bo) h2 = Ok (tt, h2') /\
              same_but_gains h1' h2'.
Proof.
  induction count as [|count IH]; intros from h1 h2 h1' Hrel E; simpl in *.
  - injection E as <-. exists h2. split; [reflexivity|exact Hrel].
  - apply bind_inv in E as ([] & ha & Ea & E).
    destruct (accumulate_sample_rel _ _ _ _ _ _ _ Hrel Ea) as (hb & Eb & Hrel' & _ & _).
    destruct (IH _ _ _ _ Hrel' E) as (h2' & E2 & Hrel2).
    exists h2'. split; [|exact Hrel2]. now rewrite (bind_Ok _ _ _ _ _ Eb).
Qed.

Lemma deref_point_rel this m1 h1 h1' h2 :
  same_but_gains h1 h2 ->
  deref_point this h1 = Ok (m1, h1') ->
  h1' = h1 /\
  exists m2, deref_point this h2 = Ok (m2, h2) /\
             input_ m2 = input_ m1 /\ output_ m2 = output_ m1.
Proof.
  intros (_ & _ & _ & Hn) E. apply deref_point_inv in E as (Ht & Em & ->).
  split; [reflexivity|]. destruct (Hn this) as [Hi Ho]. rewrite Em in Hi, Ho.
  destruct (points h2 !! this) as [m2|] eqn:E2; [|discriminate].
  exists m2. simpl in *. split; [now apply deref_point_Ok|]. split; congruence.
Qed.

Lemma Port_buffer_rel p b h1 h1' h2 :
  ports h1 = ports h2 ->
  Port_buffer p h1 = Ok (b, h1') ->
  h1' = h1 /\ Port_buffer p h2 = Ok (b, h2).
Proof.
  intros Hp E. pose proof (Port_buffer_heap _ _ _ _ E) as ->.
  split; [reflexivity|]. unfold Port_buffer in *.
  apply bind_inv in E as (P & h0 & E0 & E).
  apply deref_port_inv in E0 as (Hpn & EP & ->). rewrite Hp in EP.
  rewrite (bind_Ok _ _ _ _ _ (deref_port_Ok _ _ _ Hpn EP)).
  unfold bind, assert in *.
  destruct (negb (buffer_ P =? nullptr)%N); [|discriminate].
  simpl in *. unfold ret in *. congruence.
Qed.

Lemma same_but_gains_record c h1 h2 :
  same_but_gains h1 h2 -> same_but_gains (record_call c h1) (record_call c h2).
Proof.
  intros (Hp & Ha & Hc & Hn). unfold same_but_gains. simpl. rewrite Hp, Ha, Hc. auto.
Qed.

Lemma remainder_rel this n gain s h1 h2 h1' :
  same_but_gains h1 h2 ->
  remainder this n gain s h1 = Ok (tt, h1') ->
  exists h2', remainder this n gain s h2 = Ok (tt, h2') /\ same_but_gains h1' h2'.
Proof.
  assert (Hloop : forall bi bo h1 h2 h1',
            same_but_gains h1 h2 ->
            (let* m := deref_point this in
             for_range 0 n (accumulate_sample gain bi bo)) h1 = Ok (tt, h1') ->
            exists h2',
              (let* m := deref_point this in
               for_range 0 n (accumulate_sample gain bi bo)) h2 = Ok (tt, h2') /\
              same_but_gains h1' h2').
  { clear. intros bi bo h1 h2 h1' Hrel E.
    apply bind_inv in E as (m & h0 & Em & E).
    destruct (deref_point_rel _ _ _ _ _ Hrel Em) as (-> & m2 & Em2 & _).
    destruct (for_range_accumulate_rel _ _ _ _ _ _ _ _ Hrel E) as (h2' & E2 & Hrel2).
    exists h2'. split; [|exact Hrel2]. now rewrite (bind_Ok _ _ _ _ _ Em2). }
  assert (Hout : forall bi h1 h2 h1',
            same_but_gains h1 h2 ->
            (let* m := deref_point this in
             let* bo := Port_buffer (output_ m) in
             let* m := deref_point this in
             for_range 0 n (accumulate_sample gain bi bo)) h1 = Ok (tt, h1') ->
            exists h2',
              (let* m := deref_point this in
               let* bo := Port_buffer (output_ m) in
               let* m := deref_point this in
               for_range 0 n (accumulate_sample gain bi bo)) h2 = Ok (tt, h2') /\
              same_but_gains h1' h2').
  { clear - Hloop. intros bi h1 h2 h1' Hrel E.
    apply bind_inv in E as (m & h0 & Em & E).
    destruct (deref_point_rel _ _ _ _ _ Hrel Em) as (-> & m2 & Em2 & _ & Eo).
    apply bind_inv in E as (bo & h0 & Ebo & E).
    destruct (Port_buffer_rel _ _ _ _ _ (proj1 Hrel) Ebo) as (-> & Ebo2).
    destruct (Hloop _ _ _ _ _ Hrel E) as (h2' & E2 & Hrel2).
    exists h2'. split; [|exact Hrel2].
    rewrite (bind_Ok _ _ _ _ _ Em2). rewrite Eo.
    now rewrite (bind_Ok _ _ _ _ _ Ebo2). }
  intros Hrel E. destruct s as [|bi|bi bo|bi bo g i|]; simpl in *.
  - apply bind_inv in E as ([] & hr & Er & E). unfold modify in Er. injection Er as <-.
    pose proof (same_but_gains_record (CallProcess this n) _ _ Hrel) as Hrel'.
    apply bind_inv in E as (m & h0 & Em & E).
    destruct (deref_point_rel _ _ _ _ _ Hrel' Em) as (-> & m2 & Em2 & Ei & _).
    apply bind_inv in E as (bi & h0 & Ebi & E).
    destruct (Port_buffer_rel _ _ _ _ _ (proj1 Hrel') Ebi) as (-> & Ebi2).
    destruct (Hout _ _ _ _ Hrel' E) as (h2' & E2 & Hrel2).
    exists h2'. split; [|exact Hrel2].
    unfold bind at 1. unfold modify at 1.
    rewrite (bind_Ok _ _ _ _ _ Em2). rewrite Ei.
    now rewrite (bind_Ok _ _ _ _ _ Ebi2).
  - exact (Hout _ _ _ _ Hrel E).
  - exact (Hloop _ _ _ _ _ Hrel E).
  - exact (for_range_accumulate_rel _ _ _ _ _ _ _ _ Hrel E).
  - injection E as <-. exists h2. split; [reflexivity|exact Hrel].
Qed.

Lemma MatrixPoint_setGain_inv this gain h h' :
  MatrixPoint_setGain this gain h = Ok (tt, h') ->
  this <> nullptr /\ exists m, points h !! this = Some m /\
  h' = set_points (insert this (with_gain gain m)) h.
Proof.
  unfold MatrixPoint_setGain. intros E.
  apply bind_inv in E as (m & h0 & Em & E).
  apply deref_point_inv in Em as (Ht & Em & ->).
  unfold modify in E. injection E as <-. eauto.
Qed.

Lemma MatrixPoint_setGain_rel this gain h h' :
  MatrixPoint_setGain this gain h = Ok (tt, h') ->
  same_but_gains h' h /\ gain_at this h' = gain.
Proof.
  intros E. apply MatrixPoint_setGain_inv in E as (Ht & m & Em & ->).
  split.
  - unfold same_but_gains. simpl. repeat split; try reflexivity.
    + destruct (decide (this = p)) as [<-|Hne].
      * now rewrite lookup_insert_eq, Em.
      * now rewrite lookup_insert_ne by exact Hne.
    + destruct (decide (this = p)) as [<-|Hne].
      * now rewrite lookup_insert_eq, Em.
      * now rewrite lookup_insert_ne by exact Hne.
  - unfold gain_at. simpl. now rewrite lookup_insert_eq.
Qed.

Lemma accumulate_sample_points gain bi bo i h h' :
  accumulate_sample gain bi bo i h = Ok (tt, h') -> points h' = points h.
Proof.
  intros E.
  destruct (accumulate_sample_rel _ _ _ _ _ h _ (same_but_gains_refl h) E)
    as (_ & _ & _ & Hp & _).
  exact Hp.
Qed.

(** A step of the thread leaves [gain_] alone and does not change what is
    left to do; the step that reads [gain_] fixes the gain of the rest. *)
Lemma process_step_remainder this n s h s1 h1 :
  process_step this n s h = Ok (s1, h1) ->
  gain_at this h1 = gain_at this h /\
  forall gain,
    remainder this n
      (match s with HasBuffers _ _ => gain_at this h | _ => gain end) s h
    = remainder this n gain s1 h1.
Proof.
  intros E. destruct s as [|bi|bi bo|bi bo g i|]; simpl in E.
  - apply bind_inv in E as ([] & hr & Er & E). unfold modify in Er. injection Er as <-.
    apply bind_inv in E as (m & h0 & Em & E).
    pose proof (deref_point_inv _ _ _ _ Em) as (_ & _ & ->).
    apply bind_inv in E as (bi & h0 & Ebi & E).
    pose proof (Port_buffer_heap _ _ _ _ Ebi) as ->.
    injection E as <- <-. split; [reflexivity|]. intros gain. simpl.
    unfold bind at 1. unfold modify at 1.
    rewrite (bind_Ok _ _ _ _ _ Em), (bind_Ok _ _ _ _ _ Ebi). reflexivity.
  - apply bind_inv in E as (m & h0 & Em & E).
    pose proof (deref_point_inv _ _ _ _ Em) as (_ & _ & ->).
    apply bind_inv in E as (bo & h0 & Ebo & E).
    pose proof (Port_buffer_heap _ _ _ _ Ebo) as ->.
    injection E as <- <-. split; [reflexivity|]. intros gain. simpl.
    rewrite (bind_Ok _ _ _ _ _ Em), (bind_Ok _ _ _ _ _ Ebo). reflexivity.
  - apply bind_inv in E as (m & h0 & Em & E).
    pose proof (deref_point_inv _ _ _ _ Em) as (_ & Elive & ->).
    injection E as <- <-. split; [reflexivity|]. intros gain. simpl.
    rewrite (bind_Ok _ _ _ _ _ Em).
    unfold gain_at. rewrite Elive, Nat.sub_0_r. reflexivity.
  - destruct (Nat.ltb_spec i n) as [Hi|Hi].
    + apply bind_inv in E as ([] & ha & Ea & E). injection E as <- <-.
      split.
      * unfold gain_at. now rewrite (accumulate_sample_points _ _ _ _ _ _ Ea).
      * intros gain. simpl.
        replace (n - i) with (S (n - S i)) by lia. simpl.
        now rewrite (bind_Ok _ _ _ _ _ Ea).
    + injection E as <- <-. split; [reflexivity|]. intros gain. simpl.
      replace (n - i) with 0 by lia. reflexivity.
  - injection E as <- <-. split; [reflexivity|]. intros gain. reflexivity.
Qed.

(** Whatever the control thread does in between, a call that returns has
    done what an undisturbed call does with one value of the gain, and that
    value is the one [gain_] held at entry or one written since. *)
Lemma interleave_remainder this n : forall schedule s h h',
  interleave this n schedule s h = Ok (Returned, h') ->
  exists gain h'',
    In gain (gain_at this h :: gains_of schedule) /\
    remainder this n gain s h = Ok (tt, h'') /\
    same_but_gains h'' h'.
Proof.
  induction schedule as [|[|g0] rest IH]; intros s h h' E; simpl in E.
  - injection E as -> <-. exists (gain_at this h), h.
    split; [now left|]. split; [reflexivity|apply same_but_gains_refl].
  - apply bind_inv in E as (s1 & h1 & Estep & E).
    destruct (IH _ _ _ E) as (g1 & h'' & Hin & Erem & Hrel).
    destruct (process_step_remainder _ _ _ _ _ _ Estep) as [Egain Hrem].
    rewrite Egain in Hin. specialize (Hrem g1). rewrite Erem in Hrem.
    destruct s; simpl gains_of;
      try (exists g1, h''; split; [exact Hin|split; [exact Hrem|exact Hrel]]).
    exists (gain_at this h), h''. split; [now left|]. split; [exact Hrem|exact Hrel].
  - apply bind_inv in E as ([] & h1 & Eset & E).
    destruct (IH _ _ _ E) as (g1 & h1'' & Hin & Erem & Hrel).
    destruct (MatrixPoint_setGain_rel _ _ _ _ Eset) as [Hrel1 Egain].
    rewrite Egain in Hin.
    destruct (remainder_rel _ _ _ _ _ _ _ Hrel1 Erem) as (h'' & Erem' & Hrel').
    exists g1, h''. split; [now right|]. split; [exact Erem'|].
    apply (same_but_gains_trans _ h1''); [now apply same_but_gains_sym|exact Hrel].
Qed.

(** [MatrixPoint::process] is the undisturbed run from the entry, with the
    gain its node holds. *)
Lemma process_is_remainder this n h :
  MatrixPoint_process this n h = remainder this n (gain_at this h) AtEntry h.
Proof.
  unfold MatrixPoint_process, remainder.
  unfold bind at 1 7. unfold modify.
  set (hr := record_call (CallProcess this n) h).
  assert (Eg : gain_at this h = gain_at this hr) by reflexivity. rewrite Eg.
  generalize hr. clear. intros h.
  unfold bind at 1 6.
  destruct (deref_point this h) as [[m h0]|f] eqn:Em; [|reflexivity].
  pose proof (deref_point_inv _ _ _ _ Em) as (_ & Elive & ->).
  unfold bind at 1 5.
  destruct (Port_buffer (input_ m) h) as [[bi h0]|f] eqn:Ebi; [|reflexivity].
  pose proof (Port_buffer_heap _ _ _ _ Ebi) as ->.
  rewrite !(bind_Ok _ _ _ _ _ Em).
  unfold bind at 1 3.
  destruct (Port_buffer (output_ m) h) as [[bo h0]|f] eqn:Ebo; [|reflexivity].
  pose proof (Port_buffer_heap _ _ _ _ Ebo) as ->.
  rewrite !(bind_Ok _ _ _ _ _ Em).
  unfold gain_at. now rewrite Elive.
Qed.

(** Once in the loop, a thread stays in the loop with the same local
    [gain] and the same two buffers, or has returned. *)
Lemma loop_gain_fixed this n bi bo gain : forall schedule i h s' h',
  interleave this n schedule (InLoop bi bo gain i) h = Ok (s', h') ->
  s' = Returned \/ exists j, i <= j /\ s' = InLoop bi bo gain j.
Proof.
  assert (Hret : forall schedule h s' h',
            interleave this n schedule Returned h = Ok (s', h') -> s' = Returned).
  { induction schedule as [|[|g0] rest IH]; intros h s' h' E; simpl in E.
    - now injection E as <- _.
    - apply bind_inv in E as (s1 & h1 & Estep & E). simpl in Estep.
      injection Estep as <- <-. exact (IH _ _ _ E).
    - apply bind_inv in E as ([] & h1 & _ & E). exact (IH _ _ _ E). }
  induction schedule as [|[|g0] rest IH]; intros i h s' h' E; simpl in E.
  - injection E as <- _. right. exists i. auto.
  - apply bind_inv in E as (s1 & h1 & Estep & E). simpl in Estep.
    destruct (i <? n).
    + apply bind_inv in Estep as ([] & ha & _ & Estep). injection Estep as <- <-.
      destruct (IH _ _ _ _ E) as [->|(j & Hj & ->)]; [now left|].
      right. exists j. split; [lia|reflexivity].
    + injection Estep as <- <-. left. exact (Hret _ _ _ _ E).
  - apply bind_inv in E as ([] & h1 & _ & E). exact (IH _ _ _ _ E).
Qed.

Lemma process_step_progress this n gain s h h' :
  remainder this n gain s h = Ok (tt, h') -> s <> Returned ->
  exists s1 h1, process_step this n s h = Ok (s1, h1) /\
                steps_left n s1 < steps_left n s.
Proof.
  intros E Hs. destruct s as [|bi|bi bo|bi bo g i|]; simpl in E; [| | | |congruence].
  - apply bind_inv in E as ([] & hr & Er & E). unfold modify in Er. injection Er as <-.
    apply bind_inv in E as (m & h0 & Em & E).
    apply bind_inv in E as (bi & h1 & Ebi & _).
    exists (HasInBuffer bi), h1. split; [|simpl; lia]. simpl.
    unfold bind at 1. unfold modify at 1.
    now rewrite (bind_Ok _ _ _ _ _ Em), (bind_Ok _ _ _ _ _ Ebi).
  - apply bind_inv in E as (m & h0 & Em & E).
    apply bind_inv in E as (bo & h1 & Ebo & _).
    exists (HasBuffers bi bo), h1. split; [|simpl; lia]. simpl.
    now rewrite (bind_Ok _ _ _ _ _ Em), (bind_Ok _ _ _ _ _ Ebo).
  - apply bind_inv in E as (m & h0 & Em & _).
    exists (InLoop bi bo (gain_ m) 0), h0. split; [|simpl; lia]. simpl.
    now rewrite (bind_Ok _ _ _ _ _ Em).
  - simpl. destruct (Nat.ltb_spec i n) as [Hi|Hi].
    + replace (n - i) with (S (n - S i)) in E by lia. simpl in E.
      apply bind_inv in E as ([] & ha & Ea & _).
      exists (InLoop bi bo g (S i)), ha. split; [|simpl; lia].
      now rewrite (bind_Ok _ _ _ _ _ Ea).
    + exists Returned, h. split; [reflexivity|simpl; lia].
Qed.

(** With the control thread silent, the step machine does what
    [MatrixPoint::process] does. *)
Lemma undisturbed_interleave this n : forall k s h h',
  steps_left n s <= k ->
  remainder this n (gain_at this h) s h = Ok (tt, h') ->
  interleave this n (repeat Step k) s h = Ok (Returned, h').
Proof.
  induction k as [|k IH]; intros s h h' Hk E.
  - destruct s; simpl in Hk; try lia. simpl in *. now injection E as <-.
  - assert (Hdec : s = Returned \/ s <> Returned)
      by (destruct s; (now left) || (right; discriminate)).
    destruct Hdec as [->|Hs].
    + simpl. unfold bind at 1. simpl. apply IH; [simpl; lia|exact E].
    + destruct (process_step_progress _ _ _ _ _ _ E Hs) as (s1 & h1 & Estep & Hlt).
      destruct (process_step_remainder _ _ _ _ _ _ Estep) as [Egain Hrem].
      simpl. rewrite (bind_Ok _ _ _ _ _ Estep). apply IH; [lia|].
      rewrite <- (Hrem (gain_at this h1)), Egain.
      destruct s; exact E.
Qed.

(** C5. Take any interleaving of one call of [process] with completed
    [setGain] calls on the same node.  If the call returns, the samples it
    leaves are those of an undisturbed call made with a single gain, which
    is the value [gain_] held at entry or one written during the call.  The
    gain is read in one step, the one that enters the loop, and from then
    on the thread multiplies every sample by that same local value,
    whatever is written to [gain_] in the meantime.  (With no [setGain] in
    between, the steps add up to [MatrixPoint::process] itself.) *)
Theorem gain_is_one_snapshot_per_block
    (this : addr) (n : nat) (schedule : list action) (h h' : Heap) :
  interleave this n schedule AtEntry h = Ok (Returned, h') ->
  (exists gain hg h'',
     In gain (gain_at this h :: gains_of schedule) /\
     MatrixPoint_setGain this gain h = Ok (tt, hg) /\
     MatrixPoint_process this n hg = Ok (tt, h'') /\
     audio h' = audio h'' /\ ports h' = ports h'' /\ calls h' = calls h'') /\
  (forall bi bo h0 s1 h1,
     process_step this n (HasBuffers bi bo) h0 = Ok (s1, h1) ->
     s1 = InLoop bi bo (gain_at this h0) 0 /\ h1 = h0) /\
  (forall rest bi bo gain i h0 s1 h1,
     interleave this n rest (InLoop bi bo gain i) h0 = Ok (s1, h1) ->
     s1 = Returned \/ exists j, i <= j /\ s1 = InLoop bi bo gain j) /\
  (forall h0 h1,
     MatrixPoint_process this n h0 = Ok (tt, h1) ->
     interleave this n (repeat Step (n + 4)) AtEntry h0 = Ok (Returned, h1)).
Proof.
  intros E. split; [|split; [|split]].
  - destruct (interleave_remainder this n schedule AtEntry h h' E)
      as (gain & h'' & Hin & Erem & Hrel).
    assert (Hlive : this <> nullptr /\ exists m, points h !! this = Some m).
    { simpl in Erem. apply bind_inv in Erem as ([] & hr & Er & Erem).
      unfold modify in Er. injection Er as <-.
      apply bind_inv in Erem as (m & h0 & Em & _).
      apply deref_point_inv in Em as (Ht & Em & _). eauto. }
    destruct Hlive as (Ht & m & Em).
    assert (Eset : MatrixPoint_setGain this gain h
                   = Ok (tt, set_points (insert this (with_gain gain m)) h)).
    { unfold MatrixPoint_setGain.
      now rewrite (bind_Ok _ _ _ _ _ (deref_point_Ok _ _ _ Ht Em)). }
    destruct (MatrixPoint_setGain_rel _ _ _ _ Eset) as [Hrelg Egain].
    destruct (remainder_rel _ _ _ _ _ _ _ (same_but_gains_sym _ _ Hrelg) Erem)
      as (hg'' & Eremg & Hrel').
    exists gain, (set_points (insert this (with_gain gain m)) h), hg''.
    split; [exact Hin|]. split; [exact Eset|]. split.
    + rewrite process_is_remainder, Egain. exact Eremg.
    + destruct Hrel as (Hp & Ha & Hc & _), Hrel' as (Hp' & Ha' & Hc' & _).
      repeat split; congruence.
  - intros bi bo h0 s1 h1 Estep. simpl in Estep.
    apply bind_inv in Estep as (m & h2 & Em & Estep).
    apply deref_point_inv in Em as (_ & Em & ->).
    injection Estep as <- <-. unfold gain_at. now rewrite Em.
  - intros rest bi bo gain i h0 s1 h1. apply loop_gain_fixed.
  - intros h0 h1 Eproc. rewrite process_is_remainder in Eproc.
    apply undisturbed_interleave; [reflexivity|exact Eproc].
Qed.

Lemma gain_is_one_snapshot_per_block_witness :
  interleave 50%N 4 StudioLive.schedule AtEntry StudioLive.playing
    = Ok (Returned, StudioLive.finished) /\
  gain_at 50%N StudioLive.finished = Studio.one /\
  audio StudioLive.playing !! 200%N = Some (repeat Studio.two 4) /\
  audio StudioLive.finished !! 200%N = Some (repeat (F32.of_scaled 5 (-1)) 4) /\
  (exists hg h'',
     MatrixPoint_setGain 50%N Studio.half StudioLive.playing = Ok (tt, hg) /\
     MatrixPoint_process 50%N 4 hg = Ok (tt, h'') /\
     audio StudioLive.finished = audio h'') /\
  (exists h1,
     interleave 50%N 4 (repeat Step 8) AtEntry StudioLive.playing = Ok (Returned, h1) /\
     MatrixPoint_process 50%N 4 StudioLive.playing = Ok (tt, h1)).
Proof.
  assert (E : interleave 50%N 4 StudioLive.schedule AtEntry StudioLive.playing
              = Ok (Returned, StudioLive.finished)) by (vm_compute; reflexivity).
  split; [exact E|]. split; [vm_compute; reflexivity|].
  split; [vm_compute; reflexivity|]. split; [vm_compute; reflexivity|].
  destruct (gain_is_one_snapshot_per_block _ _ _ _ _ E)
    as ((gain & hg & h'' & Hin & Eset & Eproc & Ea & _) & _ & _ & Hquiet).
  split.
  - pose (hh := Studio.after (MatrixPoint_setGain 50%N Studio.half) StudioLive.playing).
    exists hh, (Studio.after (MatrixPoint_process 50%N 4) hh).
    split; [vm_compute; reflexivity|]. split; vm_compute; reflexivity.
  - pose (h1 := Studio.after (MatrixPoint_process 50%N 4) StudioLive.playing).
    assert (E1 : MatrixPoint_process 50%N 4 StudioLive.playing = Ok (tt, h1))
      by (vm_compute; reflexivity).
    exists h1. split; [exact (Hquiet _ _ E1)|exact E1].
Defined.

(** ** [unrefAll] *)


(** ** The scenarios of the specification, run on the model *)

(** One input at 1.0, one node of gain 2.0, block size 4. *)
Example scenario_single_node :
  audio (Studio.after (Dsp_process Studio.backend Studio.dsp 4) Studio.wired) !! 200%N
  = Some [Studio.two; Studio.two; Studio.two; Studio.two].
Proof. vm_compute. reflexivity. Qed.

(** Inputs at 1.0 and 0.5 through gains 1.0 and 2.0, block size 1: the
    first sample is 2.0 and the rest of the output block is left alone. *)
Example scenario_two_inputs :
  let h := Studio.after
             (MatrixPoint_new 50%N 1%N 2%N Studio.one >>
              MatrixPoint_new 51%N 3%N 2%N Studio.two >>
              Dsp_process Studio.backend (mkDsp [1%N; 3%N] [2%N] [50%N; 51%N]) 1)
             Studio.idle in
  audio h !! 200%N = Some [Studio.two; Studio.two; Studio.half; Studio.two].
Proof. vm_compute. reflexivity. Qed.

(** A block of size 0 touches no sample, even through null pointers. *)
Example scenario_empty_block :
  OutputPort_resetBuffer 2%N 0 Studio.idle
  = Ok (tt, record_call (CallResetBuffer 2%N 0) Studio.idle).
Proof. reflexivity. Qed.

(** * Beyond the specification: what else the code guarantees *)

(** ** [CountUsers]: one increment against one decrement *)

(** X1. [decrementUsers] undoes [incrementUsers] on every counter below
    [UINT_MAX].  At [UINT_MAX] the increment wraps to zero: [hasUsers]
    answers false although the object has just gained a user, and the
    decrement that should undo the increment trips the assertion. *)
Theorem increment_then_decrement (c : CountUsers) :
  counter_in_range c ->
  ((users_count_ c < UINT_MAX)%Z ->
     CountUsers_hasUsers (CountUsers_incrementUsers c) = true /\
     CountUsers_decrementUsers (CountUsers_incrementUsers c) = Ok c) /\
  (users_count_ c = UINT_MAX ->
     CountUsers_hasUsers (CountUsers_incrementUsers c) = false /\
     CountUsers_decrementUsers (CountUsers_incrementUsers c) = Fault AssertionFailed).
Proof.
  unfold counter_in_range, UINT_MAX. rewrite UINT_RANGE_eq.
  destruct c as [n]. cbn [users_count_]. intros Hn. split.
  - intros Hlt.
    unfold CountUsers_hasUsers, CountUsers_decrementUsers, CountUsers_incrementUsers.
    cbn [users_count_]. rewrite UINT_RANGE_eq.
    rewrite (Z.mod_small (n + 1)) by lia.
    destruct (Z.eqb_spec (n + 1) 0) as [E|_]; [lia|].
    split; [reflexivity|]. f_equal. f_equal.
    rewrite Z.mod_small by lia. lia.
  - intros ->.
    unfold CountUsers_hasUsers, CountUsers_decrementUsers, CountUsers_incrementUsers.
    cbn [users_count_]. rewrite UINT_RANGE_eq. split; reflexivity.
Qed.

Lemma increment_then_decrement_witness :
  CountUsers_decrementUsers (CountUsers_incrementUsers (mkCountUsers 7))
    = Ok (mkCountUsers 7) /\
  CountUsers_decrementUsers (CountUsers_incrementUsers StudioEdge.saturated)
    = Fault AssertionFailed.
Proof.
  split.
  - refine (proj2 (proj1 (increment_then_decrement (mkCountUsers 7) _) _)).
    + unfold counter_in_range. rewrite UINT_RANGE_eq. simpl. lia.
    + unfold UINT_MAX. rewrite UINT_RANGE_eq. simpl. lia.
  - refine (proj2 (proj2 (increment_then_decrement StudioEdge.saturated _) _)).
    + unfold counter_in_range. rewrite UINT_RANGE_eq. simpl. lia.
    + reflexivity.
Defined.

(** ** [OutputPort::resetBuffer] *)

Lemma for_range_split body : forall a b from h,
  for_range from (a + b) body h
  = (for_range from a body >> for_range (from + a) b body) h.
Proof.
  induction a as [|a IH]; intros b from h; simpl.
  - now rewrite Nat.add_0_r.
  - unfold bind in *. destruct (body from h) as [[[] h1]|f]; [|reflexivity].
    rewrite IH. now replace (from + S a) with (S from + a) by lia.
Qed.

Lemma silence_is_replicate n buf :
  n <= length buf ->
  map_range silenced 0 n buf = replicate n F32.zero ++ drop n buf.
Proof.
  intros Hn. apply list_eq. intros i. rewrite map_range_lookup.
  destruct (decide (i < n)) as [Hi|Hi].
  - rewrite lookup_app_l by (rewrite length_replicate; exact Hi).
    rewrite lookup_replicate_2 by exact Hi.
    destruct (lookup_lt_is_Some_2 buf i) as [y Ey]; [lia|]. rewrite Ey. simpl.
    now rewrite bool_decide_eq_true_2 by lia.
  - rewrite lookup_app_r by (rewrite length_replicate; lia).
    rewrite length_replicate, lookup_drop.
    replace (n + (i - n)) with i by lia.
    destruct (buf !! i) as [y|]; [simpl|reflexivity].
    now rewrite bool_decide_eq_false_2 by lia.
Qed.

Lemma store_range_Ok b v buf h0 : forall count from,
  b <> nullptr -> from + count <= length buf ->
  for_range from count (fun i => store b i v) (with_block b buf h0)
  = Ok (tt, with_block b (map_range (fun _ _ => v) from count buf) h0).
Proof.
  intros count from Hb Hle.
  apply (for_range_map_range b (fun _ _ => v) _ (length buf) h0); [|exact Hle|lia].
  intros i buf' y Hi Ey.
  erewrite store_Ok; [|exact Hb|simpl; apply lookup_insert_eq|].
  - now rewrite with_block_twice.
  - apply lookup_lt_Some in Ey. exact Ey.
Qed.

(** X2. What [resetBuffer(nframes)] does, case by case.  With [nframes = 0]
    it touches no memory, whatever [buffer_] is.  With a block of at least
    [nframes] samples behind [buffer_] it zeroes the first [nframes] samples
    and leaves the rest of the block, and its length, alone.  It carries no
    assertion: a null [buffer_] is dereferenced, and a block shorter than
    [nframes] is overrun. *)
Theorem resetBuffer_cases (this : addr) (p : Port) (n : nat) (h : Heap) :
  this <> nullptr -> ports h !! this = Some p ->
  (n = 0 ->
     OutputPort_resetBuffer this n h
     = Ok (tt, record_call (CallResetBuffer this n) h)) /\
  (0 < n -> buffer_ p = nullptr ->
     OutputPort_resetBuffer this n h = Fault NullDereference) /\
  (forall buf,
     buffer_ p <> nullptr -> audio h !! buffer_ p = Some buf ->
     OutputPort_resetBuffer this n h
     = if decide (n <= length buf)
       then Ok (tt, with_block (buffer_ p) (replicate n F32.zero ++ drop n buf)
                      (record_call (CallResetBuffer this n) h))
       else Fault InvalidAccess).
Proof.
  intros Ht Ep.
  assert (Eunfold : OutputPort_resetBuffer this n h
            = for_range 0 n (fun i => store (buffer_ p) i F32.zero)
                (record_call (CallResetBuffer this n) h)).
  { unfold OutputPort_resetBuffer. unfold bind at 1. unfold modify at 1.
    erewrite bind_Ok; [reflexivity|]. apply deref_port_Ok; [exact Ht|exact Ep]. }
  rewrite Eunfold. split; [|split].
  - intros ->. reflexivity.
  - intros Hn Enull. destruct n as [|n]; [lia|]. simpl.
    unfold bind, store. now rewrite Enull.
  - intros buf Hb Ebuf.
    set (h0 := record_call (CallResetBuffer this n) h).
    assert (Eh0 : h0 = with_block (buffer_ p) buf h0)
      by (symmetry; apply with_block_same; exact Ebuf).
    destruct (decide (n <= length buf)) as [Hn|Hn].
    + rewrite Eh0 at 1. rewrite store_range_Ok by (assumption || lia).
      now rewrite <- silence_is_replicate by exact Hn.
    + replace n with (length buf + S (n - length buf - 1)) by lia.
      rewrite for_range_split. rewrite Eh0 at 1.
      erewrite bind_Ok; [|apply store_range_Ok; [exact Hb|lia]].
      simpl. unfold bind, store.
      destruct (N.eqb_spec (buffer_ p) nullptr) as [|_]; [contradiction|].
      simpl. rewrite lookup_insert_eq, map_range_length.
      now rewrite Nat.ltb_irrefl.
Qed.

Lemma resetBuffer_cases_witness :
  OutputPort_resetBuffer 2%N 0 Studio.idle
    = Ok (tt, record_call (CallResetBuffer 2%N 0) Studio.idle) /\
  OutputPort_resetBuffer 2%N 4 Studio.idle = Fault NullDereference /\
  audio (Studio.after (OutputPort_resetBuffer 2%N 3) StudioLive.playing) !! 200%N
    = Some [F32.zero; F32.zero; F32.zero; Studio.two] /\
  OutputPort_resetBuffer 2%N 5 StudioLive.playing = Fault InvalidAccess.
Proof.
  assert (Ht : 2%N <> nullptr) by discriminate.
  destruct (resetBuffer_cases 2%N (mkPort (mkCountUsers 0) 20%N "O" nullptr) 0
              Studio.idle Ht eq_refl) as (Hzero & _ & _).
  destruct (resetBuffer_cases 2%N (mkPort (mkCountUsers 0) 20%N "O" nullptr) 4
              Studio.idle Ht eq_refl) as (_ & Hnull & _).
  assert (Ep : ports StudioLive.playing !! 2%N
               = Some (mkPort (mkCountUsers 1) 20%N "O" 200%N))
    by (vm_compute; reflexivity).
  assert (Eb : audio StudioLive.playing !! 200%N
               = Some [Studio.two; Studio.two; Studio.two; Studio.two])
    by (vm_compute; reflexivity).
  destruct (resetBuffer_cases 2%N _ 3 StudioLive.playing Ht Ep) as (_ & _ & H3).
  destruct (resetBuffer_cases 2%N _ 5 StudioLive.playing Ht Ep) as (_ & _ & H5).
  split; [exact (Hzero eq_refl)|]. split; [apply Hnull; [lia|reflexivity]|]. split.
  - unfold Studio.after. rewrite (H3 _ ltac:(discriminate) Eb). simpl.
    now rewrite lookup_insert_eq.
  - rewrite (H5 _ ltac:(discriminate) Eb). reflexivity.
Defined.

(** ** What a block leaves alone *)

Lemma block_frame_refl h : block_frame h h.
Proof. repeat split; reflexivity. Qed.

Lemma block_frame_trans h1 h2 h3 :
  block_frame h1 h2 -> block_frame h2 h3 -> block_frame h1 h3.
Proof.
  intros (P1 & C1 & Q1 & A1) (P2 & C2 & Q2 & A2).
  split; [congruence|]. split; [congruence|]. split.
  - intros p. now rewrite Q2, Q1.
  - intros b. now rewrite A2, A1.
Qed.

Lemma store_frame b i v h h' :
  store b i v h = Ok (tt, h') ->
  block_frame h h' /\ ports h' = ports h /\ calls h' = calls h.
Proof.
  intros E. apply store_inv in E as (Hb & buf & Eb & Hi & ->).
  split; [|split; reflexivity].
  split; [reflexivity|]. split; [reflexivity|]. split; [reflexivity|].
  intros b'. simpl. destruct (decide (b = b')) as [<-|Hne].
  - rewrite lookup_insert_eq, Eb. simpl. now rewrite length_insert.
  - now rewrite lookup_insert_ne by exact Hne.
Qed.

Lemma for_range_frame body :
  (forall i h h', body i h = Ok (tt, h') -> block_frame h h' /\ ports h' = ports h) ->
  forall count from h h',
    for_range from count body h = Ok (tt, h') ->
    block_frame h h' /\ ports h' = ports h.
Proof.
  intros Hbody. induction count as [|count IH]; intros from h h' E; simpl in E.
  - injection E as <-. split; [apply block_frame_refl|reflexivity].
  - apply bind_inv in E as ([] & h1 & E1 & E2).
    destruct (Hbody _ _ _ E1) as [F1 P1]. destruct (IH _ _ _ E2) as [F2 P2].
    split; [exact (block_frame_trans _ _ _ F1 F2)|congruence].
Qed.

Lemma block_frame_record c h : block_frame h (record_call c h).
Proof. repeat split; reflexivity. Qed.

Lemma accumulate_sample_frame gain bi bo i h h' :
  accumulate_sample gain bi bo i h = Ok (tt, h') ->
  block_frame h h' /\ ports h' = ports h.
Proof.
  unfold accumulate_sample. intros E.
  apply bind_inv in E as (x & hx & Ex & E). apply load_inv in Ex as (-> & _).
  apply bind_inv in E as (y & hy & Ey & E). apply load_inv in Ey as (-> & _).
  destruct (store_frame _ _ _ _ _ E) as (F & P & _). auto.
Qed.

Lemma OutputPort_resetBuffer_frame this n h h' :
  OutputPort_resetBuffer this n h = Ok (tt, h') ->
  block_frame h h' /\ ports h' = ports h.
Proof.
  unfold OutputPort_resetBuffer. intros E.
  apply bind_inv in E as ([] & h1 & E1 & E). unfold modify in E1. injection E1 as <-.
  apply bind_inv in E as (P & h2 & E2 & E). apply deref_port_inv in E2 as (_ & _ & ->).
  apply for_range_frame in E.
  - destruct E as [F Pq]. split; [|exact Pq].
    exact (block_frame_trans _ _ _ (block_frame_record _ h) F).
  - intros i h1 h2 Es. destruct (store_frame _ _ _ _ _ Es) as (F & Pq & _). auto.
Qed.

Lemma MatrixPoint_process_frame this n h h' :
  MatrixPoint_process this n h = Ok (tt, h') ->
  block_frame h h' /\ ports h' = ports h.
Proof.
  unfold MatrixPoint_process. intros E.
  apply bind_inv in E as ([] & h1 & E1 & E). unfold modify in E1. injection E1 as <-.
  apply bind_inv in E as (m & h2 & E2 & E). apply deref_point_inv in E2 as (_ & _ & ->).
  apply bind_inv in E as (bi & h3 & E3 & E). apply Port_buffer_heap in E3 as ->.
  apply bind_inv in E as (m1 & h4 & E4 & E). apply deref_point_inv in E4 as (_ & _ & ->).
  apply bind_inv in E as (bo & h5 & E5 & E). apply Port_buffer_heap in E5 as ->.
  apply bind_inv in E as (m2 & h6 & E6 & E). apply deref_point_inv in E6 as (_ & _ & ->).
  apply for_range_frame in E.
  - destruct E as [F Pq]. split; [|exact Pq].
    exact (block_frame_trans _ _ _ (block_frame_record _ h) F).
  - intros i h1 h2. apply accumulate_sample_frame.
Qed.

Lemma Port_updateBufferAddress_inv bk this n h h' :
  Port_updateBufferAddress bk this n h = Ok (tt, h') ->
  this <> nullptr /\ exists P, ports h !! this = Some P /\
  h' = set_ports (insert this
         (with_buffer (jack_port_get_buffer bk (jack_port_ P) n) P))
         (record_call (CallUpdateBufferAddress this n) h).
Proof.
  unfold Port_updateBufferAddress. intros E.
  apply bind_inv in E as ([] & h1 & E1 & E). unfold modify in E1. injection E1 as <-.
  apply bind_inv in E as (P & h2 & E2 & E).
  apply deref_port_inv in E2 as (Ht & EP & ->).
  unfold modify in E. injection E as <-. eauto.
Qed.

Lemma Port_updateBufferAddress_frame bk this n h h' :
  Port_updateBufferAddress bk this n h = Ok (tt, h') ->
  block_frame h h' /\ audio h' = audio h /\
  forall p, p <> this -> ports h' !! p = ports h !! p.
Proof.
  intros E. apply Port_updateBufferAddress_inv in E as (Ht & P & EP & ->).
  split; [|split].
  - split; [reflexivity|]. split; [reflexivity|]. split; [|reflexivity].
    intros p. simpl. destruct (decide (this = p)) as [<-|Hne].
    + now rewrite lookup_insert_eq, EP.
    + now rewrite lookup_insert_ne by exact Hne.
  - reflexivity.
  - intros p Hne. simpl. now rewrite lookup_insert_ne by congruence.
Qed.

(** A traversal whose steps keep to the frame, and change no port outside
    the vector, does so as a whole. *)
Lemma for_each_frame (body : addr -> M unit) :
  (forall x h h', body x h = Ok (tt, h') ->
     block_frame h h' /\ forall p, p <> x -> ports h' !! p = ports h !! p) ->
  forall l h h',
    for_each l body h = Ok (tt, h') ->
    block_frame h h' /\ forall p, p ∉ l -> ports h' !! p = ports h !! p.
Proof.
  intros Hbody. induction l as [|x l IH]; intros h h' E; simpl in E.
  - injection E as <-. split; [apply block_frame_refl|reflexivity].
  - apply bind_inv in E as ([] & h1 & E1 & E2).
    destruct (Hbody _ _ _ E1) as [F1 P1]. destruct (IH _ _ E2) as [F2 P2].
    split; [exact (block_frame_trans _ _ _ F1 F2)|].
    intros p Hp. rewrite P2 by (intros Hl; apply Hp; now right).
    apply P1. intros ->. apply Hp. now left.
Qed.

Lemma Dsp_process_phases bk d n h h' :
  Dsp_process bk d n h = Ok (tt, h') ->
  exists h2,
    block_frame h h2 /\
    (forall p, p ∉ inputs d ++ outputs d -> ports h2 !! p = ports h !! p) /\
    for_each (matrix_points d) (fun point => MatrixPoint_process point n) h2
      = Ok (tt, h') /\
    block_frame h2 h' /\ ports h' = ports h2.
Proof.
  unfold Dsp_process. intros E.
  apply bind_inv in E as ([] & h1 & E1 & E).
  apply bind_inv in E as ([] & h2 & E2 & E3).
  apply for_each_frame in E1; cycle 1.
  { intros x h0 h0' Ex.
    destruct (Port_updateBufferAddress_frame _ _ _ _ _ Ex) as (F & _ & P). auto. }
  apply for_each_frame in E2; cycle 1.
  { intros x h0 h0' Ex. apply bind_inv in Ex as ([] & hm & Ea & Eb).
    destruct (Port_updateBufferAddress_frame _ _ _ _ _ Ea) as (Fa & _ & Pa).
    destruct (OutputPort_resetBuffer_frame _ _ _ _ Eb) as (Fb & Pb).
    split; [exact (block_frame_trans _ _ _ Fa Fb)|].
    intros p Hp. rewrite Pb. now apply Pa. }
  destruct E1 as [F1 P1], E2 as [F2 P2].
  exists h2. split; [exact (block_frame_trans _ _ _ F1 F2)|]. split.
  { intros p Hp. rewrite P2, P1; [reflexivity| |];
      intros Hin; apply Hp; apply elem_of_app; auto. }
  split; [exact E3|].
  pose proof E3 as E3'. apply for_each_frame in E3'; cycle 1.
  { intros x h0 h0' Ex. destruct (MatrixPoint_process_frame _ _ _ _ Ex) as [F P].
    split; [exact F|]. intros p _. now rewrite P. }
  destruct E3' as [F3 _]. split; [exact F3|].
  clear - E3. revert h2 E3.
  induction (matrix_points d) as [|x l IH]; intros h2 E; simpl in E.
  - now injection E as <-.
  - apply bind_inv in E as ([] & h1 & E1 & E2).
    rewrite (IH _ E2). exact (proj2 (MatrixPoint_process_frame _ _ _ _ E1)).
Qed.

Lemma zero_frames_audio body :
  forall from h h', for_range from 0 body h = Ok (tt, h') -> h' = h.
Proof. intros from h h' E. simpl in E. now injection E as <-. Qed.

Lemma for_each_audio {A} (body : A -> M unit) :
  (forall x h h', body x h = Ok (tt, h') -> audio h' = audio h) ->
  forall l h h', for_each l body h = Ok (tt, h') -> audio h' = audio h.
Proof.
  intros Hbody. induction l as [|x l IH]; intros h h' E; simpl in E.
  - now injection E as <-.
  - apply bind_inv in E as ([] & h1 & E1 & E2).
    rewrite (IH _ _ E2). exact (Hbody _ _ _ E1).
Qed.

(** X3. Whenever [Dsp::process] returns, it has changed nothing but cached
    buffer pointers and sample values: every usage counter, name and JACK
    token of every port, every gain node (references and gain), the text on
    [std::cerr] and the length of every audio block are as before, and a
    port that is in neither [inputs] nor [outputs] is not touched at all.
    With [nframes = 0] no sample is changed either. *)
Theorem process_changes_buffers_only
    (bk : Backend) (d : Dsp) (n : nat) (h h' : Heap) :
  Dsp_process bk d n h = Ok (tt, h') ->
  points h' = points h /\
  cerr h' = cerr h /\
  (forall p, forget_buffer <$> ports h' !! p = forget_buffer <$> ports h !! p) /\
  (forall p, p ∉ inputs d ++ outputs d -> ports h' !! p = ports h !! p) /\
  (forall b, length <$> audio h' !! b = length <$> audio h !! b) /\
  (n = 0 -> audio h' = audio h).
Proof.
  intros E.
  destruct (Dsp_process_phases _ _ _ _ _ E) as (h2 & F2 & P2 & _ & F3 & P3).
  destruct (block_frame_trans _ _ _ F2 F3) as (Hpt & Hce & Hpo & Hau).
  split; [exact Hpt|]. split; [exact Hce|]. split; [exact Hpo|]. split.
  { intros p Hp. rewrite P3. exact (P2 p Hp). }
  split; [exact Hau|].
  intros ->. unfold Dsp_process in E.
  apply bind_inv in E as ([] & h1 & E1 & E).
  apply bind_inv in E as ([] & h3 & E2 & E3).
  apply for_each_audio in E1; cycle 1.
  { intros x h0 h0' Ex.
    exact (proj1 (proj2 (Port_updateBufferAddress_frame _ _ _ _ _ Ex))). }
  apply for_each_audio in E2; cycle 1.
  { intros x h0 h0' Ex. apply bind_inv in Ex as ([] & hm & Ea & Eb).
    rewrite <- (proj1 (proj2 (Port_updateBufferAddress_frame _ _ _ _ _ Ea))).
    unfold OutputPort_resetBuffer in Eb.
    apply bind_inv in Eb as ([] & hr & Er & Eb). unfold modify in Er. injection Er as <-.
    apply bind_inv in Eb as (P & hq & Eq & Eb). apply deref_port_inv in Eq as (_ & _ & ->).
    apply zero_frames_audio in Eb. now subst h0'. }
  apply for_each_audio in E3; cycle 1.
  { intros x h0 h0' Ex. unfold MatrixPoint_process in Ex.
    apply bind_inv in Ex as ([] & hr & Er & Ex). unfold modify in Er. injection Er as <-.
    apply bind_inv in Ex as (m & hq & Eq & Ex). apply deref_point_inv in Eq as (_ & _ & ->).
    apply bind_inv in Ex as (bi & hq & Eq & Ex). apply Port_buffer_heap in Eq as ->.
    apply bind_inv in Ex as (m1 & hq & Eq & Ex). apply deref_point_inv in Eq as (_ & _ & ->).
    apply bind_inv in Ex as (bo & hq & Eq & Ex). apply Port_buffer_heap in Eq as ->.
    apply bind_inv in Ex as (m2 & hq & Eq & Ex). apply deref_point_inv in Eq as (_ & _ & ->).
    apply zero_frames_audio in Ex. now subst h0'. }
  congruence.
Qed.

Lemma process_changes_buffers_only_witness :
  exists h',
    Dsp_process Studio.backend Studio.dsp2 4 Studio.wired2 = Ok (tt, h') /\
    points h' = points Studio.wired2 /\ cerr h' = cerr Studio.wired2 /\
    name_ <$> ports h' !! 3%N = Some "B"%string.
Proof.
  pose (h' := Studio.after (Dsp_process Studio.backend Studio.dsp2 4) Studio.wired2).
  assert (E : Dsp_process Studio.backend Studio.dsp2 4 Studio.wired2 = Ok (tt, h'))
    by (vm_compute; reflexivity).
  destruct (process_changes_buffers_only _ _ _ _ _ E) as (Hpt & Hce & Hpo & _).
  exists h'. split; [exact E|]. split; [exact Hpt|]. split; [exact Hce|].
  vm_compute. reflexivity.
Defined.

(** ** Pointers left behind in [matrix_points] *)

Lemma for_each_member (body : addr -> M unit) (x : addr) :
  (forall y h1 h2, body y h1 = Ok (tt, h2) -> points h2 = points h1) ->
  forall l h h',
    for_each l body h = Ok (tt, h') -> x ∈ l ->
    exists h1 h2, points h1 = points h /\ body x h1 = Ok (tt, h2).
Proof.
  intros Hbody. induction l as [|y l IH]; intros h h' E Hx; simpl in E.
  - now apply elem_of_nil in Hx.
  - apply bind_inv in E as ([] & h1 & E1 & E2).
    apply elem_of_cons in Hx as [->|Hx].
    + exists h, h1. split; [reflexivity|exact E1].
    + destruct (IH _ _ E2 Hx) as (ha & hb & Hp & Eb).
      exists ha, hb. split; [|exact Eb]. rewrite Hp. exact (Hbody _ _ _ E1).
Qed.

Lemma unusable_node_process x n h h1 h2 :
  unusable_node h x -> points h1 = points h ->
  MatrixPoint_process x n h1 = Ok (tt, h2) -> False.
Proof.
  intros Hx Hp E. unfold MatrixPoint_process in E.
  apply bind_inv in E as ([] & hr & Er & E). unfold modify in Er. injection Er as <-.
  apply bind_inv in E as (m & ha & Em & E).
  apply deref_point_inv in Em as (Hnn & Em & ->). simpl in Em. rewrite Hp in Em.
  destruct Hx as [->|Hx]; [congruence|]. rewrite Em in Hx.
  apply bind_inv in E as (bi & hb & Ebi & E).
  pose proof (Port_buffer_heap _ _ _ _ Ebi) as ->.
  unfold Port_buffer in Ebi. apply bind_inv in Ebi as (P & hc & EP & _).
  apply deref_port_inv in EP as (Hi & _).
  destruct Hx as [Hx|Hx]; [congruence|].
  apply bind_inv in E as (m1 & hd & Em1 & E).
  apply deref_point_inv in Em1 as (_ & Em1 & ->). simpl in Em1. rewrite Hp in Em1.
  assert (m1 = m) by congruence. subst m1.
  apply bind_inv in E as (bo & he & Ebo & _).
  unfold Port_buffer in Ebo. apply bind_inv in Ebo as (Q & hf & EQ & _).
  apply deref_port_inv in EQ as (Ho & _). congruence.
Qed.

Lemma unusable_node_stops bk d n x h :
  x ∈ matrix_points d -> unusable_node h x ->
  exists f, Dsp_process bk d n h = Fault f.
Proof.
  intros Hx Hu. destruct (Dsp_process bk d n h) as [[[] h']|f] eqn:E; [|eauto].
  exfalso. destruct (Dsp_process_phases _ _ _ _ _ E) as (h2 & F2 & _ & E3 & _).
  destruct (for_each_member (fun point => MatrixPoint_process point n) x) with
    (l := matrix_points d) (h := h2) (h' := h') as (h1 & h3 & Hp & Ex);
    [|exact E3|exact Hx|].
  - intros y ha hb Ey. cbv beta in Ey.
    destruct (MatrixPoint_process_frame y n ha hb Ey) as [[Hpt _] _]. exact Hpt.
  - apply (unusable_node_process x n h h1 h3 Hu); [|exact Ex].
    rewrite Hp. exact (proj1 F2).
Qed.

(** X4. Neither the destructor nor the move constructor of [MatrixPoint]
    takes the old address out of [Dsp::matrix_points].  A graph that still
    lists a destroyed node, a moved-from node, or a null pointer, cannot
    complete a block: [Dsp::process] faults. *)
Theorem stale_node_stops_the_block
    (bk : Backend) (d : Dsp) (n : nat) (x : addr) (h : Heap) :
  x ∈ matrix_points d ->
  (unusable_node h x -> exists f, Dsp_process bk d n h = Fault f) /\
  (forall h0, MatrixPoint_delete x h0 = Ok (tt, h) ->
     exists f, Dsp_process bk d n h = Fault f) /\
  (forall y h0, MatrixPoint_move y x h0 = Ok (tt, h) ->
     exists f, Dsp_process bk d n h = Fault f).
Proof.
  intros Hx. split; [|split].
  - exact (unusable_node_stops bk d n x h Hx).
  - intros h0 E. apply (unusable_node_stops bk d n x h Hx). right.
    unfold MatrixPoint_delete in E.
    apply bind_inv in E as (m & h1 & E1 & E).
    apply bind_inv in E as ([] & h2 & _ & E).
    apply bind_inv in E as ([] & h3 & _ & E).
    unfold modify in E. injection E as <-. simpl.
    now rewrite lookup_delete_eq.
  - intros y h0 E. apply (unusable_node_stops bk d n x h Hx). right.
    apply MatrixPoint_move_inv in E as (src & _ & _ & _ & _ & ->). simpl.
    rewrite lookup_insert_eq. simpl. now left.
Qed.

Lemma stale_node_stops_the_block_witness :
  MatrixPoint_delete 50%N StudioLive.playing = Ok (tt, StudioStale.disconnected) /\
  Dsp_process Studio.backend Studio.dsp 4 StudioStale.disconnected
    = Fault InvalidAccess /\
  Dsp_process Studio.backend Studio.dsp 4 StudioEdge.moved = Fault NullDereference.
Proof.
  assert (Hx : 50%N ∈ matrix_points Studio.dsp) by (simpl; set_solver).
  assert (Ed : MatrixPoint_delete 50%N StudioLive.playing
               = Ok (tt, StudioStale.disconnected)) by (vm_compute; reflexivity).
  assert (Em : MatrixPoint_move 52%N 50%N StudioLive.playing
               = Ok (tt, StudioEdge.moved)) by (vm_compute; reflexivity).
  destruct (stale_node_stops_the_block Studio.backend Studio.dsp 4 50%N
              StudioStale.disconnected Hx) as (_ & Hdel & _).
  destruct (stale_node_stops_the_block Studio.backend Studio.dsp 4 50%N
              StudioEdge.moved Hx) as (_ & _ & Hmov).
  destruct (Hdel _ Ed) as [f Ef]. destruct (Hmov _ _ Em) as [g Eg].
  split; [exact Ed|]. split; vm_compute; reflexivity.
Defined.

(** ** Outputs depend on the inputs of the block only *)

Lemma process_changes_buffers_frame bk d n h h' :
  Dsp_process bk d n h = Ok (tt, h') -> block_frame h h'.
Proof.
  intros E. destruct (Dsp_process_phases _ _ _ _ _ E) as (h2 & F2 & _ & _ & F3 & _).
  exact (block_frame_trans _ _ _ F2 F3).
Qed.



Lemma block_frame_jack h h' :
  block_frame h h' ->
  forall p, jack_port_ <$> ports h' !! p = jack_port_ <$> ports h !! p.
Proof.
  intros (_ & _ & Hpo & _) p. specialize (Hpo p).
  destruct (ports h' !! p) as [P'|], (ports h !! p) as [P|];
    simpl in *; try discriminate; [|reflexivity].
  now injection Hpo as _ -> _.
Qed.

Lemma backend_buffer_jack bk n h h' :
  (forall p, jack_port_ <$> ports h' !! p = jack_port_ <$> ports h !! p) ->
  forall p, backend_buffer bk n h' p = backend_buffer bk n h p.
Proof.
  intros Hjack p. unfold backend_buffer. specialize (Hjack p).
  destruct (ports h' !! p) as [P'|], (ports h !! p) as [P|];
    simpl in Hjack; try discriminate; [|reflexivity].
  now injection Hjack as ->.
Qed.

(** A ready graph is still ready after anything that keeps to the frame
    of a block. *)
Lemma block_ready_frame bk d n h h' :
  block_ready bk d n h -> block_frame h h' -> block_ready bk d n h'.
Proof.
  intros [Hports Hpoints Hio Hoo] F.
  pose proof (block_frame_jack _ _ F) as Hjack.
  pose proof (backend_buffer_jack bk n _ _ Hjack) as Ebb.
  destruct F as (Hpt & _ & _ & Hau). constructor.
  - intros p Hp. destruct (Hports p Hp) as (Hpn & P & buf & EP & Hb & Ebuf & Hn).
    split; [exact Hpn|]. specialize (Hjack p). rewrite EP in Hjack. simpl in Hjack.
    destruct (ports h' !! p) as [P'|]; [|discriminate].
    injection Hjack as Hjack.
    specialize (Hau (jack_port_get_buffer bk (jack_port_ P) n)).
    rewrite Ebuf in Hau. simpl in Hau.
    destruct (audio h' !! jack_port_get_buffer bk (jack_port_ P) n) as [buf'|] eqn:Eb';
      [|discriminate].
    injection Hau as Hau. exists P', buf'. rewrite Hjack, Eb', Hau. auto.
  - intros m Hm. rewrite Hpt. exact (Hpoints m Hm).
  - intros o p Ho Hp. rewrite !Ebb. exact (Hio o p Ho Hp).
  - intros o1 o2 H1 H2. rewrite !Ebb. exact (Hoo o1 o2 H1 H2).
Qed.

Lemma outputs_from_inputs bk d n h g :
  block_ready bk d n h -> block_ready bk d n g ->
  points g = points h ->
  (forall p, jack_port_ <$> ports g !! p = jack_port_ <$> ports h !! p) ->
  (forall p i, p ∈ inputs d ->
     block_sample g (backend_buffer bk n g p) i
     = block_sample h (backend_buffer bk n h p) i) ->
  exists h' g',
    Dsp_process bk d n h = Ok (tt, h') /\
    Dsp_process bk d n g = Ok (tt, g') /\
    forall o i, o ∈ outputs d -> i < n -> port_sample g' o i = port_sample h' o i.
Proof.
  intros Hh Hg Hpt Hjack Hin.
  pose proof (backend_buffer_jack bk n _ _ Hjack) as Ebb.
  destruct (Dsp_process_block bk d n h Hh) as (h' & Eh & _ & _ & _ & _ & _ & Houth).
  destruct (Dsp_process_block bk d n g Hg) as (g' & Eg & _ & _ & _ & _ & _ & Houtg).
  exists h', g'. split; [exact Eh|]. split; [exact Eg|].
  intros o i Ho Hi.
  rewrite (proj2 (Houtg o i Ho Hi)), (proj2 (Houth o i Ho Hi)).
  rewrite (filter_targets_frame h g o (matrix_points d) Hpt).
  rewrite (mix_locate g (backend_buffer bk n g) (backend_buffer bk n h) i)
    by (intros; apply Ebb).
  apply mix_frame; [exact Hpt|].
  intros m mp Hm Em. apply list_elem_of_filter in Hm as [_ Hm].
  destruct (ready_points _ _ _ _ Hh m Hm) as (_ & mp' & Em' & Hmin & _).
  assert (mp' = mp) by congruence. subst mp'.
  rewrite <- (Ebb (input_ mp)) at 1. exact (Hin _ i Hmin).
Qed.

(** X5. What a block puts into the outputs is decided by the gain nodes and
    by the input samples alone.  Two stores that hold the same gain nodes
    and ports and the same input samples give the same output samples,
    whatever their output blocks held before; in particular, processing a
    second block over the same inputs repeats the outputs of the first:
    nothing accumulates from block to block. *)
Theorem outputs_ignore_old_contents
    (bk : Backend) (d : Dsp) (n : nat) (h : Heap) :
  block_ready bk d n h ->
  (forall g,
     block_ready bk d n g -> points g = points h ->
     (forall p, jack_port_ <$> ports g !! p = jack_port_ <$> ports h !! p) ->
     (forall p i, p ∈ inputs d ->
        block_sample g (backend_buffer bk n g p) i
        = block_sample h (backend_buffer bk n h p) i) ->
     exists h' g',
       Dsp_process bk d n h = Ok (tt, h') /\
       Dsp_process bk d n g = Ok (tt, g') /\
       forall o i, o ∈ outputs d -> i < n ->
         port_sample g' o i = port_sample h' o i) /\
  (exists h1 h2,
     Dsp_process bk d n h = Ok (tt, h1) /\
     Dsp_process bk d n h1 = Ok (tt, h2) /\
     forall o i, o ∈ outputs d -> i < n ->
       port_sample h2 o i = port_sample h1 o i).
Proof.
  intros Hready. split.
  - intros g Hg Hpt Hjack Hin. now apply outputs_from_inputs.
  - destruct (Dsp_process_block bk d n h Hready)
      as (h1 & E1 & _ & _ & _ & Hcached & Hinput & _).
    pose proof (process_changes_buffers_frame bk d n h h1 E1) as F.
    pose proof (block_ready_frame bk d n h h1 Hready F) as Hready1.
    pose proof (block_frame_jack _ _ F) as Hjack.
    pose proof (backend_buffer_jack bk n _ _ Hjack) as Ebb.
    destruct (outputs_from_inputs bk d n h h1 Hready Hready1 (proj1 F) Hjack)
      as (h1' & h2 & E1' & E2 & Hsame).
    + intros p i Hp. rewrite Ebb. rewrite <- (Hinput p i Hp).
      unfold port_sample. rewrite Hcached by (apply elem_of_app; now left).
      reflexivity.
    + assert (h1' = h1) by congruence. subst h1'.
      exists h1, h2. auto.
Qed.

Lemma outputs_ignore_old_contents_witness :
  exists h1 h2,
    Dsp_process Studio.backend Studio.dsp2 4 Studio.wired2 = Ok (tt, h1) /\
    Dsp_process Studio.backend Studio.dsp2 4 h1 = Ok (tt, h2) /\
    port_sample h1 2%N 0 = Some StudioMix.three /\
    port_sample h2 2%N 0 = Some StudioMix.three.
Proof.
  destruct (outputs_ignore_old_contents Studio.backend Studio.dsp2 4 Studio.wired2
              studio_ready) as [_ (h1 & h2 & E1 & E2 & Hsame)].
  exists h1, h2. split; [exact E1|]. split; [exact E2|].
  assert (E : port_sample h1 2%N 0 = Some StudioMix.three).
  { assert (E0 : Dsp_process Studio.backend Studio.dsp2 4 Studio.wired2
                 = Ok (tt, Studio.after (Dsp_process Studio.backend Studio.dsp2 4)
                             Studio.wired2)) by (vm_compute; reflexivity).
    rewrite E1 in E0. injection E0 as ->. vm_compute. reflexivity. }
  split; [exact E|]. rewrite (Hsame 2%N 0); [exact E|simpl; set_solver|lia].
Defined.

(** ** Counting users over a vector of pointers *)

Lemma occurrences_nonneg l p : (0 <= occurrences l p)%Z.
Proof.
  induction l as [|q l IH]; simpl; [lia|].
  unfold points_at. destruct (decide (q = p)); lia.
Qed.

Lemma occurrences_cons q l p :
  occurrences (q :: l) p = (points_at q p + occurrences l p)%Z.
Proof. reflexivity. Qed.

Lemma occurrences_app l1 l2 p :
  occurrences (l1 ++ l2) p = (occurrences l1 p + occurrences l2 p)%Z.
Proof. induction l1 as [|q l1 IH]; simpl; [reflexivity|]. rewrite IH. lia. Qed.

Lemma occurrences_member l p : p ∈ l -> (1 <= occurrences l p)%Z.
Proof.
  induction l as [|q l IH]; intros Hp; [now apply elem_of_nil in Hp|].
  simpl. pose proof (occurrences_nonneg l p).
  apply elem_of_cons in Hp as [->|Hp].
  - unfold points_at. rewrite decide_True by reflexivity. lia.
  - specialize (IH Hp). unfold points_at. destruct (decide (q = p)); lia.
Qed.

Lemma bind_assoc {A B C} (a : M A) (b : M B) (c : M C) h :
  ((a >> b) >> c) h = (a >> b >> c) h.
Proof.
  unfold bind. destruct (a h) as [[x h1]|f]; [|reflexivity]. reflexivity.
Qed.

Lemma bind_ret_r (a : M unit) h : (a >> ret tt) h = a h.
Proof. unfold bind, ret. now destruct (a h) as [[[] h1]|f]. Qed.

(** The two families of counted objects, ports and gain nodes, share the
    argument: [get] is where they live, [count] and [set_count] read and
    write the counter, [inc] and [dec] are the inherited member functions,
    and [aside] says what those leave alone. *)
Section CountedObjects.
Context {T : Type}.
Variable get : Heap -> gmap N T.
Variable count : T -> Z.
Variable set_count : Z -> T -> T.
Variables inc dec : addr -> M unit.
Variable aside : Heap -> Heap -> Prop.

Hypothesis aside_refl : forall h, aside h h.
Hypothesis aside_trans : forall h1 h2 h3, aside h1 h2 -> aside h2 h3 -> aside h1 h3.
Hypothesis set_count_same : forall x, set_count (count x) x = x.
Hypothesis set_count_twice : forall a b x, set_count a (set_count b x) = set_count a x.
Hypothesis count_set_count : forall a x, count (set_count a x) = a.
Hypothesis inc_spec : forall q x h,
  q <> nullptr -> get h !! q = Some x ->
  exists h', inc q h = Ok (tt, h') /\
    get h' = <[q := set_count ((count x + 1) mod UINT_RANGE) x]> (get h) /\
    aside h h' /\ cerr h' = cerr h ++ [PlusPlus q].
Hypothesis dec_spec : forall q x h,
  q <> nullptr -> get h !! q = Some x -> count x <> 0%Z ->
  exists h', dec q h = Ok (tt, h') /\
    get h' = <[q := set_count ((count x - 1) mod UINT_RANGE) x]> (get h) /\
    aside h h' /\ cerr h' = cerr h ++ [MinusMinus q].

Lemma shifted_ext s s' h0 h :
  (forall p, s p = s' p) -> shifted get count set_count s h0 h -> shifted get count set_count s' h0 h.
Proof using Type.
  intros Hs H p. rewrite (H p). destruct (get h0 !! p); [simpl|reflexivity].
  now rewrite Hs.
Qed.

Lemma shifted_start h0 :
  (forall p x, get h0 !! p = Some x -> (0 <= count x < UINT_RANGE)%Z) ->
  shifted get count set_count (fun _ => 0%Z) h0 h0.
Proof using set_count_same.
  intros Hr p. destruct (get h0 !! p) as [x|] eqn:E; [simpl|reflexivity].
  rewrite Z.add_0_r, Z.mod_small by exact (Hr p x E). now rewrite set_count_same.
Qed.

Lemma shifted_back h0 h :
  (forall p x, get h0 !! p = Some x -> (0 <= count x < UINT_RANGE)%Z) ->
  shifted get count set_count (fun _ => 0%Z) h0 h -> get h = get h0.
Proof using set_count_same.
  intros Hr H. apply map_eq. intros p. rewrite (H p).
  destruct (get h0 !! p) as [x|] eqn:E; [simpl|reflexivity].
  rewrite Z.add_0_r, Z.mod_small by exact (Hr p x E). now rewrite set_count_same.
Qed.

Lemma shifted_get s h0 h h' : get h' = get h -> shifted get count set_count s h0 h -> shifted get count set_count s h0 h'.
Proof using Type. intros E H p. rewrite E. apply H. Qed.

Lemma increment_all : forall l s h0 h,
  shifted get count set_count s h0 h ->
  (forall q, q ∈ l -> q <> nullptr /\ is_Some (get h0 !! q)) ->
  exists h',
    for_each l inc h = Ok (tt, h') /\
    shifted get count set_count (fun p => (s p + occurrences l p)%Z) h0 h' /\
    aside h h' /\ cerr h' = cerr h ++ map PlusPlus l.
Proof using aside_refl aside_trans set_count_twice count_set_count inc_spec.
  induction l as [|q l IH]; intros s h0 h Hs Hl.
  - exists h. simpl. rewrite app_nil_r. split; [reflexivity|]. split; [|auto].
    apply (shifted_ext s); [intros p; lia|exact Hs].
  - destruct (Hl q ltac:(left)) as (Hq & x & Ex).
    pose proof (Hs q) as Eq. rewrite Ex in Eq. simpl in Eq.
    destruct (inc_spec q _ h Hq Eq) as (h1 & E1 & G1 & A1 & C1).
    rewrite count_set_count, set_count_twice, Zplus_mod_idemp_l in G1.
    destruct (IH (fun p => (s p + points_at q p)%Z) h0 h1) as (h' & E & Hs' & A & C).
    + intros p. rewrite G1. unfold points_at.
      destruct (decide (q = p)) as [<-|Hne].
      * rewrite lookup_insert_eq, Ex. simpl.
        now replace (count x + (s q + 1))%Z with (count x + s q + 1)%Z by lia.
      * rewrite lookup_insert_ne by exact Hne. rewrite (Hs p).
        destruct (get h0 !! p); [simpl|reflexivity]. now rewrite Z.add_0_r.
    + intros p Hp. apply Hl. now right.
    + exists h'. split; [simpl; now rewrite (bind_Ok _ _ _ _ _ E1)|]. split.
      * eapply shifted_ext; [|exact Hs'].
        intros p. cbv beta. rewrite occurrences_cons. lia.
      * split; [exact (aside_trans _ _ _ A1 A)|].
        rewrite C, C1. simpl. now rewrite <- app_assoc.
Qed.

Lemma decrement_all : forall l s h0 h,
  shifted get count set_count s h0 h ->
  (forall q, q ∈ l ->
     q <> nullptr /\
     exists x, get h0 !! q = Some x /\
       (0 <= count x + s q - occurrences l q)%Z /\
       (count x + s q < UINT_RANGE)%Z) ->
  exists h',
    for_each l dec h = Ok (tt, h') /\
    shifted get count set_count (fun p => (s p - occurrences l p)%Z) h0 h' /\
    aside h h' /\ cerr h' = cerr h ++ map MinusMinus l.
Proof using aside_refl aside_trans set_count_twice count_set_count dec_spec.
  induction l as [|q l IH]; intros s h0 h Hs Hl.
  - exists h. simpl. rewrite app_nil_r. split; [reflexivity|]. split; [|auto].
    apply (shifted_ext s); [intros p; lia|exact Hs].
  - destruct (Hl q ltac:(left)) as (Hq & x & Ex & Hlow & Hhigh).
    pose proof (occurrences_member (q :: l) q ltac:(left)) as Hocc.
    pose proof (Hs q) as Eq. rewrite Ex in Eq. simpl in Eq.
    destruct (dec_spec q _ h Hq Eq) as (h1 & E1 & G1 & A1 & C1).
    { rewrite count_set_count, Z.mod_small by lia. lia. }
    rewrite count_set_count, set_count_twice, Zminus_mod_idemp_l in G1.
    destruct (IH (fun p => (s p - points_at q p)%Z) h0 h1) as (h' & E & Hs' & A & C).
    + intros p. rewrite G1. unfold points_at.
      destruct (decide (q = p)) as [<-|Hne].
      * rewrite lookup_insert_eq, Ex. simpl.
        now replace (count x + (s q - 1))%Z with (count x + s q - 1)%Z by lia.
      * rewrite lookup_insert_ne by exact Hne. rewrite (Hs p).
        destruct (get h0 !! p); [simpl|reflexivity]. now rewrite Z.sub_0_r.
    + intros p Hp. destruct (Hl p ltac:(now right)) as (Hpn & y & Ey & Hl' & Hh').
      split; [exact Hpn|]. exists y. split; [exact Ey|].
      rewrite occurrences_cons in Hl'. pose proof (occurrences_nonneg [q] p) as Hq0.
      rewrite occurrences_cons in Hq0. simpl in Hq0. split; lia.
    + exists h'. split; [simpl; now rewrite (bind_Ok _ _ _ _ _ E1)|]. split.
      * eapply shifted_ext; [|exact Hs'].
        intros p. cbv beta. rewrite occurrences_cons. lia.
      * split; [exact (aside_trans _ _ _ A1 A)|].
        rewrite C, C1. simpl. now rewrite <- app_assoc.
Qed.

End CountedObjects.

(** *** Ports as counted objects *)

Lemma ports_aside_refl h : ports_aside h h.
Proof. repeat split; reflexivity. Qed.

Lemma ports_aside_trans h1 h2 h3 :
  ports_aside h1 h2 -> ports_aside h2 h3 -> ports_aside h1 h3.
Proof. intros (A & B & C) (A' & B' & C'). repeat split; congruence. Qed.

Lemma set_port_count_same P : set_port_count (users_count_ (port_base P)) P = P.
Proof. now destruct P as [[c] j nm b]. Qed.

Lemma Port_incrementUsers_spec q P h :
  q <> nullptr -> ports h !! q = Some P ->
  exists h', Port_incrementUsers q h = Ok (tt, h') /\
    ports h' = <[q := set_port_count
                   ((users_count_ (port_base P) + 1) mod UINT_RANGE) P]> (ports h) /\
    ports_aside h h' /\ cerr h' = cerr h ++ [PlusPlus q].
Proof.
  intros Hq E. eexists. split; [exact (Port_incrementUsers_Ok q P h Hq E)|].
  repeat split; reflexivity.
Qed.

Lemma Port_decrementUsers_spec q P h :
  q <> nullptr -> ports h !! q = Some P -> users_count_ (port_base P) <> 0%Z ->
  exists h', Port_decrementUsers q h = Ok (tt, h') /\
    ports h' = <[q := set_port_count
                   ((users_count_ (port_base P) - 1) mod UINT_RANGE) P]> (ports h) /\
    ports_aside h h' /\ cerr h' = cerr h ++ [MinusMinus q].
Proof.
  intros Hq E Hc. eexists. split.
  - unfold Port_decrementUsers.
    rewrite (bind_Ok _ _ _ _ _ (deref_port_Ok _ _ _ Hq E)).
    unfold bind at 1. unfold lift, CountUsers_decrementUsers.
    destruct (Z.eqb_spec (users_count_ (port_base P)) 0) as [|_]; [contradiction|].
    reflexivity.
  - repeat split; reflexivity.
Qed.

(** *** Gain nodes as counted objects *)

Lemma points_aside_refl h : points_aside h h.
Proof. repeat split; reflexivity. Qed.

Lemma points_aside_trans h1 h2 h3 :
  points_aside h1 h2 -> points_aside h2 h3 -> points_aside h1 h3.
Proof. intros (A & B & C) (A' & B' & C'). repeat split; congruence. Qed.

Lemma set_point_count_same x : set_point_count (users_count_ (point_base x)) x = x.
Proof. now destruct x as [[c] i o g]. Qed.

Lemma MatrixPoint_incrementUsers_spec q x h :
  q <> nullptr -> points h !! q = Some x ->
  exists h', MatrixPoint_incrementUsers q h = Ok (tt, h') /\
    points h' = <[q := set_point_count
                    ((users_count_ (point_base x) + 1) mod UINT_RANGE) x]> (points h) /\
    points_aside h h' /\ cerr h' = cerr h ++ [PlusPlus q].
Proof.
  intros Hq E. eexists. split.
  - unfold MatrixPoint_incrementUsers.
    rewrite (bind_Ok _ _ _ _ _ (deref_point_Ok _ _ _ Hq E)). reflexivity.
  - repeat split; reflexivity.
Qed.

Lemma MatrixPoint_decrementUsers_spec q x h :
  q <> nullptr -> points h !! q = Some x -> users_count_ (point_base x) <> 0%Z ->
  exists h', MatrixPoint_decrementUsers q h = Ok (tt, h') /\
    points h' = <[q := set_point_count
                    ((users_count_ (point_base x) - 1) mod UINT_RANGE) x]> (points h) /\
    points_aside h h' /\ cerr h' = cerr h ++ [MinusMinus q].
Proof.
  intros Hq E Hc. eexists. split.
  - unfold MatrixPoint_decrementUsers.
    rewrite (bind_Ok _ _ _ _ _ (deref_point_Ok _ _ _ Hq E)).
    unfold bind at 1. unfold lift, CountUsers_decrementUsers.
    destruct (Z.eqb_spec (users_count_ (point_base x)) 0) as [|_]; [contradiction|].
    reflexivity.
  - repeat split; reflexivity.
Qed.

Lemma increment_ports l s h0 h :
  shifted ports port_count set_port_count s h0 h ->
  (forall q, q ∈ l -> q <> nullptr /\ is_Some (ports h0 !! q)) ->
  exists h',
    for_each l Port_incrementUsers h = Ok (tt, h') /\
    shifted ports port_count set_port_count
      (fun p => (s p + occurrences l p)%Z) h0 h' /\
    ports_aside h h' /\ cerr h' = cerr h ++ map PlusPlus l.
Proof.
  apply (increment_all ports port_count set_port_count Port_incrementUsers ports_aside
           ports_aside_refl ports_aside_trans); try reflexivity.
  intros q x h1. apply Port_incrementUsers_spec.
Qed.

Lemma decrement_ports l s h0 h :
  shifted ports port_count set_port_count s h0 h ->
  (forall q, q ∈ l ->
     q <> nullptr /\
     exists P, ports h0 !! q = Some P /\
       (0 <= users_count_ (port_base P) + s q - occurrences l q)%Z /\
       (users_count_ (port_base P) + s q < UINT_RANGE)%Z) ->
  exists h',
    for_each l Port_decrementUsers h = Ok (tt, h') /\
    shifted ports port_count set_port_count
      (fun p => (s p - occurrences l p)%Z) h0 h' /\
    ports_aside h h' /\ cerr h' = cerr h ++ map MinusMinus l.
Proof.
  apply (decrement_all ports port_count set_port_count Port_decrementUsers ports_aside
           ports_aside_refl ports_aside_trans); try reflexivity.
  intros q x h1. apply Port_decrementUsers_spec.
Qed.

Lemma increment_points l s h0 h :
  shifted points point_count set_point_count s h0 h ->
  (forall q, q ∈ l -> q <> nullptr /\ is_Some (points h0 !! q)) ->
  exists h',
    for_each l MatrixPoint_incrementUsers h = Ok (tt, h') /\
    shifted points point_count set_point_count
      (fun p => (s p + occurrences l p)%Z) h0 h' /\
    points_aside h h' /\ cerr h' = cerr h ++ map PlusPlus l.
Proof.
  apply (increment_all points point_count set_point_count MatrixPoint_incrementUsers
           points_aside points_aside_refl points_aside_trans); try reflexivity.
  intros q x h1. apply MatrixPoint_incrementUsers_spec.
Qed.

Lemma decrement_points l s h0 h :
  shifted points point_count set_point_count s h0 h ->
  (forall q, q ∈ l ->
     q <> nullptr /\
     exists x, points h0 !! q = Some x /\
       (0 <= users_count_ (point_base x) + s q - occurrences l q)%Z /\
       (users_count_ (point_base x) + s q < UINT_RANGE)%Z) ->
  exists h',
    for_each l MatrixPoint_decrementUsers h = Ok (tt, h') /\
    shifted points point_count set_point_count
      (fun p => (s p - occurrences l p)%Z) h0 h' /\
    points_aside h h' /\ cerr h' = cerr h ++ map MinusMinus l.
Proof.
  apply (decrement_all points point_count set_point_count MatrixPoint_decrementUsers
           points_aside points_aside_refl points_aside_trans); try reflexivity.
  intros q x h1. apply MatrixPoint_decrementUsers_spec.
Qed.

(** ** [refAll] against [unrefAll] *)

Lemma occurrences_not_member l p : p ∉ l -> occurrences l p = 0%Z.
Proof.
  induction l as [|q l IH]; intros Hp; [reflexivity|].
  rewrite occurrences_cons, IH by (intros H; apply Hp; now right).
  unfold points_at. rewrite decide_False; [reflexivity|].
  intros ->. apply Hp. now left.
Qed.

Lemma shifted_exact {T} (get : Heap -> gmap N T) count set_count s h0 h p x :
  shifted get count set_count s h0 h ->
  get h0 !! p = Some x ->
  (0 <= count x + s p < UINT_RANGE)%Z ->
  get h !! p = Some (set_count (count x + s p)%Z x).
Proof.
  intros Hs E Hr. rewrite (Hs p), E. simpl. now rewrite Z.mod_small by exact Hr.
Qed.

(** X6. On a graph whose counters have room for the pins, [refAll] returns
    and adds to every counter the number of times its object is listed in
    the vectors; [unrefAll] after it returns too, empties the three vectors
    and puts every port and every gain node back exactly as it was.  The
    only trace left is on [std::cerr]: one ["++"] line and later one
    ["--"] line for every pointer listed, in the order of the vectors. *)
Theorem refAll_then_unrefAll (d : Dsp) (h : Heap) :
  pinnable d h ->
  exists h1 h2,
    Dsp_refAll d h = Ok (tt, h1) /\
    (forall p P, ports h !! p = Some P ->
       ports h1 !! p
       = Some (set_port_count (users_count_ (port_base P)
                               + occurrences (inputs d ++ outputs d) p) P)) /\
    (forall m x, points h !! m = Some x ->
       points h1 !! m
       = Some (set_point_count (users_count_ (point_base x)
                                + occurrences (matrix_points d) m) x)) /\
    Dsp_unrefAll d h1 = Ok (mkDsp [] [] [], h2) /\
    ports h2 = ports h /\ points h2 = points h /\
    audio h2 = audio h /\ calls h2 = calls h /\
    cerr h2 = cerr h
      ++ map PlusPlus (inputs d ++ outputs d ++ matrix_points d)
      ++ map MinusMinus (inputs d ++ outputs d ++ matrix_points d).
Proof.
  intros [Hports Hpoints Hpr Hnr].
  set (lp := inputs d ++ outputs d) in *. set (ln := matrix_points d) in *.
  pose proof (shifted_start ports port_count set_port_count set_port_count_same h Hpr)
    as Sp0.
  pose proof (shifted_start points point_count set_point_count set_point_count_same h Hnr)
    as Sn0.
  (* refAll *)
  destruct (increment_ports lp _ h h Sp0) as (h1 & E1 & Sp1 & (Pt1 & Au1 & Ca1) & Ce1).
  { intros q Hq. destruct (Hports q Hq) as (Hn & P & EP & _). split; [exact Hn|eauto]. }
  destruct (increment_points ln (fun _ => 0%Z) h h1)
    as (h2 & E2 & Sn2 & (Po2 & Au2 & Ca2) & Ce2).
  { apply (shifted_get points point_count set_point_count _ h h h1 Pt1 Sn0). }
  { intros q Hq. destruct (Hpoints q Hq) as (Hn & x & Ex & _). split; [exact Hn|eauto]. }
  assert (Sp2 : shifted ports port_count set_port_count
                  (fun p => (0 + occurrences lp p)%Z) h h2)
    by (apply (shifted_get ports port_count set_port_count _ h h1 h2 Po2 Sp1)).
  (* unrefAll *)
  destruct (decrement_ports lp _ h h2 Sp2) as (h3 & E3 & Sp3 & (Pt3 & Au3 & Ca3) & Ce3).
  { intros q Hq. destruct (Hports q Hq) as (Hn & P & EP & Hroom).
    split; [exact Hn|]. exists P. split; [exact EP|].
    pose proof (Hpr q P EP). fold lp in Hroom. lia. }
  assert (Sn3 : shifted points point_count set_point_count
                  (fun p => (0 + occurrences ln p)%Z) h h3)
    by (apply (shifted_get points point_count set_point_count _ h h2 h3 Pt3 Sn2)).
  destruct (decrement_points ln _ h h3 Sn3) as (h4 & E4 & Sn4 & (Po4 & Au4 & Ca4) & Ce4).
  { intros q Hq. destruct (Hpoints q Hq) as (Hn & x & Ex & Hroom).
    split; [exact Hn|]. exists x. split; [exact Ex|].
    pose proof (Hnr q x Ex). fold ln in Hroom. lia. }
  exists h2, h4. split; [|split; [|split; [|split]]].
  - unfold Dsp_refAll. rewrite <- bind_assoc.
    fold lp in E1. unfold lp in E1. rewrite for_each_app in E1.
    now rewrite (bind_Ok _ _ _ _ _ E1).
  - intros p P EP. rewrite Po2.
    rewrite (shifted_exact ports port_count set_port_count _ h h1 p P Sp1 EP).
    + now rewrite Z.add_0_l.
    + pose proof (Hpr p P EP). pose proof (occurrences_nonneg lp p).
      destruct (decide (p ∈ lp)) as [Hin|Hin].
      * destruct (Hports p Hin) as (_ & P' & EP' & Hroom).
        assert (P' = P) by congruence. subst P'. fold lp in Hroom. lia.
      * rewrite (occurrences_not_member lp p Hin). lia.
  - intros m x Ex.
    rewrite (shifted_exact points point_count set_point_count _ h h2 m x Sn2 Ex).
    + now rewrite Z.add_0_l.
    + pose proof (Hnr m x Ex). pose proof (occurrences_nonneg ln m).
      destruct (decide (m ∈ ln)) as [Hin|Hin].
      * destruct (Hpoints m Hin) as (_ & x' & Ex' & Hroom).
        assert (x' = x) by congruence. subst x'. fold ln in Hroom. lia.
      * rewrite (occurrences_not_member ln m Hin). lia.
  - unfold Dsp_unrefAll. simpl. rewrite <- bind_assoc.
    unfold lp in E3. rewrite for_each_app in E3.
    rewrite (bind_Ok _ _ _ _ _ E3). fold ln.
    now rewrite (bind_Ok _ _ _ _ _ E4).
  - split; [|split; [|split; [|split]]].
    + rewrite Po4.
      apply (shifted_back ports port_count set_port_count set_port_count_same h h3 Hpr).
      eapply shifted_ext; [|exact Sp3]. intros p. cbv beta. lia.
    + apply (shifted_back points point_count set_point_count set_point_count_same
               h h4 Hnr).
      eapply shifted_ext; [|exact Sn4]. intros p. cbv beta. lia.
    + congruence.
    + congruence.
    + rewrite Ce4, Ce3, Ce2, Ce1. unfold lp, ln.
      rewrite !map_app, <- !app_assoc. reflexivity.
Qed.

Lemma counters_in_range_check h :
  map_Forall (fun _ P => (0 <= port_count P < UINT_RANGE)%Z) (ports h) ->
  counters_in_range h.
Proof. intros H p P E. exact (H p P E). Defined.

Lemma node_counters_in_range_check h :
  map_Forall (fun _ x => (0 <= point_count x < UINT_RANGE)%Z) (points h) ->
  node_counters_in_range h.
Proof. intros H m x E. exact (H m x E). Defined.

Lemma refAll_then_unrefAll_witness :
  exists h1 h2,
    Dsp_refAll StudioPins.twice StudioLive.playing = Ok (tt, h1) /\
    port_count <$> ports StudioLive.playing !! 2%N = Some 1%Z /\
    port_count <$> ports h1 !! 2%N = Some 3%Z /\
    Dsp_unrefAll StudioPins.twice h1 = Ok (mkDsp [] [] [], h2) /\
    ports h2 = ports StudioLive.playing /\ points h2 = points StudioLive.playing.
Proof.
  assert (Hpin : pinnable StudioPins.twice StudioLive.playing).
  { constructor.
    - intros p Hp. studio_member Hp.
      all: split; [discriminate|]; eexists; split; [vm_compute; reflexivity|].
      all: vm_compute; reflexivity.
    - intros m Hm. studio_member Hm.
      split; [discriminate|]; eexists; split; [vm_compute; reflexivity|].
      vm_compute; reflexivity.
    - apply counters_in_range_check. apply (bool_decide_unpack _).
      vm_compute. exact I.
    - apply node_counters_in_range_check. apply (bool_decide_unpack _).
      vm_compute. exact I. }
  destruct (refAll_then_unrefAll StudioPins.twice StudioLive.playing Hpin)
    as (h1 & h2 & E1 & Hp1 & _ & E2 & Epo & Ept & _).
  exists h1, h2. split; [exact E1|]. split; [vm_compute; reflexivity|].
  split; [|auto].
  now rewrite (Hp1 2%N (mkPort (mkCountUsers 1) 20%N "O" 200%N))
    by (vm_compute; reflexivity).
Defined.

(** ** A gain node created and destroyed again *)

Lemma for_each_pair {A} (body : A -> M unit) (a b : A) h :
  for_each [a; b] body h = (body a >> body b) h.
Proof.
  simpl. unfold bind. destruct (body a h) as [[[] h1]|f]; [|reflexivity].
  now destruct (body b h1) as [[[] h2]|f].
Qed.

Lemma construct_pin_delete this m h h1 :
  (construct_point this m >>
   Port_incrementUsers (input_ m) >>
   Port_incrementUsers (output_ m)) h = Ok (tt, h1) ->
  counters_in_range h ->
  (forall p P, p ∈ [input_ m; output_ m] -> ports h !! p = Some P ->
     (users_count_ (port_base P) + occurrences [input_ m; output_ m] p
      < UINT_RANGE)%Z) ->
  exists h2,
    MatrixPoint_delete this h1 = Ok (tt, h2) /\
    ports h2 = ports h /\ points h2 = points h /\
    audio h2 = audio h /\ calls h2 = calls h /\
    cerr h2 = cerr h ++ [PlusPlus (input_ m); PlusPlus (output_ m);
                         MinusMinus (input_ m); MinusMinus (output_ m)].
Proof.
  intros E Hr Hroom.
  apply bind_inv in E as ([] & hc & Ec & E).
  apply construct_point_inv in Ec as (Hthis & Efree & ->).
  set (hc := set_points (insert this m) h) in *.
  set (l := [input_ m; output_ m]) in *.
  (* the two pointers are non-null and live *)
  assert (Hlive : forall q, q ∈ l -> q <> nullptr /\ is_Some (ports h !! q)).
  { pose proof E as E'. apply bind_inv in E' as ([] & ha & Ea & Eo).
    apply Port_incrementUsers_inv in Ea as (Hi & A & EA & ->).
    apply Port_incrementUsers_inv in Eo as (Ho & O & EO & _).
    intros q Hq. apply elem_of_cons in Hq as [->|Hq].
    - split; [exact Hi|]. simpl in EA. eauto.
    - apply list_elem_of_singleton in Hq as ->. split; [exact Ho|].
      simpl in EO. destruct (decide (input_ m = output_ m)) as [Eio|Eio].
      + rewrite <- Eio. simpl in EA. eauto.
      + rewrite lookup_insert_ne in EO by exact Eio. eauto. }
  pose proof (shifted_start ports port_count set_port_count set_port_count_same h Hr)
    as S0.
  destruct (increment_ports l (fun _ => 0%Z) h hc)
    as (h1' & E1 & S1 & (Pt1 & Au1 & Ca1) & Ce1); [exact S0|exact Hlive|].
  unfold l in E1. rewrite for_each_pair in E1.
  assert (h1' = h1) by congruence. subst h1'.
  destruct (decrement_ports l _ h h1 S1) as (h3 & E3 & S3 & (Pt3 & Au3 & Ca3) & Ce3).
  { intros q Hq. destruct (Hlive q Hq) as (Hn & P & EP).
    split; [exact Hn|]. exists P. split; [exact EP|].
    pose proof (Hr q P EP). pose proof (Hroom q P Hq EP). lia. }
  unfold l in E3. rewrite for_each_pair in E3.
  destruct (Hlive (input_ m) ltac:(left)) as [Hi _].
  destruct (Hlive (output_ m) ltac:(right; left)) as [Ho _].
  exists (set_points (delete this) h3). split.
  - unfold MatrixPoint_delete.
    erewrite bind_Ok; cycle 1.
    { apply deref_point_Ok; [exact Hthis|]. rewrite Pt1. simpl. apply lookup_insert_eq. }
    destruct (N.eqb_spec (input_ m) nullptr) as [|_]; [contradiction|].
    destruct (N.eqb_spec (output_ m) nullptr) as [|_]; [contradiction|].
    rewrite <- bind_assoc. now rewrite (bind_Ok _ _ _ _ _ E3).
  - simpl. split; [|split; [|split; [|split]]].
    + apply (shifted_back ports port_count set_port_count set_port_count_same h h3 Hr).
      eapply shifted_ext; [|exact S3]. intros p. cbv beta. lia.
    + rewrite Pt3, Pt1. simpl. now apply delete_insert_id.
    + now rewrite Au3, Au1.
    + now rewrite Ca3, Ca1.
    + rewrite Ce3, Ce1. simpl. now rewrite <- app_assoc.
Qed.

(** X7. A gain node that is constructed (or copy-constructed) and then
    destroyed leaves every port and every other gain node exactly as they
    were, provided the counters of the two ports had room for the extra
    user.  What remains is four lines on [std::cerr]. *)
Theorem connect_then_disconnect (this : addr) (h : Heap) :
  counters_in_range h ->
  (forall input output gain h1,
     MatrixPoint_new this input output gain h = Ok (tt, h1) ->
     (forall p P, p ∈ [input; output] -> ports h !! p = Some P ->
        (users_count_ (port_base P) + occurrences [input; output] p
         < UINT_RANGE)%Z) ->
     exists h2,
       MatrixPoint_delete this h1 = Ok (tt, h2) /\
       ports h2 = ports h /\ points h2 = points h /\
       audio h2 = audio h /\ calls h2 = calls h /\
       cerr h2 = cerr h ++ [PlusPlus input; PlusPlus output;
                            MinusMinus input; MinusMinus output]) /\
  (forall copyfrom src h1,
     points h !! copyfrom = Some src ->
     MatrixPoint_copy this copyfrom h = Ok (tt, h1) ->
     (forall p P, p ∈ [input_ src; output_ src] -> ports h !! p = Some P ->
        (users_count_ (port_base P) + occurrences [input_ src; output_ src] p
         < UINT_RANGE)%Z) ->
     exists h2,
       MatrixPoint_delete this h1 = Ok (tt, h2) /\
       ports h2 = ports h /\ points h2 = points h /\
       audio h2 = audio h /\ calls h2 = calls h /\
       cerr h2 = cerr h ++ [PlusPlus (input_ src); PlusPlus (output_ src);
                            MinusMinus (input_ src); MinusMinus (output_ src)]).
Proof.
  intros Hr. split.
  - intros input output gain h1 E Hroom.
    exact (construct_pin_delete this
             (mkMatrixPoint (mkCountUsers 0) input output gain) h h1 E Hr Hroom).
  - intros copyfrom src h1 Esrc E Hroom. unfold MatrixPoint_copy in E.
    apply bind_inv in E as (src' & h0 & E0 & E).
    apply deref_point_inv in E0 as (_ & Esrc' & ->).
    assert (src' = src) by congruence. subst src'.
    exact (construct_pin_delete this
             (mkMatrixPoint (mkCountUsers 0) (input_ src) (output_ src) (gain_ src))
             h h1 E Hr Hroom).
Qed.

Lemma connect_then_disconnect_witness :
  exists h1 h2,
    MatrixPoint_new 60%N 3%N 2%N Studio.half StudioLive.playing = Ok (tt, h1) /\
    port_count <$> ports h1 !! 2%N = Some 2%Z /\
    MatrixPoint_delete 60%N h1 = Ok (tt, h2) /\
    ports h2 = ports StudioLive.playing /\ points h2 = points StudioLive.playing.
Proof.
  assert (Hr : counters_in_range StudioLive.playing).
  { apply counters_in_range_check. apply (bool_decide_unpack _). vm_compute. exact I. }
  pose (h1 := Studio.after (MatrixPoint_new 60%N 3%N 2%N Studio.half) StudioLive.playing).
  assert (E1 : MatrixPoint_new 60%N 3%N 2%N Studio.half StudioLive.playing = Ok (tt, h1))
    by (vm_compute; reflexivity).
  destruct (connect_then_disconnect 60%N StudioLive.playing Hr) as [Hnew _].
  destruct (Hnew _ _ _ _ E1) as (h2 & E2 & Epo & Ept & _).
  - intros p P Hp EP. studio_member Hp.
    all: vm_compute in EP; injection EP as <-; vm_compute; reflexivity.
  - exists h1, h2. split; [exact E1|]. split; [vm_compute; reflexivity|]. auto.
Defined.

(** ** [std::cerr] as a journal of the usage counters *)

Lemma log_balance_app l1 l2 p :
  log_balance (l1 ++ l2) p = (log_balance l1 p + log_balance l2 p)%Z.
Proof.
  induction l1 as [|l l1 IH]; [reflexivity|].
  change (log_balance ((l :: l1) ++ l2) p)
    with (line_weight p l + log_balance (l1 ++ l2) p)%Z.
  change (log_balance (l :: l1) p) with (line_weight p l + log_balance l1 p)%Z.
  rewrite IH. lia.
Qed.

Lemma journaled_refl h : counters_in_range h -> journaled h h.
Proof.
  intros Hr. exists []. split; [now rewrite app_nil_r|].
  exact (shifted_start ports port_count set_port_count set_port_count_same h Hr).
Qed.

Lemma journaled_points f h0 h : journaled h0 h -> journaled h0 (set_points f h).
Proof. intros (new & C & S). exists new. split; [exact C|exact S]. Qed.

Lemma journaled_step h0 h q Q d l h' :
  journaled h0 h -> ports h !! q = Some Q ->
  ports h' = <[q := set_port_count ((users_count_ (port_base Q) + d) mod UINT_RANGE) Q]>
               (ports h) ->
  cerr h' = cerr h ++ [l] ->
  (forall p, line_weight p l = (d * points_at q p)%Z) ->
  journaled h0 h'.
Proof.
  intros (new & C & S) EQ Ep Ec Hl. exists (new ++ [l]). split.
  - now rewrite Ec, C, <- app_assoc.
  - intros p. rewrite Ep, log_balance_app.
    change (log_balance [l] p) with (line_weight p l + 0)%Z. rewrite Hl.
    pose proof (S q) as Sq. rewrite EQ in Sq.
    destruct (ports h0 !! q) as [x|] eqn:Ex; [simpl in Sq|discriminate].
    injection Sq as ->. unfold points_at.
    destruct (decide (q = p)) as [<-|Hne].
    + rewrite lookup_insert_eq, Ex. simpl. unfold set_port_count, with_port_base.
      simpl. rewrite Zplus_mod_idemp_l. do 4 f_equal. lia.
    + rewrite lookup_insert_ne by exact Hne. rewrite (S p).
      destruct (ports h0 !! p) as [y|]; [simpl|reflexivity]. do 4 f_equal. lia.
Qed.

Lemma journaled_increment h0 h q h' :
  journaled h0 h -> Port_incrementUsers q h = Ok (tt, h') -> journaled h0 h'.
Proof.
  intros J E. apply Port_incrementUsers_inv in E as (_ & Q & EQ & ->).
  apply (journaled_step h0 h q Q 1 (PlusPlus q)); [exact J|exact EQ|reflexivity|reflexivity|].
  intros p. simpl. lia.
Qed.

Lemma journaled_decrement h0 h q h' :
  journaled h0 h ->
  (if (q =? nullptr)%N then ret tt else Port_decrementUsers q) h = Ok (tt, h') ->
  journaled h0 h'.
Proof.
  intros J E. destruct (q =? nullptr)%N.
  - now injection E as <-.
  - apply Port_decrementUsers_inv in E as (_ & Q & EQ & _ & ->).
    apply (journaled_step h0 h q Q (-1) (MinusMinus q));
      [exact J|exact EQ|reflexivity|reflexivity|].
    intros p. simpl. lia.
Qed.

Lemma journaled_construct h0 this m h h' :
  journaled h0 h ->
  (construct_point this m >>
   Port_incrementUsers (input_ m) >>
   Port_incrementUsers (output_ m)) h = Ok (tt, h') ->
  journaled h0 h'.
Proof.
  intros J E.
  apply bind_inv in E as ([] & h1 & E1 & E).
  apply bind_inv in E as ([] & h2 & E2 & E3).
  apply construct_point_inv in E1 as (_ & _ & ->).
  eapply journaled_increment; [|exact E3].
  eapply journaled_increment; [|exact E2].
  now apply journaled_points.
Qed.

Lemma journaled_happen h0 e h h' :
  journaled h0 h -> happen e h = Ok (tt, h') -> journaled h0 h'.
Proof.
  intros J E. destruct e as [this i o g|this from|this from|this]; simpl in E.
  - exact (journaled_construct h0 this _ h h' J E).
  - unfold MatrixPoint_copy in E.
    apply bind_inv in E as (src & h1 & E1 & E).
    apply deref_point_inv in E1 as (_ & _ & ->).
    exact (journaled_construct h0 this _ h h' J E).
  - apply MatrixPoint_move_inv in E as (src & _ & _ & _ & _ & ->).
    now do 2 apply journaled_points.
  - unfold MatrixPoint_delete in E.
    apply bind_inv in E as (m & h1 & E0 & E).
    apply deref_point_inv in E0 as (_ & _ & ->).
    apply bind_inv in E as ([] & h2 & E1 & E).
    apply bind_inv in E as ([] & h3 & E2 & E3).
    unfold modify in E3. injection E3 as <-.
    apply journaled_points.
    eapply journaled_decrement; [|exact E2].
    eapply journaled_decrement; [|exact E1]. exact J.
Qed.

Lemma journaled_events h0 events : forall h h',
  journaled h0 h -> for_each events happen h = Ok (tt, h') -> journaled h0 h'.
Proof.
  induction events as [|e events IH]; intros h h' J E; simpl in E.
  - now injection E as <-.
  - apply bind_inv in E as ([] & h1 & E1 & E2).
    apply (IH h1); [|exact E2]. exact (journaled_happen h0 e h h1 J E1).
Qed.

(** X8. The lines on [std::cerr] are a complete journal of the port
    counters: over any sequence of node constructions, copies, moves and
    destructions that runs to completion, the log only grows, no port
    appears or disappears, and every port ends with the counter it had plus
    the number of new ["++"] lines that name it minus the number of new
    ["--"] lines that name it (as an [unsigned int]); nothing else about a
    port changes. *)
Theorem cerr_journals_port_counters (events : list lifetime_event) (h h' : Heap) :
  counters_in_range h ->
  for_each events happen h = Ok (tt, h') ->
  exists new,
    cerr h' = cerr h ++ new /\
    forall p,
      ports h' !! p
      = (fun P => set_port_count
                    ((users_count_ (port_base P) + log_balance new p) mod UINT_RANGE) P)
        <$> ports h !! p.
Proof.
  intros Hr E.
  exact (journaled_events h events h h' (journaled_refl h Hr) E).
Qed.

Lemma cerr_journals_port_counters_witness :
  exists h' new,
    for_each StudioLife.events happen Studio.idle = Ok (tt, h') /\
    cerr h' = cerr Studio.idle ++ new /\
    log_balance new 1%N = 1%Z /\
    port_count <$> ports h' !! 1%N = Some 1%Z.
Proof.
  assert (Hr : counters_in_range Studio.idle).
  { apply counters_in_range_check. apply (bool_decide_unpack _). vm_compute. exact I. }
  pose (h' := Studio.after (for_each StudioLife.events happen) Studio.idle).
  assert (E : for_each StudioLife.events happen Studio.idle = Ok (tt, h'))
    by (vm_compute; reflexivity).
  destruct (cerr_journals_port_counters StudioLife.events Studio.idle h' Hr E)
    as (new & C & S).
  exists h', new. split; [exact E|]. split; [exact C|].
  assert (new = cerr h').
  { replace (cerr Studio.idle) with (@nil cerr_line) in C by reflexivity.
    now rewrite C. }
  subst new. split; vm_compute; reflexivity.
Defined.

(** ** When [MatrixPoint::process] returns *)

Lemma Port_buffer_inv p b h h' :
  Port_buffer p h = Ok (b, h') ->
  h' = h /\ p <> nullptr /\ exists P, ports h !! p = Some P /\
    buffer_ P <> nullptr /\ b = buffer_ P.
Proof.
  unfold Port_buffer. intros E.
  apply bind_inv in E as (P & h1 & E1 & E).
  apply deref_port_inv in E1 as (Hp & EP & ->).
  unfold bind, assert, ret in E.
  destruct (N.eqb_spec (buffer_ P) nullptr) as [|Hb]; [discriminate|].
  injection E as <- <-. split; [reflexivity|]. split; [exact Hp|]. eauto.
Qed.

(** With its pointers in order, [process] is its loop. *)
Lemma MatrixPoint_process_loop this m pin pout n h :
  this <> nullptr -> points h !! this = Some m ->
  input_ m <> nullptr -> ports h !! input_ m = Some pin ->
  output_ m <> nullptr -> ports h !! output_ m = Some pout ->
  buffer_ pin <> nullptr -> buffer_ pout <> nullptr ->
  MatrixPoint_process this n h
  = for_range 0 n (accumulate_sample (gain_ m) (buffer_ pin) (buffer_ pout))
      (record_call (CallProcess this n) h).
Proof.
  intros Ht Em Hi Ei Ho Eo Hbi Hbo. unfold MatrixPoint_process.
  unfold bind at 1. unfold modify at 1.
  set (h0 := record_call (CallProcess this n) h).
  erewrite bind_Ok; [|apply deref_point_Ok; [exact Ht|exact Em]].
  unfold bind at 1. erewrite Port_buffer_eval; [|exact Hi|exact Ei].
  destruct (N.eqb_spec (buffer_ pin) nullptr) as [|_]; [congruence|].
  erewrite bind_Ok; [|apply deref_point_Ok; [exact Ht|exact Em]].
  unfold bind at 1. erewrite Port_buffer_eval; [|exact Ho|exact Eo].
  destruct (N.eqb_spec (buffer_ pout) nullptr) as [|_]; [congruence|].
  erewrite bind_Ok; [|apply deref_point_Ok; [exact Ht|exact Em]].
  reflexivity.
Qed.

Lemma MatrixPoint_process_inv this n h h' :
  MatrixPoint_process this n h = Ok (tt, h') ->
  this <> nullptr /\
  exists m pin pout,
    points h !! this = Some m /\
    input_ m <> nullptr /\ ports h !! input_ m = Some pin /\
    output_ m <> nullptr /\ ports h !! output_ m = Some pout /\
    buffer_ pin <> nullptr /\ buffer_ pout <> nullptr /\
    for_range 0 n (accumulate_sample (gain_ m) (buffer_ pin) (buffer_ pout))
      (record_call (CallProcess this n) h) = Ok (tt, h').
Proof.
  intros E. pose proof E as E'. unfold MatrixPoint_process in E'.
  apply bind_inv in E' as ([] & h0 & E0 & E1).
  unfold modify in E0. injection E0 as <-.
  apply bind_inv in E1 as (m & ha & Em & E1).
  apply deref_point_inv in Em as (Ht & Em & ->).
  apply bind_inv in E1 as (bi & hb & Ebi & E1).
  apply Port_buffer_inv in Ebi as (-> & Hi & pin & Ei & Hbi & ->).
  apply bind_inv in E1 as (m' & hc & Em' & E1).
  apply deref_point_inv in Em' as (_ & Em' & ->).
  apply bind_inv in E1 as (bo & hd & Ebo & E1).
  apply Port_buffer_inv in Ebo as (-> & Ho & pout & Eo & Hbo & ->).
  simpl in Em, Em', Ei, Eo.
  assert (m' = m) by congruence. subst m'.
  split; [exact Ht|]. exists m, pin, pout.
  rewrite <- (MatrixPoint_process_loop this m pin pout n h) by assumption.
  repeat (split; [assumption|]). exact E.
Qed.

Lemma block_holds_frame h h' b n :
  block_frame h h' -> block_holds h' b n -> block_holds h b n.
Proof.
  intros (_ & _ & _ & Hlen) (buf & Eb & Hn). specialize (Hlen b).
  rewrite Eb in Hlen. destruct (audio h !! b) as [buf0|] eqn:Eb0; [|discriminate].
  simpl in Hlen. injection Hlen as Hlen. exists buf0. split; [exact Eb0|lia].
Qed.

Lemma for_range_accumulate_holds gain bi bo : forall count from h h',
  for_range from count (accumulate_sample gain bi bo) h = Ok (tt, h') ->
  0 < count ->
  block_holds h bi (from + count) /\ block_holds h bo (from + count).
Proof.
  induction count as [|count IH]; intros from h h' E Hpos; [lia|].
  simpl in E. apply bind_inv in E as ([] & h1 & E1 & E2).
  destruct (accumulate_sample_frame _ _ _ _ _ _ E1) as [F1 _].
  unfold accumulate_sample in E1.
  apply bind_inv in E1 as (x & hx & Ex & E1).
  apply load_inv in Ex as (-> & _ & xs & Exs & Ex).
  apply bind_inv in E1 as (y & hy & Ey & E1).
  apply load_inv in Ey as (-> & _ & ys & Eys & Ey).
  apply lookup_lt_Some in Ex. apply lookup_lt_Some in Ey.
  destruct count as [|count].
  - split; [exists xs|exists ys]; (split; [assumption|lia]).
  - destruct (IH (S from) h1 h' E2 ltac:(lia)) as [Bi Bo].
    replace (from + S (S count)) with (S from + S count) by lia.
    split; eapply block_holds_frame; eauto.
Qed.

Lemma accumulate_sample_in_place gain b i buf y h0 :
  b <> nullptr -> buf !! i = Some y ->
  accumulate_sample gain b b i (with_block b buf h0)
  = Ok (tt, with_block b (<[i := fed_back gain i y]> buf) h0).
Proof.
  intros Hb Ey. unfold accumulate_sample.
  erewrite bind_Ok; cycle 1.
  { eapply load_Ok; [exact Hb| |exact Ey]. simpl. apply lookup_insert_eq. }
  erewrite bind_Ok; cycle 1.
  { eapply load_Ok; [exact Hb| |exact Ey]. simpl. apply lookup_insert_eq. }
  erewrite store_Ok; cycle 1.
  - exact Hb.
  - simpl. apply lookup_insert_eq.
  - apply lookup_lt_Some in Ey. exact Ey.
  - now rewrite with_block_twice.
Qed.

Lemma MatrixPoint_process_in_place this m pin pout ys n h :
  this <> nullptr -> points h !! this = Some m ->
  input_ m <> nullptr -> ports h !! input_ m = Some pin ->
  output_ m <> nullptr -> ports h !! output_ m = Some pout ->
  buffer_ pout <> nullptr -> buffer_ pin = buffer_ pout ->
  audio h !! buffer_ pout = Some ys -> n <= length ys ->
  MatrixPoint_process this n h
  = Ok (tt, with_block (buffer_ pout) (map_range (fed_back (gain_ m)) 0 n ys)
              (record_call (CallProcess this n) h)).
Proof.
  intros Ht Em Hi Ei Ho Eo Hbo Hsame Eys Hn.
  rewrite (MatrixPoint_process_loop this m pin pout n h)
    by (try assumption; congruence).
  rewrite Hsame.
  set (h0 := record_call (CallProcess this n) h).
  rewrite <- (with_block_same (buffer_ pout) ys h0) at 1 by exact Eys.
  apply (for_range_map_range (buffer_ pout) (fed_back (gain_ m)) _ n h0); [|lia|exact Hn].
  intros i buf y _ Ey. now apply accumulate_sample_in_place.
Qed.

(** X9. [MatrixPoint::process] returns exactly when [this] points to a
    live node whose two port pointers are non-null and point to live ports
    that each cache a non-null pointer and, for a block of at least one
    sample, both cached pointers lead to at least [samples_count] samples.
    For an empty block the cached pointers are never followed: the call
    then returns with the store as it was (but for the record of the
    call), even when they dangle. *)
Theorem process_returns_exactly_when (this : addr) (n : nat) (h : Heap) :
  ((exists h', MatrixPoint_process this n h = Ok (tt, h')) <-> processable h this n) /\
  (processable h this 0 ->
   MatrixPoint_process this 0 h = Ok (tt, record_call (CallProcess this 0) h)).
Proof.
  split; [split|].
  - intros [h' E].
    apply MatrixPoint_process_inv in E
      as (Ht & m & pin & pout & Em & Hi & Ei & Ho & Eo & Hbi & Hbo & E).
    split; [exact Ht|]. exists m, pin, pout.
    repeat (split; [assumption|]).
    destruct n as [|n]; [now left|right].
    destruct (for_range_accumulate_holds _ _ _ _ _ _ _ E ltac:(lia)) as [Bi Bo].
    split; (eapply block_holds_frame; [apply block_frame_record|eassumption]).
  - intros (Ht & m & pin & pout & Em & Hi & Ei & Ho & Eo & Hbi & Hbo & Hn).
    destruct Hn as [->|[(xs & Exs & Hxs) (ys & Eys & Hys)]].
    + rewrite (MatrixPoint_process_loop this m pin pout 0 h) by assumption.
      simpl. eauto.
    + destruct (decide (buffer_ pin = buffer_ pout)) as [Hsame|Hne].
      * erewrite MatrixPoint_process_in_place; eauto.
      * erewrite MatrixPoint_process_Ok; eauto.
  - intros (Ht & m & pin & pout & Em & Hi & Ei & Ho & Eo & Hbi & Hbo & _).
    now rewrite (MatrixPoint_process_loop this m pin pout 0 h) by assumption.
Qed.

Lemma processable_playing : processable StudioLive.playing 50%N 4.
Proof.
  split; [discriminate|].
  destruct (points StudioLive.playing !! 50%N) as [m|] eqn:Em;
    [|vm_compute in Em; discriminate].
  destruct (ports StudioLive.playing !! 1%N) as [pin|] eqn:Ei;
    [|vm_compute in Ei; discriminate].
  destruct (ports StudioLive.playing !! 2%N) as [pout|] eqn:Eo;
    [|vm_compute in Eo; discriminate].
  exists m, pin, pout.
  vm_compute in Em. injection Em as <-.
  vm_compute in Ei. injection Ei as <-.
  vm_compute in Eo. injection Eo as <-.
  split; [reflexivity|]. split; [discriminate|]. split; [reflexivity|].
  split; [discriminate|]. split; [reflexivity|].
  split; [discriminate|]. split; [discriminate|]. right.
  split; eexists; (split; [vm_compute; reflexivity|simpl; lia]).
Defined.

Lemma process_returns_exactly_when_witness :
  processable StudioLive.playing 50%N 4 /\
  exists h', MatrixPoint_process 50%N 4 StudioLive.playing = Ok (tt, h').
Proof.
  split; [exact processable_playing|].
  exact (proj2 (proj1 (process_returns_exactly_when 50%N 4 StudioLive.playing))
           processable_playing).
Defined.

(** X10. When the input port and the output port of a gain node cache the
    same pointer, [process] reads each sample before it overwrites it:
    sample [i] below [samples_count] becomes [y + gain * y], where [y] is
    its old value, and the samples from [samples_count] on are not
    touched. *)
Theorem shared_block_feeds_back
    (this : addr) (m : MatrixPoint) (pin pout : Port) (ys : list float)
    (n : nat) (h : Heap) :
  this <> nullptr -> points h !! this = Some m ->
  input_ m <> nullptr -> ports h !! input_ m = Some pin ->
  output_ m <> nullptr -> ports h !! output_ m = Some pout ->
  buffer_ pout <> nullptr -> buffer_ pin = buffer_ pout ->
  audio h !! buffer_ pout = Some ys -> n <= length ys ->
  exists h',
    MatrixPoint_process this n h = Ok (tt, h') /\
    forall i y, ys !! i = Some y ->
      block_sample h' (buffer_ pout) i
      = Some (if decide (i < n) then F32.add y (F32.mul (gain_ m) y) else y).
Proof.
  intros Ht Em Hi Ei Ho Eo Hbo Hsame Eys Hn.
  eexists. split; [eapply MatrixPoint_process_in_place; eauto|].
  intros i y Ey. rewrite block_sample_with_block_eq.
  destruct (decide (i < n)) as [Hlt|Hge].
  - now rewrite (map_range_inside _ 0 n ys i y) by (lia || exact Ey).
  - rewrite map_range_outside by lia. exact Ey.
Qed.

Lemma shared_block_feeds_back_witness :
  exists h',
    MatrixPoint_process 50%N 2 StudioEdge.shared = Ok (tt, h') /\
    block_sample h' 200%N 1 = Some (F32.of_Z 6) /\
    block_sample h' 200%N 2 = Some Studio.half.
Proof.
  destruct (shared_block_feeds_back 50%N
              (mkMatrixPoint (mkCountUsers 0) 1%N 2%N Studio.two)
              (mkPort (mkCountUsers 1) 10%N "A" 200%N)
              (mkPort (mkCountUsers 1) 20%N "O" 200%N)
              [Studio.half; Studio.two; Studio.half; Studio.two]
              2 StudioEdge.shared) as (h' & E & Hs);
    try discriminate; try (vm_compute; reflexivity); try (simpl; lia).
  exists h'. split; [exact E|]. split.
  - refine (eq_trans (Hs 1 Studio.two eq_refl) _). vm_compute. reflexivity.
  - refine (eq_trans (Hs 2 Studio.half eq_refl) _). vm_compute. reflexivity.
Defined.

(** ** [setGain] and the next block *)

(** What any returning [process] leaves in the output block, whether or
    not the two ports share their block. *)
Lemma MatrixPoint_process_samples this n h h2 :
  MatrixPoint_process this n h = Ok (tt, h2) ->
  exists m, points h !! this = Some m /\
    forall i, i < n ->
      exists x y,
        port_sample h (input_ m) i = Some x /\
        port_sample h (output_ m) i = Some y /\
        port_sample h2 (output_ m) i = Some (F32.add y (F32.mul (gain_ m) x)).
Proof.
  intros E. pose proof E as E'.
  apply MatrixPoint_process_inv in E'
    as (Ht & m & pin & pout & Em & Hi & Ei & Ho & Eo & Hbi & Hbo & El).
  exists m. split; [exact Em|]. intros i Hlt.
  destruct (for_range_accumulate_holds _ _ _ _ _ _ _ El ltac:(lia))
    as [(xs & Exs & Hxs) (ys & Eys & Hys)].
  simpl in Exs, Eys, Hxs, Hys.
  destruct (lookup_lt_is_Some_2 xs i) as [x Ex]; [lia|].
  destruct (lookup_lt_is_Some_2 ys i) as [y Ey]; [lia|].
  exists x, y. unfold port_sample, cached_buffer, block_sample.
  rewrite Ei, Eo, Exs, Eys. split; [exact Ex|]. split; [exact Ey|].
  destruct (decide (buffer_ pin = buffer_ pout)) as [Hsame|Hne].
  - rewrite (MatrixPoint_process_in_place this m pin pout ys n h) in E by assumption.
    injection E as <-. simpl. rewrite Eo, lookup_insert_eq.
    rewrite (map_range_inside _ 0 n ys i y) by (lia || exact Ey).
    unfold fed_back. rewrite Hsame in Exs. congruence.
  - rewrite (MatrixPoint_process_Ok this m pin pout xs ys n h) in E by assumption.
    injection E as <-. simpl. rewrite Eo, lookup_insert_eq.
    rewrite (map_range_inside _ 0 n ys i y) by (lia || exact Ey).
    unfold accumulated. now rewrite Ex.
Qed.

Lemma processable_with_gain this g m h n :
  points h !! this = Some m ->
  processable (set_points (insert this (with_gain g m)) h) this n <-> processable h this n.
Proof.
  intros Em. unfold processable, block_holds. simpl. rewrite lookup_insert_eq. split.
  - intros (Ht & m' & pin & pout & [= <-] & H). simpl in H.
    split; [exact Ht|]. exists m, pin, pout. split; [exact Em|exact H].
  - intros (Ht & m' & pin & pout & Em' & H).
    assert (m' = m) by congruence. subst m'.
    split; [exact Ht|]. exists (with_gain g m), pin, pout. split; [reflexivity|exact H].
Qed.

(** X11. After [setGain(g)] has returned, the last value written is the
    one in force: a further [setGain] leaves the store it would have left
    without the first, [process] returns on exactly the blocks it would
    have returned on before, and when it returns every sample of the block
    has become [y + g * x], with [x] and [y] the input and output samples
    before the call, whatever gain the node had before [setGain]. *)
Theorem setGain_takes_effect (this : addr) (g : float) (h h1 : Heap) :
  MatrixPoint_setGain this g h = Ok (tt, h1) ->
  (forall g', MatrixPoint_setGain this g' h1 = MatrixPoint_setGain this g' h) /\
  (forall n, processable h1 this n <-> processable h this n) /\
  (forall n h2, MatrixPoint_process this n h1 = Ok (tt, h2) ->
     exists m, points h !! this = Some m /\
       forall i, i < n ->
         exists x y,
           port_sample h (input_ m) i = Some x /\
           port_sample h (output_ m) i = Some y /\
           port_sample h2 (output_ m) i = Some (F32.add y (F32.mul g x))).
Proof.
  intros E. apply MatrixPoint_setGain_inv in E as (Ht & m & Em & ->).
  split; [|split].
  - intros g'. unfold MatrixPoint_setGain.
    erewrite bind_Ok;
      [|apply deref_point_Ok; [exact Ht|simpl; apply lookup_insert_eq]].
    erewrite (bind_Ok _ _ h); [|apply deref_point_Ok; [exact Ht|exact Em]].
    unfold modify, set_points. simpl. now rewrite insert_insert_eq.
  - intros n. now apply processable_with_gain.
  - intros n h2 E2.
    destruct (MatrixPoint_process_samples this n _ h2 E2) as (m1 & Em1 & Hs).
    simpl in Em1. rewrite lookup_insert_eq in Em1. injection Em1 as <-.
    exists m. split; [exact Em|]. exact Hs.
Qed.

Lemma setGain_takes_effect_witness :
  exists h1 h2,
    MatrixPoint_setGain 50%N Studio.half StudioLive.playing = Ok (tt, h1) /\
    MatrixPoint_process 50%N 4 h1 = Ok (tt, h2) /\
    port_sample StudioLive.playing 1%N 0 = Some Studio.one /\
    port_sample StudioLive.playing 2%N 0 = Some Studio.two /\
    port_sample h2 2%N 0 = Some (F32.of_scaled 5 (-1)).
Proof.
  pose (h1 := Studio.after (MatrixPoint_setGain 50%N Studio.half) StudioLive.playing).
  pose (h2 := Studio.after (MatrixPoint_process 50%N 4) h1).
  assert (E1 : MatrixPoint_setGain 50%N Studio.half StudioLive.playing = Ok (tt, h1))
    by (vm_compute; reflexivity).
  assert (E2 : MatrixPoint_process 50%N 4 h1 = Ok (tt, h2))
    by (vm_compute; reflexivity).
  destruct (setGain_takes_effect 50%N Studio.half StudioLive.playing h1 E1)
    as (_ & _ & Hp).
  destruct (Hp 4 h2 E2) as (m & Em & Hs).
  vm_compute in Em. injection Em as <-.
  destruct (Hs 0 ltac:(lia)) as (x & y & Ex & Ey & Eo).
  exists h1, h2. split; [exact E1|]. split; [exact E2|].
  split; [vm_compute; reflexivity|]. split; [vm_compute; reflexivity|].
  vm_compute. reflexivity.
Defined.

(** ** Taking ports out of the graph *)












